(** * The doubles-match rotation engine (QueueManager), embedded in Rocq

    The development follows [src/queue-management.ts] and [src/types.ts]:
    the records of [types.ts], the JavaScript primitives the engine leans on
    (default [Array.prototype.sort], [Object.entries], template strings),
    the [QueueManager] methods as computations in a small state-and-exception
    monad, and then the properties of the rotation rule, of the statistics
    fold and of the snapshot history, followed by team identity, the
    invariants of a session, [addTeams], the read accessors, the standings
    and the printed queue. *)

From Stdlib Require Import ZArith String Ascii DecimalString DecimalPos DecimalZ Lia.
From stdpp Require Import base option list sets strings sorting.

Open Scope Z_scope.

(** ** JavaScript primitives used by the engine *)

Module Js.

(** [ToString] of an integral Number: decimal digits, a leading minus sign
    for negative values.  Player ids and scores are integral Numbers. *)
Definition ToString (n : Z) : string :=
  NilZero.string_of_int (Z.to_int n).

(** Comparison used by [Array.prototype.sort] when no comparator is given:
    the operands are converted to strings and compared by code units. *)
Definition SortCompare (x y : Z) : Z :=
  if String.ltb (ToString x) (ToString y) then -1
  else if String.ltb (ToString y) (ToString x) then 1
  else 0.

(** [Array.prototype.sort] is stable; with a consistent comparator its
    result is the stable insertion sort below. *)
Fixpoint sort_insert {A} (cmp : A → A → Z) (x : A) (l : list A) : list A :=
  match l with
  | [] => [x]
  | y :: l' => if cmp x y <=? 0 then x :: l else y :: sort_insert cmp x l'
  end.

Definition Array_sort {A} (cmp : A → A → Z) (l : list A) : list A :=
  foldr (sort_insert cmp) [] l.

(** Property names are strings.  A Number used as a property name, as in
    [{ 15: team }] or [obj[15]], is converted with [ToString]: the name is
    the numeral of the Number.  A string can name the same Number in
    another way; of those the model has the numeral followed by a point and
    one or more zeros (["15.0"], ["15.00"], ...). *)
Inductive PropertyKey : Type :=
  | Numeral (n : Z)
  | NumeralPoint (n : Z) (zeros : nat).

#[global] Instance PropertyKey_eq_dec : EqDecision PropertyKey.
Proof. solve_decision. Defined.

Fixpoint zeros_text (n : nat) : string :=
  match n with
  | O => ""
  | S n' => String "0" (zeros_text n')
  end.

(** The string a property name is. *)
Definition key_text (k : PropertyKey) : string :=
  match k with
  | Numeral n => ToString n
  | NumeralPoint n zeros => ToString n +:+ "." +:+ zeros_text (S zeros)
  end.

(** [Number(key)]: the Number a property name reads as. *)
Definition Number (k : PropertyKey) : Z :=
  match k with
  | Numeral n => n
  | NumeralPoint n _ => n
  end.

(** An object used as a dictionary: its own properties in creation order.
    Property names are pairwise distinct. *)
Abbreviation Object A := (list (PropertyKey * A)) (only parsing).

Definition obj_wf {A} (o : Object A) : Prop := NoDup o.*1.

(** [o[k] = v]: overwrite in place when the key exists, else append. *)
Fixpoint obj_set {A} (k : PropertyKey) (v : A) (o : Object A) : Object A :=
  match o with
  | [] => [(k, v)]
  | (k', v') :: o' =>
      if decide (k = k') then (k, v) :: o' else (k', v') :: obj_set k v o'
  end.


Definition obj_literal {A} (props : list (Z * A)) : Object A :=
  foldl (λ o kv, obj_set (Numeral kv.1) kv.2 o) [] props.

(** Integer-index keys (canonical numeric strings below 2^32 - 1). *)
Definition is_array_index (k : PropertyKey) : bool :=
  match k with
  | Numeral n => (0 <=? n) && (n <? 2 ^ 32 - 1)
  | NumeralPoint _ _ => false
  end.

(** [Object.entries]: integer-index keys in ascending order first, then
    the remaining keys in creation order. *)
Definition Object_entries {A} (o : Object A) : list (PropertyKey * A) :=
  Array_sort (λ a b, Number a.1 - Number b.1)
    (filter (λ kv, is_array_index kv.1 = true) o)
  ++ filter (λ kv, is_array_index kv.1 ≠ true) o.

(** A [Map] with string keys: its entries in insertion order.  [Map_update]
    is a field assignment through the reference [m.get(k)] hands out, so
    two references to the same key act on one object. *)
Abbreviation Map A := (list (string * A)) (only parsing).

Definition Map_has {A} (k : string) (m : Map A) : bool :=
  bool_decide (k ∈ m.*1).

Fixpoint Map_set {A} (k : string) (v : A) (m : Map A) : Map A :=
  match m with
  | [] => [(k, v)]
  | (k', v') :: m' =>
      if decide (k = k') then (k, v) :: m' else (k', v') :: Map_set k v m'
  end.

Fixpoint Map_update {A} (k : string) (f : A → A) (m : Map A) : Map A :=
  match m with
  | [] => []
  | (k', v') :: m' =>
      if decide (k = k') then (k', f v') :: m' else (k', v') :: Map_update k f m'
  end.

Fixpoint Map_get {A} (k : string) (m : Map A) : option A :=
  match m with
  | [] => None
  | (k', v') :: m' => if decide (k = k') then Some v' else Map_get k m'
  end.

Definition Map_values {A} (m : Map A) : list A := m.*2.

(** [Array.prototype.join] on an array of strings. *)
Fixpoint Array_join (sep : string) (l : list string) : string :=
  match l with
  | [] => ""
  | x :: l' =>
      match l' with
      | [] => x
      | _ :: _ => x +:+ sep +:+ Array_join sep l'
      end
  end.

End Js.

(** ** Data model ([types.ts]) *)

Module Player.
Record t : Type := mk { id : Z; name : string }.
End Player.

Module Team.
Record t : Type := mk { player1 : Player.t; player2 : Player.t }.
End Team.

Module Score.
Record t : Type := mk { team : Team.t; score : Z }.
End Score.

Module Match.
Record t : Type := mk {
  team1 : Team.t;
  team2 : Team.t;
  matchNumber : Z;
  courtId : option Z;
  currentScores : option (Z * Z)
}.
End Match.

Module MatchResult.
Record t : Type := mk {
  match_ : Match.t;
  winner : Team.t;
  loser : Team.t;
  timestamp : Z;
  courtId : option Z;
  scores : option (Score.t * Score.t)
}.
End MatchResult.

Module Court.
Record t : Type := mk {
  id : Z;
  currentMatch : option Match.t;
  consecutiveWins : Z;
  currentCourtTeam : option Team.t
}.
End Court.

Module TeamStatistics.
Record t : Type := mk {
  team : Team.t;
  wins : Z;
  losses : Z;
  totalPoints : Z;
  pointsAgainst : Z
}.
End TeamStatistics.

Module SystemState.
Record t : Type := mk {
  courts : list Court.t;
  queue : list Team.t;
  matchHistory : list MatchResult.t
}.
End SystemState.

(** The error classes of [types.ts]; [Error] is the plain built-in error
    thrown by [addTeams] and the constructor, [TypeError] what the runtime
    raises when a property of [undefined] is read. *)
Inductive Exn : Type :=
  | InsufficientTeamsError
  | InvalidMatchResultError
  | NoActiveMatchError
  | CourtNotFoundError
  | InvalidQueueIndexError
  | InvalidMatchIndexError
  | Error
  | TypeError.

#[global] Instance Exn_eq_dec : EqDecision Exn.
Proof. solve_decision. Defined.
#[global] Instance Player_eq_dec : EqDecision Player.t.
Proof. solve_decision. Defined.
#[global] Instance Team_eq_dec : EqDecision Team.t.
Proof. solve_decision. Defined.

(** ** Team identity *)

Definition createPlayer (id : Z) (name : string) : Player.t :=
  Player.mk id name.

Definition createTeam (player1 player2 : Player.t) : Team.t :=
  Team.mk player1 player2.

(** [[a, b].sort()] on the two player ids. *)
Definition sortedIds (team : Team.t) : list Z :=
  Js.Array_sort Js.SortCompare
    [Player.id (Team.player1 team); Player.id (Team.player2 team)].

Definition areTeamsEqual (team1 team2 : Team.t) : bool :=
  let team1Ids := sortedIds team1 in
  let team2Ids := sortedIds team2 in
  bool_decide (team1Ids !! 0%nat = team2Ids !! 0%nat)
  && bool_decide (team1Ids !! 1%nat = team2Ids !! 1%nat).

(** An array slot interpolated into a template string. *)
Definition interpolate (x : option Z) : string :=
  match x with
  | Some n => Js.ToString n
  | None => "undefined"
  end.

Definition getTeamKey (team : Team.t) : string :=
  let ids := sortedIds team in
  interpolate (ids !! 0%nat) +:+ "-" +:+ interpolate (ids !! 1%nat).

(** ** The manager and its computations *)

Module QueueManager.
Record t : Type := mk { state : SystemState.t; matchCounter : Z }.
End QueueManager.

(** How a method call ends: it returns, or it throws. *)
Inductive Completion (A : Type) : Type :=
  | Normal (a : A)
  | Throw (e : Exn).
Arguments Normal {A} a.
Arguments Throw {A} e.

(** A method body: it reads and mutates the manager; when it throws, the
    mutations done so far stay. *)
Definition M (A : Type) : Type :=
  QueueManager.t → Completion A * QueueManager.t.

Definition ret {A} (a : A) : M A := λ qm, (Normal a, qm).

Definition bind {A B} (c : M A) (k : A → M B) : M B :=
  λ qm, match c qm with
        | (Normal a, qm') => k a qm'
        | (Throw e, qm') => (Throw e, qm')
        end.

Definition throw {A} (e : Exn) : M A := λ qm, (Throw e, qm).

Definition gets {A} (f : QueueManager.t → A) : M A := λ qm, (Normal (f qm), qm).

Definition modify (f : QueueManager.t → QueueManager.t) : M unit :=
  λ qm, (Normal tt, f qm).

Notation "x <~ c ;; k" := (bind c (λ x, k))
  (at level 100, c at next level, right associativity).
Notation "c ;;; k" := (bind c (λ _, k))
  (at level 100, right associativity).

Definition courtsOf (qm : QueueManager.t) : list Court.t :=
  SystemState.courts (QueueManager.state qm).
Definition queueOf (qm : QueueManager.t) : list Team.t :=
  SystemState.queue (QueueManager.state qm).
Definition historyOf (qm : QueueManager.t) : list MatchResult.t :=
  SystemState.matchHistory (QueueManager.state qm).

Definition withCourts (f : list Court.t → list Court.t) (qm : QueueManager.t)
  : QueueManager.t :=
  QueueManager.mk
    (SystemState.mk (f (courtsOf qm)) (queueOf qm) (historyOf qm))
    (QueueManager.matchCounter qm).

Definition withQueue (f : list Team.t → list Team.t) (qm : QueueManager.t)
  : QueueManager.t :=
  QueueManager.mk
    (SystemState.mk (courtsOf qm) (f (queueOf qm)) (historyOf qm))
    (QueueManager.matchCounter qm).

Definition withHistory (f : list MatchResult.t → list MatchResult.t)
    (qm : QueueManager.t) : QueueManager.t :=
  QueueManager.mk
    (SystemState.mk (courtsOf qm) (queueOf qm) (f (historyOf qm)))
    (QueueManager.matchCounter qm).

Definition withCounter (f : Z → Z) (qm : QueueManager.t) : QueueManager.t :=
  QueueManager.mk (QueueManager.state qm) (f (QueueManager.matchCounter qm)).

(** [arr[i]] followed by a property read: a [TypeError] when the slot is
    [undefined].  The methods read such a property in their log line, a few
    statements after the lookup; the model raises at the lookup, and the
    guards of the methods make the case unreachable (shown below). *)
Definition deref {A} (x : option A) : M A :=
  match x with
  | Some a => ret a
  | None => throw TypeError
  end.

(** The court object held in slot [i] of [this.state.courts]. *)
Definition getCourt (i : nat) : M Court.t :=
  courts <~ gets courtsOf ;; deref (courts !! i).

(** Field assignments on that object. *)
Definition setCourt (i : nat) (f : Court.t → Court.t) : M unit :=
  modify (withCourts (alter f i)).

Definition setCurrentMatch (m : option Match.t) (c : Court.t) : Court.t :=
  Court.mk (Court.id c) m (Court.consecutiveWins c) (Court.currentCourtTeam c).
Definition setConsecutiveWins (n : Z) (c : Court.t) : Court.t :=
  Court.mk (Court.id c) (Court.currentMatch c) n (Court.currentCourtTeam c).
Definition setCurrentCourtTeam (t : option Team.t) (c : Court.t) : Court.t :=
  Court.mk (Court.id c) (Court.currentMatch c) (Court.consecutiveWins c) t.

(** [this.state.queue.push(team)] and [this.state.queue.shift()!]. *)
Definition queuePush (team : Team.t) : M unit :=
  modify (withQueue (λ q, q ++ [team])).

Definition queueShift : M Team.t :=
  queue <~ gets queueOf ;;
  modify (withQueue tail) ;;;
  deref (head queue).

(** [++this.matchCounter] *)
Definition nextMatchNumber : M Z :=
  modify (withCounter (λ n, n + 1)) ;;;
  gets QueueManager.matchCounter.

(** *** constructor *)

Definition newCourt (i : nat) : Court.t :=
  Court.mk (Z.of_nat i + 1) None 0 None.

Definition new_QueueManager (numberOfCourts : Z) : Completion QueueManager.t :=
  if numberOfCourts <? 1 then Throw Error
  else Normal (QueueManager.mk
         (SystemState.mk (newCourt <$> seq 0 (Z.to_nat numberOfCourts)) [] [])
         0).

(** *** initialize *)

Fixpoint initialize_loop (teams : list Team.t) (indices : list nat)
    (teamIndex : nat) : M nat :=
  match indices with
  | [] => ret teamIndex
  | i :: rest =>
      team1 <~ deref (teams !! teamIndex) ;;
      team2 <~ deref (teams !! S teamIndex) ;;
      n <~ nextMatchNumber ;;
      court <~ getCourt i ;;
      setCourt i (setCurrentMatch
        (Some (Match.mk team1 team2 n (Some (Court.id court)) None))) ;;;
      setCourt i (setConsecutiveWins 0) ;;;
      setCourt i (setCurrentCourtTeam None) ;;;
      initialize_loop teams rest (S (S teamIndex))
  end.

Definition initialize (teams : list Team.t) : M unit :=
  courts <~ gets courtsOf ;;
  let requiredTeams := (length courts * 2)%nat in
  if (length teams <? requiredTeams)%nat then throw InsufficientTeamsError
  else
    teamIndex <~ initialize_loop teams (seq 0 (length courts)) 0 ;;
    modify (withQueue (λ _, drop teamIndex teams)) ;;;
    modify (withHistory (λ _, [])).

(** *** addTeams *)

Definition courtKeys (court : Court.t) : list string :=
  match Court.currentMatch court with
  | Some m => [getTeamKey (Match.team1 m); getTeamKey (Match.team2 m)]
  | None => []
  end.

Definition addTeams (teams : list Team.t) : M unit :=
  courts <~ gets courtsOf ;;
  let hasActiveMatch :=
    existsb (λ court, bool_decide (is_Some (Court.currentMatch court))) courts in
  if negb hasActiveMatch then throw Error
  else
    queue <~ gets queueOf ;;
    let existingTeamIds : list string :=
      (getTeamKey <$> queue) ++ (courts ≫= courtKeys) in
    let newTeams :=
      filter (λ team, getTeamKey team ∉ existingTeamIds) teams in
    modify (withQueue (λ q, q ++ newTeams)).

(** *** recordResult *)

Definition isStreakHolder (winner : Team.t) (court : Court.t) : bool :=
  match Court.currentCourtTeam court with
  | Some t => areTeamsEqual winner t
  | None => false
  end.

(** The local [scores] array before and after [scores.sort(...)]: one
    entry per property of the score map, the property name read back with
    [Number]. *)
Definition entryScores (scoreMap : Js.Object Team.t) : list Score.t :=
  (λ kv, Score.mk kv.2 (Js.Number kv.1)) <$> Js.Object_entries scoreMap.

Definition validTeams (currentMatch : Match.t) (scores : list Score.t) : bool :=
  forallb (λ s, areTeamsEqual (Score.team s) (Match.team1 currentMatch)
                || areTeamsEqual (Score.team s) (Match.team2 currentMatch))
    scores.

Definition rankedScores (scoreMap : Js.Object Team.t) : list Score.t :=
  Js.Array_sort (λ a b, Score.score b - Score.score a) (entryScores scoreMap).

(** [now] stands for the [new Date()] taken when the result is logged. *)
Definition recordResult (now : Z) (courtId : Z) (scoreMap : Js.Object Team.t)
  : M unit :=
  courts <~ gets courtsOf ;;
  match list_find (λ c, Court.id c = courtId) courts with
  | None => throw CourtNotFoundError
  | Some (i, court) =>
    match Court.currentMatch court with
    | None => throw NoActiveMatchError
    | Some currentMatch =>
      let scores := entryScores scoreMap in
      if negb (length scores =? 2)%nat then throw InvalidMatchResultError
      else
      if negb (validTeams currentMatch scores) then
        throw InvalidMatchResultError
      else
      let scores := rankedScores scoreMap in
      s0 <~ deref (scores !! 0%nat) ;;
      s1 <~ deref (scores !! 1%nat) ;;
      let winner := Score.team s0 in
      let loser := Score.team s1 in
      let result :=
        MatchResult.mk currentMatch winner loser now (Some (Court.id court))
          (Some (Score.mk winner (Score.score s0),
                 Score.mk loser (Score.score s1))) in
      modify (withHistory (λ h, h ++ [result])) ;;;
      (* Update consecutive wins counter *)
      court <~ getCourt i ;;
      (if isStreakHolder winner court
       then setCourt i (setConsecutiveWins (Court.consecutiveWins court + 1))
       else setCourt i (setConsecutiveWins 1) ;;;
            setCourt i (setCurrentCourtTeam (Some winner))) ;;;
      (* Apply queue management rules *)
      court <~ getCourt i ;;
      queue <~ gets queueOf ;;
      if (2 <=? Court.consecutiveWins court) && (2 <=? length queue)%nat then
        queue <~ gets queueOf ;;
        if (length queue <? 2)%nat then throw InsufficientTeamsError
        else
          nextTeam1 <~ queueShift ;;
          nextTeam2 <~ queueShift ;;
          queuePush winner ;;;
          queuePush loser ;;;
          setCourt i (setConsecutiveWins 0) ;;;
          setCourt i (setCurrentCourtTeam None) ;;;
          n <~ nextMatchNumber ;;
          setCourt i (setCurrentMatch
            (Some (Match.mk nextTeam1 nextTeam2 n (Some (Court.id court)) None)))
      else
        queuePush loser ;;;
        queue <~ gets queueOf ;;
        if (length queue <? 1)%nat then throw InsufficientTeamsError
        else
          nextOpponent <~ queueShift ;;
          n <~ nextMatchNumber ;;
          setCourt i (setCurrentMatch
            (Some (Match.mk winner nextOpponent n (Some (Court.id court)) None)))
    end
  end.

(** *** getTeamStatistics, getSessionWinner *)

Definition emptyStats (team : Team.t) : TeamStatistics.t :=
  TeamStatistics.mk team 0 0 0 0.

Definition addWin (s : TeamStatistics.t) : TeamStatistics.t :=
  TeamStatistics.mk (TeamStatistics.team s) (TeamStatistics.wins s + 1)
    (TeamStatistics.losses s) (TeamStatistics.totalPoints s)
    (TeamStatistics.pointsAgainst s).

Definition addLoss (s : TeamStatistics.t) : TeamStatistics.t :=
  TeamStatistics.mk (TeamStatistics.team s) (TeamStatistics.wins s)
    (TeamStatistics.losses s + 1) (TeamStatistics.totalPoints s)
    (TeamStatistics.pointsAgainst s).

Definition addTotalPoints (n : Z) (s : TeamStatistics.t) : TeamStatistics.t :=
  TeamStatistics.mk (TeamStatistics.team s) (TeamStatistics.wins s)
    (TeamStatistics.losses s) (TeamStatistics.totalPoints s + n)
    (TeamStatistics.pointsAgainst s).

Definition addPointsAgainst (n : Z) (s : TeamStatistics.t) : TeamStatistics.t :=
  TeamStatistics.mk (TeamStatistics.team s) (TeamStatistics.wins s)
    (TeamStatistics.losses s) (TeamStatistics.totalPoints s)
    (TeamStatistics.pointsAgainst s + n).

(** [result.scores.find(s => areTeamsEqual(s.team, team))] *)
Definition findScore (team : Team.t) (scores : Score.t * Score.t)
  : option Score.t :=
  if areTeamsEqual (Score.team scores.1) team then Some scores.1
  else if areTeamsEqual (Score.team scores.2) team then Some scores.2
  else None.

(** One iteration of the loop over [matchHistory]. *)
Definition statsStep (statsMap : Js.Map TeamStatistics.t)
    (result : MatchResult.t) : Js.Map TeamStatistics.t :=
  let winnerKey := getTeamKey (MatchResult.winner result) in
  let loserKey := getTeamKey (MatchResult.loser result) in
  let statsMap :=
    if negb (Js.Map_has winnerKey statsMap)
    then Js.Map_set winnerKey (emptyStats (MatchResult.winner result)) statsMap
    else statsMap in
  let statsMap :=
    if negb (Js.Map_has loserKey statsMap)
    then Js.Map_set loserKey (emptyStats (MatchResult.loser result)) statsMap
    else statsMap in
  let statsMap := Js.Map_update winnerKey addWin statsMap in
  let statsMap := Js.Map_update loserKey addLoss statsMap in
  match MatchResult.scores result with
  | Some scores =>
      match findScore (MatchResult.winner result) scores,
            findScore (MatchResult.loser result) scores with
      | Some winnerScore, Some loserScore =>
          let statsMap :=
            Js.Map_update winnerKey
              (addTotalPoints (Score.score winnerScore)) statsMap in
          let statsMap :=
            Js.Map_update winnerKey
              (addPointsAgainst (Score.score loserScore)) statsMap in
          let statsMap :=
            Js.Map_update loserKey
              (addTotalPoints (Score.score loserScore)) statsMap in
          Js.Map_update loserKey
            (addPointsAgainst (Score.score winnerScore)) statsMap
      | _, _ => statsMap
      end
  | None => statsMap
  end.

(** The comparator handed to [stats.sort]. *)
Definition compareStats (a b : TeamStatistics.t) : Z :=
  if bool_decide (TeamStatistics.wins b ≠ TeamStatistics.wins a)
  then TeamStatistics.wins b - TeamStatistics.wins a
  else TeamStatistics.totalPoints b - TeamStatistics.totalPoints a.

Definition statsOfLog (log : list MatchResult.t) : list TeamStatistics.t :=
  Js.Array_sort compareStats (Js.Map_values (foldl statsStep [] log)).

Definition getTeamStatistics (qm : QueueManager.t) : list TeamStatistics.t :=
  statsOfLog (historyOf qm).

Definition getSessionWinner (qm : QueueManager.t) : option TeamStatistics.t :=
  head (getTeamStatistics qm).

(** *** getCurrentState, getCourtMatch, getCourts, getMatchHistory *)

Definition getCurrentState (qm : QueueManager.t) : SystemState.t :=
  SystemState.mk
    ((λ court, Court.mk (Court.id court) (Court.currentMatch court)
                 (Court.consecutiveWins court) (Court.currentCourtTeam court))
       <$> courtsOf qm)
    (queueOf qm) (historyOf qm).

(** [court?.currentMatch || null] *)
Definition getCourtMatch (courtId : Z) (qm : QueueManager.t) : option Match.t :=
  match list_find (λ c, Court.id c = courtId) (courtsOf qm) with
  | Some (_, court) => Court.currentMatch court
  | None => None
  end.

Definition getCourts (qm : QueueManager.t) : list Court.t :=
  (λ court, Court.mk (Court.id court) (Court.currentMatch court)
              (Court.consecutiveWins court) (Court.currentCourtTeam court))
    <$> courtsOf qm.

Definition getMatchHistory (qm : QueueManager.t) : list MatchResult.t :=
  historyOf qm.

(** *** beautifyQueue *)

(** The line feed of the ['\n'] separator. *)
Definition newline : string := String "010"%char EmptyString.

(** The template string of one queue line. *)
Definition queueLine (team : Team.t) : string :=
  Player.name (Team.player1 team) +:+ " e " +:+ Player.name (Team.player2 team).

Definition beautifyQueue (qm : QueueManager.t) : string :=
  if (length (queueOf qm) =? 0)%nat then "Queue is empty"
  else Js.Array_join newline (queueLine <$> queueOf qm).

(** ** Undo / redo history *)

Module History.

(** Modelled from the spec: a history snapshot (section 3) is a deep copy
    of the courts without live in-progress scores, the queue, the match log
    and the match-sequence counter; the code that takes it is not in the
    source at hand. *)
Definition stripScores (m : Match.t) : Match.t :=
  Match.mk (Match.team1 m) (Match.team2 m) (Match.matchNumber m)
    (Match.courtId m) None.

(** Modelled from the spec: a court as a snapshot records it, without the
    live scores of its match (section 3, History Snapshot). *)
Definition stripCourt (c : Court.t) : Court.t :=
  setCurrentMatch (stripScores <$> Court.currentMatch c) c.

(** Modelled from the spec: taking a snapshot of the current state
    (sections 3 and 4.7); the snapshot code is missing from the source. *)
Definition createSnapshot (qm : QueueManager.t) : QueueManager.t :=
  withCourts (fmap stripCourt) qm.

(** Modelled from the spec: the engine of section 4.7, the manager together
    with its two snapshot stacks (most recent first) and their configured
    maximum depth; these fields are missing from the source. *)
Record t : Type := mk {
  manager : QueueManager.t;
  undoStack : list QueueManager.t;
  redoStack : list QueueManager.t;
  maxHistorySize : nat
}.

(** Modelled from the spec: pushing on a bounded stack evicts the oldest
    entry if the stack exceeds its maximum depth (section 4.7). *)
Definition pushBounded (cap : nat) (snap : QueueManager.t)
    (stack : list QueueManager.t) : list QueueManager.t :=
  let stack' := snap :: stack in
  if (cap <? length stack')%nat then take (length stack' - 1) stack'
  else stack'.

(** Modelled from the spec: a tracked mutation captures the pre-mutation
    state on the undo stack before applying its effect and clears the redo
    stack (section 4.7); a failed call leaves everything unchanged
    (section 7). *)
Definition tracked (body : M unit) (e : t) : Completion unit * t :=
  match body (manager e) with
  | (Normal _, qm') =>
      (Normal tt,
       mk qm'
          (pushBounded (maxHistorySize e) (createSnapshot (manager e))
             (undoStack e))
          [] (maxHistorySize e))
  | (Throw err, _) => (Throw err, e)
  end.

(** Modelled from the spec: an untracked call (section 4.4) acts on the
    manager and leaves both stacks alone; a failed call changes nothing. *)
Definition untracked (body : M unit) (e : t) : Completion unit * t :=
  match body (manager e) with
  | (Normal _, qm') =>
      (Normal tt, mk qm' (undoStack e) (redoStack e) (maxHistorySize e))
  | (Throw err, _) => (Throw err, e)
  end.

(** Modelled from the spec: [reorderTeamInQueue] (section 4.5), absent from
    the source: not-initialized without an active match, invalid-queue-index
    for an index outside the queue, then remove at [fromIndex] and reinsert
    at [toIndex] in the shortened queue. *)
Definition reorderBody (fromIndex toIndex : Z) : M unit :=
  courts <~ gets courtsOf ;;
  if negb (existsb (λ c, bool_decide (is_Some (Court.currentMatch c))) courts)
  then throw Error
  else
    queue <~ gets queueOf ;;
    let n := Z.of_nat (length queue) in
    if (fromIndex <? 0) || (n <=? fromIndex) || (toIndex <? 0) || (n <=? toIndex)
    then throw InvalidQueueIndexError
    else if fromIndex =? toIndex then ret tt
    else
      team <~ deref (queue !! Z.to_nat fromIndex) ;;
      let shortened := delete (Z.to_nat fromIndex) queue in
      modify (withQueue (λ _,
        take (Z.to_nat toIndex) shortened ++ team
          :: drop (Z.to_nat toIndex) shortened)).

(** Modelled from the spec: [editMatchResult] (section 4.6), absent from
    the source: invalid-match-index out of bounds, invalid-result unless the
    new scores name exactly the two teams of the logged match and differ;
    the entry's winner, loser and scores are rewritten in place. *)
Definition editBody (matchIndex : Z) (newScores : Score.t * Score.t) : M unit :=
  history <~ gets historyOf ;;
  if (matchIndex <? 0) || (Z.of_nat (length history) <=? matchIndex)
  then throw InvalidMatchIndexError
  else
    result <~ deref (history !! Z.to_nat matchIndex) ;;
    let m := MatchResult.match_ result in
    let a := newScores.1 in
    let b := newScores.2 in
    let named :=
      (areTeamsEqual (Score.team a) (Match.team1 m)
       && areTeamsEqual (Score.team b) (Match.team2 m))
      || (areTeamsEqual (Score.team a) (Match.team2 m)
          && areTeamsEqual (Score.team b) (Match.team1 m)) in
    if negb named || (Score.score a =? Score.score b)
    then throw InvalidMatchResultError
    else
      let w := if Score.score b <? Score.score a then a else b in
      let l := if Score.score b <? Score.score a then b else a in
      modify (withHistory (λ h,
        <[Z.to_nat matchIndex :=
            MatchResult.mk m (Score.team w) (Score.team l)
              (MatchResult.timestamp result) (MatchResult.courtId result)
              (Some (w, l))]> h)).

(** Modelled from the spec: [updateScore] (section 4.4), absent from the
    source: both live scores start at zero on first touch and the addressed
    one moves by [delta], never below zero. *)
Definition updateScoreBody (courtId : Z) (second : bool) (delta : Z) : M unit :=
  courts <~ gets courtsOf ;;
  match list_find (λ c, Court.id c = courtId) courts with
  | None => throw CourtNotFoundError
  | Some (i, court) =>
    match Court.currentMatch court with
    | None => throw NoActiveMatchError
    | Some m =>
      let live := default (0, 0) (Match.currentScores m) in
      let live' :=
        if second then (live.1, Z.max 0 (live.2 + delta))
        else (Z.max 0 (live.1 + delta), live.2) in
      setCourt i (setCurrentMatch
        (Some (Match.mk (Match.team1 m) (Match.team2 m) (Match.matchNumber m)
                 (Match.courtId m) (Some live'))))
    end
  end.

(** Modelled from the spec: the tracked mutations of sections 4.2, 4.3, 4.5
    and 4.6; their snapshot-taking wrappers are missing from the source. *)
Inductive Mutation : Type :=
  | AddTeams (teams : list Team.t)
  | RecordResult (now courtId : Z) (scoreMap : Js.Object Team.t)
  | ReorderTeamInQueue (fromIndex toIndex : Z)
  | EditMatchResult (matchIndex : Z) (newScores : Score.t * Score.t).

(** Modelled from the spec: what each tracked mutation does to the manager
    (effects of sections 4.2, 4.3, 4.5, 4.6). *)
Definition mutationBody (mu : Mutation) : M unit :=
  match mu with
  | AddTeams teams => addTeams teams
  | RecordResult now courtId scoreMap => recordResult now courtId scoreMap
  | ReorderTeamInQueue fromIndex toIndex => reorderBody fromIndex toIndex
  | EditMatchResult matchIndex newScores => editBody matchIndex newScores
  end.

(** Modelled from the spec: running a tracked mutation on the engine. *)
Definition apply (mu : Mutation) (e : t) : Completion unit * t :=
  tracked (mutationBody mu) e.

(** Modelled from the spec: [updateScore] is not a tracked mutation. *)
Definition updateScore (courtId : Z) (second : bool) (delta : Z) (e : t)
  : Completion unit * t :=
  untracked (updateScoreBody courtId second delta) e.

(** Modelled from the spec: [initialize] is a hard reset that clears both
    stacks (section 4.1). *)
Definition initialize (teams : list Team.t) (e : t) : Completion unit * t :=
  match initialize teams (manager e) with
  | (Normal _, qm') => (Normal tt, mk qm' [] [] (maxHistorySize e))
  | (Throw err, qm') =>
      (Throw err, mk qm' (undoStack e) (redoStack e) (maxHistorySize e))
  end.

(** Modelled from the spec: [undo] (section 4.7): failure on an empty undo
    stack, else the current state goes on the redo stack and the popped
    snapshot becomes the current state. *)
Definition undo (e : t) : bool * t :=
  match undoStack e with
  | [] => (false, e)
  | snap :: rest =>
      (true,
       mk snap rest
          (pushBounded (maxHistorySize e) (createSnapshot (manager e))
             (redoStack e))
          (maxHistorySize e))
  end.

(** Modelled from the spec: [redo] (section 4.7), symmetric to [undo]. *)
Definition redo (e : t) : bool * t :=
  match redoStack e with
  | [] => (false, e)
  | snap :: rest =>
      (true,
       mk snap
          (pushBounded (maxHistorySize e) (createSnapshot (manager e))
             (undoStack e))
          rest (maxHistorySize e))
  end.

(** Modelled from the spec: the size queries on the two stacks
    (section 4.7). *)
Definition getUndoDepth (e : t) : nat := length (undoStack e).
Definition getRedoDepth (e : t) : nat := length (redoStack e).

End History.

(** ** Vocabulary of the specification *)

(** The streak rule in the specification's words: the counter is incremented
    when the winner is the court's streak-holder, otherwise it is set to 1
    and the winner becomes the streak-holder. *)
Definition streakAfter (winner : Team.t) (court : Court.t) : Z :=
  match Court.currentCourtTeam court with
  | Some holder =>
      if areTeamsEqual winner holder then Court.consecutiveWins court + 1
      else 1
  | None => 1
  end.

Definition holderAfter (winner : Team.t) (court : Court.t) : option Team.t :=
  match Court.currentCourtTeam court with
  | Some holder =>
      if areTeamsEqual winner holder then Some holder else Some winner
  | None => Some winner
  end.

(** A call that passes validation: the court exists, it has a current match,
    and there are exactly two score entries, each naming a team of that
    match. *)
Definition validCall (qm : QueueManager.t) (courtId : Z)
    (scoreMap : Js.Object Team.t) (i : nat) (court : Court.t) (cm : Match.t)
  : Prop :=
  list_find (λ c, Court.id c = courtId) (courtsOf qm) = Some (i, court)
  ∧ Court.currentMatch court = Some cm
  ∧ length (entryScores scoreMap) = 2%nat
  ∧ validTeams cm (entryScores scoreMap) = true.

(** The log entry a recorded result leaves behind. *)
Definition loggedResult (now : Z) (court : Court.t) (cm : Match.t)
    (s0 s1 : Score.t) : MatchResult.t :=
  MatchResult.mk cm (Score.team s0) (Score.team s1) now (Some (Court.id court))
    (Some (Score.mk (Score.team s0) (Score.score s0),
           Score.mk (Score.team s1) (Score.score s1))).

(** Team identities in play: the keys of the teams on the courts and in the
    queue, as a list read up to permutation. *)
Definition teamsInPlay (qm : QueueManager.t) : list string :=
  (courtsOf qm ≫= courtKeys) ++ (getTeamKey <$> queueOf qm).

(** Running a computation from a state. *)
Definition outcome {A} (c : M A) (qm : QueueManager.t) : Completion A := (c qm).1.
Definition after {A} (c : M A) (qm : QueueManager.t) : QueueManager.t := (c qm).2.

(** The single-win path in the specification's words: streak updated, the
    loser pushed to the back of the queue, one team pulled from the front to
    meet the same winner, who stays on the court. *)
Definition singleWinState (now : Z) (qm : QueueManager.t) (i : nat)
    (court : Court.t) (cm : Match.t) (s0 s1 : Score.t) (nextOpponent : Team.t)
  : QueueManager.t :=
  let winner := Score.team s0 in
  let n := QueueManager.matchCounter qm + 1 in
  QueueManager.mk
    (SystemState.mk
       (<[i := Court.mk (Court.id court)
                 (Some (Match.mk winner nextOpponent n
                          (Some (Court.id court)) None))
                 (streakAfter winner court) (holderAfter winner court)]>
          (courtsOf qm))
       (tail (queueOf qm ++ [Score.team s1]))
       (historyOf qm ++ [loggedResult now court cm s0 s1]))
    n.

(** The double-win path in the specification's words: the two teams at the
    front of the queue take the court, winner then loser go to the back, the
    streak is reset to zero and the streak-holder to null. *)
Definition doubleWinState (now : Z) (qm : QueueManager.t) (i : nat)
    (court : Court.t) (cm : Match.t) (s0 s1 : Score.t)
    (nextTeam1 nextTeam2 : Team.t) : QueueManager.t :=
  let n := QueueManager.matchCounter qm + 1 in
  QueueManager.mk
    (SystemState.mk
       (<[i := Court.mk (Court.id court)
                 (Some (Match.mk nextTeam1 nextTeam2 n
                          (Some (Court.id court)) None))
                 0 None]>
          (courtsOf qm))
       (drop 2 (queueOf qm) ++ [Score.team s0; Score.team s1])
       (historyOf qm ++ [loggedResult now court cm s0 s1]))
    n.

(** A court as [initialize] leaves it: a fresh match between two teams,
    streak 0, no streak-holder. *)
Definition initCourt (team1 team2 : Team.t) (n : Z) (court : Court.t)
  : Court.t :=
  Court.mk (Court.id court)
    (Some (Match.mk team1 team2 n (Some (Court.id court)) None)) 0 None.

(** Pairwise distinct team identities. *)
Definition distinctTeams (teams : list Team.t) : Prop :=
  ∀ j k tj tk,
    teams !! j = Some tj → teams !! k = Some tk → j ≠ k →
    areTeamsEqual tj tk = false.

(** A string without the separator character of [getTeamKey]. *)
Fixpoint nodash (s : string) : Prop :=
  match s with
  | EmptyString => True
  | String c s' => c ≠ "-"%char ∧ nodash s'
  end.

(** A string in which a character does not occur. *)
Fixpoint without (c : ascii) (s : string) : Prop :=
  match s with
  | EmptyString => True
  | String c' s' => c' ≠ c ∧ without c s'
  end.

(** The statistics in the specification's words: per team identity, the
    number of logged results it won and lost and the points it scored and
    conceded in them. *)
Definition sumZ (l : list Z) : Z := foldr Z.add 0 l.

Definition won (t : Team.t) (r : MatchResult.t) : Z :=
  if areTeamsEqual (MatchResult.winner r) t then 1 else 0.

Definition lost (t : Team.t) (r : MatchResult.t) : Z :=
  if areTeamsEqual (MatchResult.loser r) t then 1 else 0.

(** The two scores the loop of [getTeamStatistics] counts for a log entry:
    those it finds for the winner and for the loser by looking the teams up
    in the entry's scores (nothing is counted for an entry that carries no
    such scores). *)
Definition recordedPoints (r : MatchResult.t) : Z * Z :=
  match MatchResult.scores r with
  | Some scores =>
      match findScore (MatchResult.winner r) scores,
            findScore (MatchResult.loser r) scores with
      | Some winnerScore, Some loserScore =>
          (Score.score winnerScore, Score.score loserScore)
      | _, _ => (0, 0)
      end
  | None => (0, 0)
  end.

Definition tally (t : Team.t) (log : list MatchResult.t) : TeamStatistics.t :=
  TeamStatistics.mk t
    (sumZ (won t <$> log))
    (sumZ (lost t <$> log))
    (sumZ ((λ r, won t r * (recordedPoints r).1
                 + lost t r * (recordedPoints r).2) <$> log))
    (sumZ ((λ r, won t r * (recordedPoints r).2
                 + lost t r * (recordedPoints r).1) <$> log)).

(** Modelled from the spec: the points of a log entry are the two scores
    it records, the winner's ahead of the loser's. *)
Definition loggedPoints (r : MatchResult.t) : Z * Z :=
  match MatchResult.scores r with
  | Some (winnerScore, loserScore) =>
      (Score.score winnerScore, Score.score loserScore)
  | None => (0, 0)
  end.

(** Modelled from the spec: points-for, accumulated from the log alone: the
    winner's score of each result the team won and the loser's score of
    each result it lost. *)
Definition pointsScored (t : Team.t) (log : list MatchResult.t) : Z :=
  sumZ ((λ r, won t r * (loggedPoints r).1 + lost t r * (loggedPoints r).2)
          <$> log).

(** Modelled from the spec: points-against, accumulated from the log alone:
    the loser's score of each result the team won and the winner's score of
    each result it lost. *)
Definition pointsConceded (t : Team.t) (log : list MatchResult.t) : Z :=
  sumZ ((λ r, won t r * (loggedPoints r).2 + lost t r * (loggedPoints r).1)
          <$> log).

(** Wins descending, ties broken by total points descending. *)
Definition standingOrder (a b : TeamStatistics.t) : Prop :=
  TeamStatistics.wins b < TeamStatistics.wins a
  ∨ (TeamStatistics.wins b = TeamStatistics.wins a
     ∧ TeamStatistics.totalPoints b ≤ TeamStatistics.totalPoints a).

(** The map entry for a key, created on first sight as the loop does. *)
Definition ensureStats (key : string) (team : Team.t)
    (statsMap : Js.Map TeamStatistics.t) : Js.Map TeamStatistics.t :=
  if negb (Js.Map_has key statsMap)
  then Js.Map_set key (emptyStats team) statsMap
  else statsMap.

(** What one log entry adds to the statistics of a team that won it
    ([w]), lost it ([l]) or both. *)
Definition bump (w l : bool) (points : Z * Z) (s : TeamStatistics.t)
  : TeamStatistics.t :=
  TeamStatistics.mk (TeamStatistics.team s)
    (TeamStatistics.wins s + (if w then 1 else 0))
    (TeamStatistics.losses s + (if l then 1 else 0))
    (TeamStatistics.totalPoints s
     + (if w then points.1 else 0) + (if l then points.2 else 0))
    (TeamStatistics.pointsAgainst s
     + (if w then points.2 else 0) + (if l then points.1 else 0)).

(** Both history stacks respect the configured depth, as they do in every
    engine reached from empty stacks. *)
Definition historyWf (e : History.t) : Prop :=
  (length (History.undoStack e) ≤ History.maxHistorySize e)%nat
  ∧ (length (History.redoStack e) ≤ History.maxHistorySize e)%nat.

(** ** A one-court session with four teams *)

Module Scenario.

Definition teamA : Team.t := createTeam (createPlayer 1 "Alice") (createPlayer 2 "Bob").
Definition teamB : Team.t := createTeam (createPlayer 3 "Charlie") (createPlayer 4 "Diana").
Definition teamC : Team.t := createTeam (createPlayer 5 "Eve") (createPlayer 6 "Frank").
Definition teamD : Team.t := createTeam (createPlayer 7 "Grace") (createPlayer 8 "Henry").

(** [new QueueManager(1)] *)
Definition fresh : QueueManager.t :=
  QueueManager.mk (SystemState.mk [newCourt 0] [] []) 0.

(** after [initialize([A, B, C, D])] *)
Definition started : QueueManager.t :=
  after (initialize [teamA; teamB; teamC; teamD]) fresh.

(** after [recordResult(1, { 15: A, 12: B })] *)
Definition afterFirst : QueueManager.t :=
  after (recordResult 0 1 (Js.obj_literal [(15, teamA); (12, teamB)])) started.

(** after [recordResult(1, { 15: A, 10: C })] *)
Definition afterSecond : QueueManager.t :=
  after (recordResult 0 1 (Js.obj_literal [(15, teamA); (10, teamC)])) afterFirst.

(** A three-team session, after [initialize([A, B, C])] and a first win
    of A: the queue holds one team when A wins again. *)
Definition shortStarted : QueueManager.t :=
  after (recordResult 0 1 (Js.obj_literal [(15, teamA); (10, teamB)]))
    (after (initialize [teamA; teamB; teamC]) fresh).

(** The engine of the started session, default history depth, after the
    live score of the first team was raised by 10 and a late team E was
    added. *)
Definition teamE : Team.t := createTeam (createPlayer 9 "Ivy") (createPlayer 10 "Jack").

Definition engine : History.t := History.mk started [] [] 20.

Definition engineScored : History.t :=
  (History.updateScore 1 false 10 engine).2.

Definition engineAdded : History.t :=
  (History.apply (History.AddTeams [teamE]) engineScored).2.

End Scenario.

(** ** Sessions *)

(** The managers a program can hold without [loadState]: built by the
    constructor, then driven by [initialize], [addTeams] and [recordResult].
    A call that throws leaves the manager in the state it had reached. *)
Inductive reachable : QueueManager.t → Prop :=
  | reachable_new numberOfCourts qm :
      new_QueueManager numberOfCourts = Normal qm → reachable qm
  | reachable_initialize teams qm :
      reachable qm → reachable (after (initialize teams) qm)
  | reachable_addTeams teams qm :
      reachable qm → reachable (after (addTeams teams) qm)
  | reachable_recordResult now courtId scoreMap qm :
      reachable qm → reachable (after (recordResult now courtId scoreMap) qm).

(** Every court has a match in progress. *)
Definition allActive (qm : QueueManager.t) : Prop :=
  Forall (λ court, is_Some (Court.currentMatch court)) (courtsOf qm).

(** The streak fields of a court agree with its match: no streak-holder and
    a zero counter, or a holder with a positive counter who is the first
    team of the match in progress. *)
Definition streakOk (court : Court.t) : Prop :=
  match Court.currentCourtTeam court with
  | None => Court.consecutiveWins court = 0
  | Some holder =>
      1 ≤ Court.consecutiveWins court
      ∧ ∃ m, Court.currentMatch court = Some m
             ∧ areTeamsEqual holder (Match.team1 m) = true
  end.

(** The match numbers a manager holds: those of the logged matches, then
    those of the matches in progress. *)
Definition courtNumbers (court : Court.t) : list Z :=
  match Court.currentMatch court with
  | Some m => [Match.matchNumber m]
  | None => []
  end.

Definition matchNumbers (qm : QueueManager.t) : list Z :=
  ((λ r, Match.matchNumber (MatchResult.match_ r)) <$> historyOf qm)
  ++ (courtsOf qm ≫= courtNumbers).

(** The court tags agree: a match in progress carries the id of its court,
    a logged result the id of a court of the manager, the same as its match
    carries. *)
Definition tagsOk (qm : QueueManager.t) : Prop :=
  (∀ court m, court ∈ courtsOf qm → Court.currentMatch court = Some m →
     Match.courtId m = Some (Court.id court))
  ∧ (∀ r, r ∈ historyOf qm →
       MatchResult.courtId r = Match.courtId (MatchResult.match_ r)
       ∧ ∃ court, court ∈ courtsOf qm
                  ∧ MatchResult.courtId r = Some (Court.id court)).

(** The score map names both teams of the match on the court. *)
Definition namesBothTeams (qm : QueueManager.t) (courtId : Z)
    (scoreMap : Js.Object Team.t) : Prop :=
  ∀ i court cm,
    list_find (λ c, Court.id c = courtId) (courtsOf qm) = Some (i, court) →
    Court.currentMatch court = Some cm →
    (∃ s, s ∈ entryScores scoreMap
          ∧ areTeamsEqual (Score.team s) (Match.team1 cm) = true)
    ∧ (∃ s, s ∈ entryScores scoreMap
            ∧ areTeamsEqual (Score.team s) (Match.team2 cm) = true).

(** A session played by the book: the teams given to [initialize] are
    pairwise distinct, so are the teams of each [addTeams] call, and each
    score map names both teams of the match. *)
Inductive regular : QueueManager.t → Prop :=
  | regular_new numberOfCourts qm :
      new_QueueManager numberOfCourts = Normal qm → regular qm
  | regular_initialize teams qm :
      regular qm → NoDup (getTeamKey <$> teams) →
      regular (after (initialize teams) qm)
  | regular_addTeams teams qm :
      regular qm → NoDup (getTeamKey <$> teams) →
      regular (after (addTeams teams) qm)
  | regular_recordResult now courtId scoreMap qm :
      regular qm → namesBothTeams qm courtId scoreMap →
      regular (after (recordResult now courtId scoreMap) qm).

(** A log entry as [recordResult] writes it for a match between two
    different teams: the scores tagged with the winner and the loser, who
    are different teams. *)
Definition wellRecorded (r : MatchResult.t) : Prop :=
  areTeamsEqual (MatchResult.winner r) (MatchResult.loser r) = false
  ∧ ∃ a b, MatchResult.scores r
           = Some (Score.mk (MatchResult.winner r) a,
                   Score.mk (MatchResult.loser r) b).

(** The lines of a text, as splitting it at line feeds gives them. *)
Fixpoint splitLines (s : string) : list string :=
  match s with
  | EmptyString => [EmptyString]
  | String c s' =>
      if Ascii.eqb c "010"%char then EmptyString :: splitLines s'
      else match splitLines s' with
           | line :: lines => String c line :: lines
           | [] => [String c EmptyString]
           end
  end.

(** A string without a line feed. *)
Fixpoint noLineFeed (s : string) : Prop :=
  match s with
  | EmptyString => True
  | String c s' => c ≠ "010"%char ∧ noLineFeed s'
  end.

(** ** Sorting and objects *)

Section sorting.
Context {A : Type} (cmp : A → A → Z).

Lemma sort_insert_perm x l : Js.sort_insert cmp x l ≡ₚ x :: l.
Proof.
  induction l as [|y l IH]; simpl; [done|].
  destruct (cmp x y <=? 0); [done|].
  rewrite IH. apply Permutation_swap.
Qed.

Lemma Array_sort_perm l : Js.Array_sort cmp l ≡ₚ l.
Proof.
  induction l as [|x l IH]; simpl; [done|].
  rewrite sort_insert_perm. by f_equiv.
Qed.

Lemma Array_sort_length l : length (Js.Array_sort cmp l) = length l.
Proof. by rewrite Array_sort_perm. Qed.

(** With a total comparator the result is ordered: no element is
    strictly after its successor. *)
Hypothesis cmp_total : ∀ x y, 0 < cmp x y → cmp y x ≤ 0.

Lemma sort_insert_sorted x l :
  Sorted (λ a b, cmp a b ≤ 0) l →
  Sorted (λ a b, cmp a b ≤ 0) (Js.sort_insert cmp x l).
Proof.
  induction 1 as [|y l Hs IH Hhd]; simpl.
  - repeat constructor.
  - destruct (Z.leb_spec (cmp x y) 0) as [Hle|Hgt].
    + repeat constructor; done.
    + constructor; [done|].
      destruct Hhd as [|z l Hyz]; simpl.
      * constructor. by apply cmp_total.
      * destruct (cmp x z <=? 0); constructor; [by apply cmp_total|done].
Qed.

Lemma Array_sort_sorted l : Sorted (λ a b, cmp a b ≤ 0) (Js.Array_sort cmp l).
Proof.
  induction l as [|x l IH]; simpl; [constructor|].
  by apply sort_insert_sorted.
Qed.
End sorting.

Lemma Object_entries_perm {A} (o : Js.Object A) : Js.Object_entries o ≡ₚ o.
Proof.
  unfold Js.Object_entries. rewrite Array_sort_perm.
  induction o as [|kv o IH]; [done|].
  rewrite !filter_cons.
  destruct (decide (Js.is_array_index kv.1 = true)) as [Hk|Hk].
  - rewrite decide_False by (by intros []). simpl. by f_equiv.
  - rewrite decide_True by done. rewrite <- Permutation_middle. by f_equiv.
Qed.

Lemma entryScores_perm scoreMap :
  entryScores scoreMap ≡ₚ (λ kv, Score.mk kv.2 (Js.Number kv.1)) <$> scoreMap.
Proof. unfold entryScores. by rewrite Object_entries_perm. Qed.

Lemma entryScores_length scoreMap :
  length (entryScores scoreMap) = length scoreMap.
Proof. by rewrite entryScores_perm, length_fmap. Qed.

Lemma rankedScores_perm scoreMap : rankedScores scoreMap ≡ₚ entryScores scoreMap.
Proof. apply Array_sort_perm. Qed.

Lemma rankedScores_two scoreMap :
  length (entryScores scoreMap) = 2%nat →
  ∃ s0 s1, rankedScores scoreMap = [s0; s1].
Proof.
  intros Hlen. rewrite <- rankedScores_perm in Hlen.
  destruct (rankedScores scoreMap) as [|s0 [|s1 [|]]]; simplify_eq/=; eauto.
Qed.

(** ** Running [recordResult] *)

Lemma alter_as_insert {A} (f : A → A) (l : list A) i c :
  l !! i = Some c → alter f i l = <[i := f c]> l.
Proof.
  revert i. induction l as [|x l IH]; intros [|i] H; simplify_eq/=; try done.
  f_equal. by apply IH.
Qed.

Lemma list_find_lookup {A} (P : A → Prop) `{∀ x, Decision (P x)} l i x :
  list_find P l = Some (i, x) → l !! i = Some x.
Proof. intros Hf. by apply list_find_Some in Hf as (? & _). Qed.

Ltac unfold_M :=
  cbv beta iota zeta delta
    [bind gets modify throw ret getCourt setCourt queuePush queueShift
     nextMatchNumber deref withCourts withQueue withHistory withCounter
     courtsOf queueOf historyOf outcome after
     SystemState.courts SystemState.queue SystemState.matchHistory
     QueueManager.state QueueManager.matchCounter fst snd negb] in *.

Lemma alter_insert_same {A} (f : A → A) (l : list A) i c :
  alter f i (<[i := c]> l) = <[i := f c]> l.
Proof.
  revert i. induction l as [|x l IH]; intros [|i]; simpl; try done.
  f_equal. apply IH.
Qed.

Ltac closed_courts Hi :=
  rewrite (alter_as_insert _ _ _ _ Hi), ?alter_insert_same; cbn.

Lemma recordResult_not_found now courtId scoreMap qm :
  list_find (λ c, Court.id c = courtId) (courtsOf qm) = None →
  recordResult now courtId scoreMap qm = (Throw CourtNotFoundError, qm).
Proof. intros Hf. unfold recordResult. unfold_M. by rewrite Hf. Qed.

Lemma recordResult_no_match now courtId scoreMap qm i court :
  list_find (λ c, Court.id c = courtId) (courtsOf qm) = Some (i, court) →
  Court.currentMatch court = None →
  recordResult now courtId scoreMap qm = (Throw NoActiveMatchError, qm).
Proof. intros Hf Hm. unfold recordResult. unfold_M. by rewrite Hf, Hm. Qed.

Lemma recordResult_invalid now courtId scoreMap qm i court cm :
  list_find (λ c, Court.id c = courtId) (courtsOf qm) = Some (i, court) →
  Court.currentMatch court = Some cm →
  length (entryScores scoreMap) ≠ 2%nat
  ∨ validTeams cm (entryScores scoreMap) = false →
  recordResult now courtId scoreMap qm = (Throw InvalidMatchResultError, qm).
Proof.
  intros Hf Hm Hbad. unfold recordResult. unfold_M. rewrite Hf, Hm.
  destruct (Nat.eqb_spec (length (entryScores scoreMap)) 2) as [Hl|Hl];
    unfold_M; [|done].
  destruct Hbad as [? | ->]; done.
Qed.

(** The streak rule of the specification is the one the code applies. *)
Lemma streakAfter_eq winner court :
  streakAfter winner court
  = if isStreakHolder winner court then Court.consecutiveWins court + 1 else 1.
Proof.
  unfold streakAfter, isStreakHolder.
  by destruct (Court.currentCourtTeam court).
Qed.

Lemma holderAfter_eq winner court :
  holderAfter winner court
  = if isStreakHolder winner court then Court.currentCourtTeam court
    else Some winner.
Proof.
  unfold holderAfter, isStreakHolder.
  destruct (Court.currentCourtTeam court) as [holder|]; [|done].
  by destruct (areTeamsEqual winner holder).
Qed.

Lemma recordResult_double now courtId scoreMap qm i court cm s0 s1 q0 q1 rest :
  validCall qm courtId scoreMap i court cm →
  rankedScores scoreMap = [s0; s1] →
  2 ≤ streakAfter (Score.team s0) court →
  queueOf qm = q0 :: q1 :: rest →
  recordResult now courtId scoreMap qm
  = (Normal tt, doubleWinState now qm i court cm s0 s1 q0 q1).
Proof.
  intros (Hf & Hm & Hlen & Hvalid) Hrank Hstreak Hq.
  pose proof (list_find_lookup _ _ _ _ Hf) as Hi.
  destruct qm as [[courts queue history] counter].
  rewrite streakAfter_eq in Hstreak.
  unfold recordResult, doubleWinState, loggedResult in *.
  unfold_M. subst queue.
  rewrite Hf, Hm, Hlen, Hvalid, Hrank. simpl. unfold_M. rewrite Hi.
  destruct (isStreakHolder (Score.team s0) court); [|lia]. unfold_M.
  rewrite ?list_lookup_alter_eq, ?Hi. simpl. unfold_M.
  rewrite (proj2 (Z.leb_le 2 _) Hstreak). simpl. unfold_M.
  closed_courts Hi. by rewrite <- app_assoc.
Qed.

Lemma recordResult_single now courtId scoreMap qm i court cm s0 s1 :
  validCall qm courtId scoreMap i court cm →
  rankedScores scoreMap = [s0; s1] →
  streakAfter (Score.team s0) court < 2 ∨ (length (queueOf qm) < 2)%nat →
  recordResult now courtId scoreMap qm
  = (Normal tt,
     singleWinState now qm i court cm s0 s1
       (default (Score.team s1) (head (queueOf qm)))).
Proof.
  intros (Hf & Hm & Hlen & Hvalid) Hrank Hcond.
  pose proof (list_find_lookup _ _ _ _ Hf) as Hi.
  destruct qm as [[courts queue history] counter].
  rewrite streakAfter_eq in Hcond.
  unfold recordResult, singleWinState, loggedResult in *.
  rewrite streakAfter_eq, holderAfter_eq.
  unfold_M.
  rewrite Hf, Hm, Hlen, Hvalid, Hrank.
  change (2 =? 2)%nat with true.
  change ([s0; s1] !! 0%nat) with (Some s0).
  change ([s0; s1] !! 1%nat) with (Some s1). unfold_M. rewrite Hi.
  set (w := if isStreakHolder (Score.team s0) court
            then Court.consecutiveWins court + 1 else 1) in *.
  assert (Hgate : (2 <=? w) && (2 <=? length queue)%nat = false).
  { apply andb_false_iff. destruct Hcond as [?|?];
      [left; apply Z.leb_gt; lia | right; apply Nat.leb_gt; lia]. }
  assert (Hpush : (length (queue ++ [Score.team s1]) <? 1)%nat = false).
  { apply Nat.ltb_ge. rewrite length_app. simpl. lia. }
  subst w.
  destruct (isStreakHolder (Score.team s0) court); unfold_M;
    rewrite ?list_lookup_alter_eq, ?Hi; cbn [fmap option_fmap option_map];
    unfold_M; cbn [Court.consecutiveWins setConsecutiveWins setCurrentCourtTeam];
    rewrite Hgate; unfold_M; rewrite Hpush; unfold_M;
    destruct queue as [|q0 queue]; cbn [head app tail default]; unfold_M;
    closed_courts Hi; done.
Qed.

(** Every call ends in exactly one of four ways. *)
Lemma recordResult_cases now courtId scoreMap qm :
  let run := recordResult now courtId scoreMap qm in
  (list_find (λ c, Court.id c = courtId) (courtsOf qm) = None
   ∧ run = (Throw CourtNotFoundError, qm))
  ∨ (∃ i court,
       list_find (λ c, Court.id c = courtId) (courtsOf qm) = Some (i, court)
       ∧ Court.currentMatch court = None
       ∧ run = (Throw NoActiveMatchError, qm))
  ∨ (∃ i court cm,
       list_find (λ c, Court.id c = courtId) (courtsOf qm) = Some (i, court)
       ∧ Court.currentMatch court = Some cm
       ∧ (length (entryScores scoreMap) ≠ 2%nat
          ∨ validTeams cm (entryScores scoreMap) = false)
       ∧ run = (Throw InvalidMatchResultError, qm))
  ∨ (∃ i court cm s0 s1,
       validCall qm courtId scoreMap i court cm
       ∧ rankedScores scoreMap = [s0; s1]
       ∧ ((∃ q0 q1 rest,
             2 ≤ streakAfter (Score.team s0) court
             ∧ queueOf qm = q0 :: q1 :: rest
             ∧ run = (Normal tt, doubleWinState now qm i court cm s0 s1 q0 q1))
          ∨ ((streakAfter (Score.team s0) court < 2
              ∨ (length (queueOf qm) < 2)%nat)
             ∧ run = (Normal tt,
                      singleWinState now qm i court cm s0 s1
                        (default (Score.team s1) (head (queueOf qm))))))).
Proof.
  intros run. subst run.
  destruct (list_find (λ c, Court.id c = courtId) (courtsOf qm))
    as [[i court]|] eqn:Hf.
  2: { left. split; [done|]. by apply recordResult_not_found. }
  destruct (Court.currentMatch court) as [cm|] eqn:Hm.
  2: { right; left. exists i, court. do 2 (split; [done|]).
       by eapply recordResult_no_match. }
  assert (Hbad : length (entryScores scoreMap) ≠ 2%nat
                 ∨ validTeams cm (entryScores scoreMap) = false →
    recordResult now courtId scoreMap qm = (Throw InvalidMatchResultError, qm))
    by (by eapply recordResult_invalid).
  destruct (decide (length (entryScores scoreMap) = 2%nat)) as [Hlen|Hlen].
  2: { right; right; left. exists i, court, cm.
       do 2 (split; [done|]). split; [by left | apply Hbad; by left]. }
  destruct (validTeams cm (entryScores scoreMap)) eqn:Hv.
  2: { right; right; left. exists i, court, cm.
       do 2 (split; [done|]). split; [by right | apply Hbad; by right]. }
  destruct (rankedScores_two _ Hlen) as (s0 & s1 & Hrank).
  assert (Hcall : validCall qm courtId scoreMap i court cm) by done.
  right; right; right. exists i, court, cm, s0, s1. do 2 (split; [done|]).
  destruct (Z.le_gt_cases 2 (streakAfter (Score.team s0) court)) as [Hs|Hs].
  - destruct (queueOf qm) as [|q0 [|q1 rest]] eqn:Hq.
    + right. split; [right; simpl; lia|].
      rewrite <- Hq. apply recordResult_single; try done. rewrite Hq. simpl. lia.
    + right. split; [right; simpl; lia|].
      rewrite <- Hq. apply recordResult_single; try done. rewrite Hq. simpl. lia.
    + left. exists q0, q1, rest. do 2 (split; [done|]).
      by eapply recordResult_double.
  - right. split; [left; lia|]. apply recordResult_single; try done. left. lia.
Qed.

(** ** The rotation rule *)

(** C1. A valid call whose updated streak is below 2, or is at least 2 while
    the queue holds exactly one team (the bypass case), returns normally:
    the streak is the incremented counter when the winner is the court's
    streak-holder and 1 with the winner as new holder otherwise, the loser
    goes to the back of the queue, one team is pulled from the front, and
    the court's new match is the same winner against that team. *)
Theorem single_win_rotation now courtId scoreMap qm i court cm s0 s1 :
  validCall qm courtId scoreMap i court cm →
  rankedScores scoreMap = [s0; s1] →
  streakAfter (Score.team s0) court < 2
  ∨ (2 ≤ streakAfter (Score.team s0) court ∧ length (queueOf qm) = 1%nat) →
  ∃ nextOpponent,
    head (queueOf qm ++ [Score.team s1]) = Some nextOpponent
    ∧ outcome (recordResult now courtId scoreMap) qm = Normal tt
    ∧ courtsOf (after (recordResult now courtId scoreMap) qm)
      = <[i := Court.mk (Court.id court)
                 (Some (Match.mk (Score.team s0) nextOpponent
                          (QueueManager.matchCounter qm + 1)
                          (Some (Court.id court)) None))
                 (streakAfter (Score.team s0) court)
                 (holderAfter (Score.team s0) court)]> (courtsOf qm)
    ∧ queueOf (after (recordResult now courtId scoreMap) qm)
      = tail (queueOf qm ++ [Score.team s1])
    ∧ historyOf (after (recordResult now courtId scoreMap) qm)
      = historyOf qm ++ [loggedResult now court cm s0 s1]
    ∧ QueueManager.matchCounter (after (recordResult now courtId scoreMap) qm)
      = QueueManager.matchCounter qm + 1.
Proof.
  intros Hcall Hrank Hcond.
  exists (default (Score.team s1) (head (queueOf qm))).
  split; [by destruct (queueOf qm)|].
  unfold outcome, after.
  rewrite (recordResult_single now _ _ _ _ _ _ _ _ Hcall Hrank); [done|].
  destruct Hcond as [?|[_ ->]]; [by left | right; lia].
Qed.

Lemma single_win_rotation_witness :
  length (queueOf Scenario.shortStarted) = 1%nat
  ∧ outcome (recordResult 0 1 (Js.obj_literal
               [(15, Scenario.teamA); (8, Scenario.teamC)]))
      Scenario.shortStarted = Normal tt
  ∧ queueOf (after (recordResult 0 1 (Js.obj_literal
               [(15, Scenario.teamA); (8, Scenario.teamC)]))
      Scenario.shortStarted) = [Scenario.teamC].
Proof.
  split; [reflexivity|].
  destruct (single_win_rotation 0 1
              (Js.obj_literal [(15, Scenario.teamA); (8, Scenario.teamC)])
              Scenario.shortStarted 0
              (Court.mk 1
                 (Some (Match.mk Scenario.teamA Scenario.teamC 2 (Some 1) None))
                 1 (Some Scenario.teamA))
              (Match.mk Scenario.teamA Scenario.teamC 2 (Some 1) None)
              (Score.mk Scenario.teamA 15) (Score.mk Scenario.teamC 8))
    as (opponent & _ & Hout & _ & Hqueue & _).
  - repeat split; vm_compute; reflexivity.
  - vm_compute; reflexivity.
  - right. split; vm_compute; [discriminate | reflexivity].
  - split; [exact Hout | rewrite Hqueue; reflexivity].
Defined.

(** C2. A valid call whose updated streak is at least 2 while the queue
    holds at least two teams returns normally: the two teams at the front
    of the queue become the court's next match, the winner and then the
    loser are at the back of the queue, and the court's streak is 0 with no
    streak-holder. *)
Theorem double_win_rotation now courtId scoreMap qm i court cm s0 s1 :
  validCall qm courtId scoreMap i court cm →
  rankedScores scoreMap = [s0; s1] →
  2 ≤ streakAfter (Score.team s0) court →
  (2 ≤ length (queueOf qm))%nat →
  ∃ nextTeam1 nextTeam2 rest,
    queueOf qm = nextTeam1 :: nextTeam2 :: rest
    ∧ outcome (recordResult now courtId scoreMap) qm = Normal tt
    ∧ courtsOf (after (recordResult now courtId scoreMap) qm)
      = <[i := Court.mk (Court.id court)
                 (Some (Match.mk nextTeam1 nextTeam2
                          (QueueManager.matchCounter qm + 1)
                          (Some (Court.id court)) None))
                 0 None]> (courtsOf qm)
    ∧ queueOf (after (recordResult now courtId scoreMap) qm)
      = rest ++ [Score.team s0; Score.team s1]
    ∧ historyOf (after (recordResult now courtId scoreMap) qm)
      = historyOf qm ++ [loggedResult now court cm s0 s1]
    ∧ QueueManager.matchCounter (after (recordResult now courtId scoreMap) qm)
      = QueueManager.matchCounter qm + 1.
Proof.
  intros Hcall Hrank Hstreak Hlen.
  destruct (queueOf qm) as [|q0 [|q1 rest]] eqn:Hq; simpl in Hlen; try lia.
  exists q0, q1, rest. split; [done|].
  unfold outcome, after.
  rewrite (recordResult_double now _ _ _ _ _ _ _ _ _ _ _ Hcall Hrank Hstreak Hq).
  unfold doubleWinState. simpl. by rewrite Hq.
Qed.

Lemma double_win_rotation_witness :
  outcome (recordResult 0 1 (Js.obj_literal
             [(15, Scenario.teamA); (10, Scenario.teamC)]))
    Scenario.afterFirst = Normal tt
  ∧ queueOf Scenario.afterSecond = [Scenario.teamA; Scenario.teamC].
Proof.
  destruct (double_win_rotation 0 1
              (Js.obj_literal [(15, Scenario.teamA); (10, Scenario.teamC)])
              Scenario.afterFirst 0
              (Court.mk 1
                 (Some (Match.mk Scenario.teamA Scenario.teamC 2 (Some 1) None))
                 1 (Some Scenario.teamA))
              (Match.mk Scenario.teamA Scenario.teamC 2 (Some 1) None)
              (Score.mk Scenario.teamA 15) (Score.mk Scenario.teamC 10))
    as (t1 & t2 & rest & Hq & Hout & _ & Hqueue & _).
  - repeat split; vm_compute; reflexivity.
  - vm_compute; reflexivity.
  - vm_compute; discriminate.
  - vm_compute; lia.
  - split; [exact Hout|].
    unfold Scenario.afterSecond. rewrite Hqueue.
    vm_compute in Hq. by simplify_eq.
Defined.

(** C9. [recordResult] never throws [InsufficientTeamsError]: once the call
    passes validation it returns normally, so both throw sites of that
    error are unreachable. *)
Theorem recordResult_never_insufficient now courtId scoreMap qm :
  outcome (recordResult now courtId scoreMap) qm ≠ Throw InsufficientTeamsError
  ∧ (∀ i court cm,
       validCall qm courtId scoreMap i court cm →
       outcome (recordResult now courtId scoreMap) qm = Normal tt).
Proof.
  unfold outcome.
  destruct (recordResult_cases now courtId scoreMap qm)
    as [[Hf ->]|[(i & court & Hf & Hm & ->)|[(i & court & cm & Hf & Hm & Hbad & ->)
       |(i & court & cm & s0 & s1 & Hcall & Hrank & Hrun)]]]; simpl.
  - split; [done|]. intros ??? (Hf' & _). congruence.
  - split; [done|]. intros ??? (Hf' & Hm' & _). congruence.
  - split; [done|]. intros ??? (Hf' & Hm' & Hlen & Hv).
    destruct Hbad; congruence.
  - destruct Hrun as [(?&?&?&?&?& ->)|[? ->]]; done.
Qed.

Lemma recordResult_never_insufficient_witness :
  outcome (recordResult 0 1 (Js.obj_literal
             [(15, Scenario.teamA); (12, Scenario.teamB)]))
    Scenario.started = Normal tt.
Proof.
  apply (proj2 (recordResult_never_insufficient 0 1
                  (Js.obj_literal [(15, Scenario.teamA); (12, Scenario.teamB)])
                  Scenario.started)
           0%nat
           (Court.mk 1
              (Some (Match.mk Scenario.teamA Scenario.teamB 1 (Some 1) None))
              0 None)
           (Match.mk Scenario.teamA Scenario.teamB 1 (Some 1) None)).
  repeat split; vm_compute; reflexivity.
Defined.

(** ** The four-team scenario *)

(** C5, as stated, fails: after the first result the queue is not
    [[C, D, B]], and after the second it is not [[D, B, A, C]]. *)
Lemma scenario_queues_differ :
  queueOf Scenario.afterFirst
    ≠ [Scenario.teamC; Scenario.teamD; Scenario.teamB]
  ∧ queueOf Scenario.afterSecond
    ≠ [Scenario.teamD; Scenario.teamB; Scenario.teamA; Scenario.teamC].
Proof. split; vm_compute; discriminate. Qed.

(** C5, amended. One court, teams A, B, C, D initialised in that order:
    the court plays A against B with queue [[C, D]]; after A beats B 15-12
    the court plays A against C and the queue is [[D, B]]; after A then
    beats C 15-10 the court plays D against B, the queue is [[A, C]] and
    the streak is reset. *)
Theorem scenario_four_teams :
  new_QueueManager 1 = Normal Scenario.fresh
  ∧ (initialize [Scenario.teamA; Scenario.teamB; Scenario.teamC; Scenario.teamD]
       Scenario.fresh).1 = Normal tt
  ∧ courtsOf Scenario.started
    = [Court.mk 1
         (Some (Match.mk Scenario.teamA Scenario.teamB 1 (Some 1) None)) 0 None]
  ∧ queueOf Scenario.started = [Scenario.teamC; Scenario.teamD]
  ∧ outcome (recordResult 0 1 (Js.obj_literal
               [(15, Scenario.teamA); (12, Scenario.teamB)]))
      Scenario.started = Normal tt
  ∧ courtsOf Scenario.afterFirst
    = [Court.mk 1
         (Some (Match.mk Scenario.teamA Scenario.teamC 2 (Some 1) None))
         1 (Some Scenario.teamA)]
  ∧ queueOf Scenario.afterFirst = [Scenario.teamD; Scenario.teamB]
  ∧ outcome (recordResult 0 1 (Js.obj_literal
               [(15, Scenario.teamA); (10, Scenario.teamC)]))
      Scenario.afterFirst = Normal tt
  ∧ courtsOf Scenario.afterSecond
    = [Court.mk 1
         (Some (Match.mk Scenario.teamD Scenario.teamB 3 (Some 1) None))
         0 None]
  ∧ queueOf Scenario.afterSecond = [Scenario.teamA; Scenario.teamC].
Proof. repeat split; vm_compute; reflexivity. Qed.

(** ** Winner and loser *)

Lemma obj_literal_tie {A} (n : Z) (t1 t2 : A) :
  Js.obj_literal [(n, t1); (n, t2)] = [(Js.Numeral n, t2)].
Proof. unfold Js.obj_literal. simpl. by rewrite decide_True. Qed.

Lemma obj_set_keys {A} k (v : A) o :
  (Js.obj_set k v o).*1 = if decide (k ∈ o.*1) then o.*1 else o.*1 ++ [k].
Proof.
  induction o as [|[k' v'] o IH].
  - cbn [Js.obj_set fmap list_fmap fst app]. case_decide; [set_solver|done].
  - cbn [Js.obj_set]. destruct (decide (k = k')) as [->|Hne].
    + clear IH. cbn [fmap list_fmap fst]. case_decide; [done|set_solver].
    + cbn [fmap list_fmap fst app] in *. rewrite IH. clear IH.
      destruct (decide (k ∈ o.*1)) as [Hin|Hin].
      * rewrite decide_True; [done|]. by apply list_elem_of_further.
      * rewrite decide_False; [done|].
        intros [?|?]%elem_of_cons; done.
Qed.

Lemma obj_set_wf {A} k (v : A) o : Js.obj_wf o → Js.obj_wf (Js.obj_set k v o).
Proof.
  unfold Js.obj_wf. intros Hnd. rewrite obj_set_keys.
  destruct (decide (k ∈ o.*1)); [done|].
  apply NoDup_app. split_and!; [done| |apply NoDup_singleton].
  intros x Hx ->%list_elem_of_singleton. done.
Qed.

(** Every object literal is a well-formed object. *)
Lemma obj_literal_wf {A} (props : list (Z * A)) : Js.obj_wf (Js.obj_literal props).
Proof.
  unfold Js.obj_literal.
  assert (Hgen : ∀ o : list (Js.PropertyKey * A), Js.obj_wf o →
            Js.obj_wf (foldl (λ o kv, Js.obj_set (Js.Numeral kv.1) kv.2 o)
                         o props)).
  { induction props as [|kv props IH]; simpl; [done|].
    intros o Ho. by apply IH, obj_set_wf. }
  apply Hgen. constructor.
Qed.



(** With pairwise distinct scores the ranking is strict. *)
Lemma ranked_strict scoreMap s0 s1 :
  NoDup (Js.Number <$> scoreMap.*1) →
  rankedScores scoreMap = [s0; s1] →
  Score.score s1 < Score.score s0.
Proof.
  intros Hnd Hrank.
  assert (Hperm : [s0; s1]
                  ≡ₚ (λ kv, Score.mk kv.2 (Js.Number kv.1)) <$> scoreMap).
  { by rewrite <- Hrank, rankedScores_perm, entryScores_perm. }
  assert (Hne : Score.score s0 ≠ Score.score s1).
  { assert (Hkeys : Score.score <$> [s0; s1] ≡ₚ Js.Number <$> scoreMap.*1).
    { by rewrite Hperm, <- !list_fmap_compose. }
    rewrite <- Hkeys in Hnd. cbn in Hnd.
    apply NoDup_cons in Hnd as [Hnotin _]. intros Heq. apply Hnotin.
    rewrite Heq. apply list_elem_of_here. }
  assert (Hsorted : Sorted (λ a b, Score.score b - Score.score a ≤ 0) [s0; s1]).
  { rewrite <- Hrank. apply Array_sort_sorted. intros; lia. }
  apply Sorted_inv in Hsorted as [_ Hhd]. apply HdRel_inv in Hhd. lia.
Qed.




(** ** Validation *)

(** X13. The three validation failures of [recordResult], and only they,
    are thrown before any mutation: [CourtNotFoundError] exactly when no
    court has the id, [NoActiveMatchError] exactly when that court has no
    match, [InvalidMatchResultError] exactly when the score map does not
    have two entries each naming a team of the match; a call that does not
    return leaves the manager as it was. *)
Lemma recordResult_failure_conditions now courtId scoreMap qm :
  (outcome (recordResult now courtId scoreMap) qm = Throw CourtNotFoundError
   ↔ list_find (λ c, Court.id c = courtId) (courtsOf qm) = None)
  ∧ (outcome (recordResult now courtId scoreMap) qm = Throw NoActiveMatchError
     ↔ ∃ i court,
         list_find (λ c, Court.id c = courtId) (courtsOf qm) = Some (i, court)
         ∧ Court.currentMatch court = None)
  ∧ (outcome (recordResult now courtId scoreMap) qm
     = Throw InvalidMatchResultError
     ↔ ∃ i court cm,
         list_find (λ c, Court.id c = courtId) (courtsOf qm) = Some (i, court)
         ∧ Court.currentMatch court = Some cm
         ∧ ¬ (length (entryScores scoreMap) = 2%nat
              ∧ ∀ s, s ∈ entryScores scoreMap →
                     areTeamsEqual (Score.team s) (Match.team1 cm) = true
                     ∨ areTeamsEqual (Score.team s) (Match.team2 cm) = true))
  ∧ (outcome (recordResult now courtId scoreMap) qm ≠ Normal tt →
     after (recordResult now courtId scoreMap) qm = qm).
Proof.
  assert (Hvalid : ∀ cm,
    validTeams cm (entryScores scoreMap) = true
    ↔ ∀ s, s ∈ entryScores scoreMap →
           areTeamsEqual (Score.team s) (Match.team1 cm) = true
           ∨ areTeamsEqual (Score.team s) (Match.team2 cm) = true).
  { intros cm. unfold validTeams. rewrite forallb_forall.
    setoid_rewrite <- list_elem_of_In. by setoid_rewrite orb_true_iff. }
  unfold outcome, after.
  destruct (recordResult_cases now courtId scoreMap qm)
    as [[Hf Hrun]|[(i & court & Hf & Hm & Hrun)
       |[(i & court & cm & Hf & Hm & Hbad & Hrun)
       |(i & court & cm & s0 & s1 & (Hf & Hm & Hlen & Hv) & Hrank & Hrun)]]].
  - rewrite Hrun. simpl. split_and!; try done.
    + split; [done|]. intros (?&?&?&_). congruence.
    + split; [done|]. intros (?&?&?&?&_). congruence.
  - rewrite Hrun. simpl. split_and!; try done.
    + split; [done|]. congruence.
    + split; [eauto|done].
    + split; [done|]. intros (?&?&?&?&?&_). congruence.
  - rewrite Hrun. simpl. split_and!; try done.
    + split; [done|]. congruence.
    + split; [done|]. intros (?&?&?&?). congruence.
    + split; [|done]. intros _. exists i, court, cm. split_and!; try done.
      intros [Hl Hall]. apply Hvalid in Hall. destruct Hbad; congruence.
  - assert (Hok : (recordResult now courtId scoreMap qm).1 = Normal tt)
      by (destruct Hrun as [(?&?&?&_&_& ->)|[_ ->]]; done).
    rewrite Hok. split_and!; try done.
    + split; [done|]. congruence.
    + split; [done|]. intros (?&?&?&?). congruence.
    + split; [done|]. intros (?&?&?&?&?& Hnot). simplify_eq.
      destruct Hnot. split; [done|]. by apply Hvalid.
Qed.

Lemma recordResult_failure_conditions_witness :
  outcome (recordResult 0 1 (Js.obj_literal [(15, Scenario.teamA)]))
    Scenario.started = Throw InvalidMatchResultError
  ∧ after (recordResult 0 1 (Js.obj_literal [(15, Scenario.teamA)]))
      Scenario.started = Scenario.started.
Proof.
  split; [reflexivity|].
  apply (proj2 (proj2 (proj2
    (recordResult_failure_conditions 0 1
       (Js.obj_literal [(15, Scenario.teamA)]) Scenario.started)))).
  vm_compute. discriminate.
Defined.

(** C4 at the input [{ 15: A, 13: A }] on a court playing A against B: the
    two entries do not name the two teams of the match (none names B), yet
    the call is not rejected with [InvalidMatchResultError]; it returns and
    records A as both winner and loser. *)
Theorem same_team_twice_is_accepted :
  let scoreMap := Js.obj_literal [(15, Scenario.teamA); (13, Scenario.teamA)] in
  courtsOf Scenario.started
  = [Court.mk 1
       (Some (Match.mk Scenario.teamA Scenario.teamB 1 (Some 1) None)) 0 None]
  ∧ entryScores scoreMap
    = [Score.mk Scenario.teamA 13; Score.mk Scenario.teamA 15]
  ∧ areTeamsEqual Scenario.teamA Scenario.teamB = false
  ∧ outcome (recordResult 0 1 scoreMap) Scenario.started = Normal tt
  ∧ (MatchResult.winner <$> historyOf (after (recordResult 0 1 scoreMap)
                                         Scenario.started))
    = [Scenario.teamA]
  ∧ (MatchResult.loser <$> historyOf (after (recordResult 0 1 scoreMap)
                                        Scenario.started))
    = [Scenario.teamA].
Proof. repeat split; vm_compute; reflexivity. Qed.

(** ** Teams in play *)

(** C10 at the same input: the call succeeds, team B is neither on the
    court nor in the queue afterwards and team A is there twice, so the
    identities in play are not preserved. *)
Theorem same_team_twice_loses_a_team :
  let scoreMap := Js.obj_literal [(15, Scenario.teamA); (13, Scenario.teamA)] in
  outcome (recordResult 0 1 scoreMap) Scenario.started = Normal tt
  ∧ teamsInPlay Scenario.started = ["1-2"; "3-4"; "5-6"; "7-8"]%string
  ∧ teamsInPlay (after (recordResult 0 1 scoreMap) Scenario.started)
    = ["1-2"; "5-6"; "7-8"; "1-2"]%string
  ∧ ¬ (teamsInPlay (after (recordResult 0 1 scoreMap) Scenario.started)
       ≡ₚ teamsInPlay Scenario.started).
Proof.
  assert (Hbefore : teamsInPlay Scenario.started
                    = ["1-2"; "3-4"; "5-6"; "7-8"]%string)
    by (vm_compute; reflexivity).
  assert (Hafter :
    teamsInPlay (after (recordResult 0 1
      (Js.obj_literal [(15, Scenario.teamA); (13, Scenario.teamA)]))
      Scenario.started) = ["1-2"; "5-6"; "7-8"; "1-2"]%string)
    by (vm_compute; reflexivity).
  cbv zeta. split_and!; [vm_compute; reflexivity|done|done|].
  rewrite Hbefore, Hafter. intros Hperm.
  assert (Hin : "3-4"%string ∈ ["1-2"; "5-6"; "7-8"; "1-2"]%string)
    by (rewrite Hperm; set_solver).
  revert Hin. apply (bool_decide_unpack _). vm_compute. exact I.
Qed.

(** ** initialize *)

Lemma initialize_loop_run teams m : ∀ k qm,
  (k + m ≤ length (courtsOf qm))%nat →
  (2 * (k + m) ≤ length teams)%nat →
  ∃ qm',
    initialize_loop teams (seq k m) (2 * k) qm = (Normal (2 * (k + m))%nat, qm')
    ∧ queueOf qm' = queueOf qm
    ∧ historyOf qm' = historyOf qm
    ∧ QueueManager.matchCounter qm' = QueueManager.matchCounter qm + Z.of_nat m
    ∧ ∀ j, courtsOf qm' !! j
           = if decide (k ≤ j < k + m)%nat
             then court ← courtsOf qm !! j;
                  team1 ← teams !! (2 * j)%nat;
                  team2 ← teams !! (2 * j + 1)%nat;
                  Some (initCourt team1 team2
                          (QueueManager.matchCounter qm + Z.of_nat (j - k) + 1)
                          court)
             else courtsOf qm !! j.
Proof.
  induction m as [|m IH]; intros k qm Hcourts Hteams.
  - exists qm. cbn [seq initialize_loop]. unfold ret.
    replace (2 * (k + 0))%nat with (2 * k)%nat by lia.
    split_and!; [done|done|done|cbn; lia|].
    intros j. by rewrite decide_False by lia.
  - destruct (lookup_lt_is_Some_2 teams (2 * k)) as [team1 Ht1]; [lia|].
    destruct (lookup_lt_is_Some_2 teams (S (2 * k))) as [team2 Ht2]; [lia|].
    destruct (lookup_lt_is_Some_2 (courtsOf qm) k) as [court Hc]; [lia|].
    destruct qm as [[courts queue history] counter].
    cbn [seq initialize_loop]. unfold_M. rewrite Ht1, Ht2.
    cbn [fmap option_fmap option_map]. unfold_M.
    rewrite Hc. unfold_M. rewrite (alter_as_insert _ _ _ _ Hc), !alter_insert_same.
    set (qm1 := QueueManager.mk (SystemState.mk _ queue history) (counter + 1)).
    destruct (IH (S k) qm1) as (qm' & Hrun & Hq & Hh & Hn & Hlook).
    { subst qm1. unfold_M. rewrite length_insert. lia. }
    { lia. }
    replace (2 * S k)%nat with (S (S (2 * k))) in Hrun by lia.
    exists qm'. rewrite Hrun. subst qm1. unfold_M.
    split_and!; [f_equal; f_equal; lia|done|done|lia|].
    intros j. rewrite Hlook.
    destruct (decide (j = k)) as [->|Hjk].
    + rewrite decide_False by lia. rewrite decide_True by lia.
      rewrite list_lookup_insert_eq by (by eapply lookup_lt_Some).
      rewrite Hc. cbn [mbind option_bind].
      replace (2 * k + 1)%nat with (S (2 * k)) by lia. rewrite Ht1, Ht2.
      cbn [mbind option_bind].
      unfold initCourt, setCurrentCourtTeam, setConsecutiveWins, setCurrentMatch.
      cbn. replace (k - k)%nat with 0%nat by lia.
      by rewrite Z.add_0_r.
    + rewrite list_lookup_insert_ne by done.
      destruct (decide (S k ≤ j < S k + m)%nat) as [Hin|Hout].
      * rewrite decide_True by lia.
        destruct (courts !! j); cbn [mbind option_bind]; [|done].
        destruct (teams !! (2 * j)%nat); cbn [mbind option_bind]; [|done].
        destruct (teams !! (2 * j + 1)%nat); cbn [mbind option_bind]; [|done].
        do 3 f_equal. replace (j - k)%nat with (S (j - S k)) by lia. lia.
      * by rewrite decide_False by lia.
Qed.

(** C3, as stated, fails where it promises two distinct team identities on
    every court: [initialize] does not compare the teams it is given. *)
Lemma initialize_same_team_twice :
  outcome (initialize [Scenario.teamA; Scenario.teamA]) Scenario.fresh
  = Normal tt
  ∧ courtsOf (after (initialize [Scenario.teamA; Scenario.teamA])
                Scenario.fresh)
    = [Court.mk 1
         (Some (Match.mk Scenario.teamA Scenario.teamA 1 (Some 1) None)) 0 None]
  ∧ areTeamsEqual Scenario.teamA Scenario.teamA = true.
Proof. repeat split; vm_compute; reflexivity. Qed.

(** C3, amended. With fewer than 2 * courtCount teams [initialize] throws
    [InsufficientTeamsError] and changes nothing; with at least that many
    it returns: court number i (from 0) gets a fresh match between teams
    2i and 2i+1 of the input, numbered by the incremented counter, with
    streak 0 and no streak-holder; the remaining teams are the queue in
    input order, so queue length + 2 * courtCount is the number of teams;
    the match log is empty.  The two teams of a court have distinct
    identities whenever the input teams are pairwise distinct. *)
Theorem initialize_assigns_courts teams qm :
  ((length teams < 2 * length (courtsOf qm))%nat →
   initialize teams qm = (Throw InsufficientTeamsError, qm))
  ∧ ((2 * length (courtsOf qm) ≤ length teams)%nat →
     outcome (initialize teams) qm = Normal tt
     ∧ (∀ i court,
          courtsOf qm !! i = Some court →
          ∃ team1 team2,
            teams !! (2 * i)%nat = Some team1
            ∧ teams !! (2 * i + 1)%nat = Some team2
            ∧ courtsOf (after (initialize teams) qm) !! i
              = Some (Court.mk (Court.id court)
                        (Some (Match.mk team1 team2
                                 (QueueManager.matchCounter qm + Z.of_nat i + 1)
                                 (Some (Court.id court)) None))
                        0 None)
            ∧ (distinctTeams teams → areTeamsEqual team1 team2 = false))
     ∧ length (courtsOf (after (initialize teams) qm)) = length (courtsOf qm)
     ∧ queueOf (after (initialize teams) qm)
       = drop (2 * length (courtsOf qm)) teams
     ∧ (length (queueOf (after (initialize teams) qm))
        + 2 * length (courtsOf qm) = length teams)%nat
     ∧ historyOf (after (initialize teams) qm) = []
     ∧ QueueManager.matchCounter (after (initialize teams) qm)
       = QueueManager.matchCounter qm + Z.of_nat (length (courtsOf qm))).
Proof.
  split.
  - intros Hshort. unfold initialize. unfold_M.
    by rewrite (proj2 (Nat.ltb_lt _ _)) by lia.
  - intros Henough.
    destruct (initialize_loop_run teams (length (courtsOf qm)) 0 qm)
      as (qm' & Hrun & Hq & Hh & Hn & Hlook); [lia..|].
    assert (Hinit : initialize teams qm
      = (Normal tt,
         withHistory (λ _, [])
           (withQueue (λ _, drop (2 * length (courtsOf qm)) teams) qm'))).
    { unfold initialize. unfold_M.
      rewrite (proj2 (Nat.ltb_ge _ _)) by lia.
      change (2 * 0)%nat with 0%nat in Hrun. by rewrite Hrun. }
    unfold outcome, after. rewrite Hinit. cbn [fst snd].
    assert (Hcourts : ∀ j, courtsOf qm' !! j
      = court ← courtsOf qm !! j;
        team1 ← teams !! (2 * j)%nat;
        team2 ← teams !! (2 * j + 1)%nat;
        Some (initCourt team1 team2
                (QueueManager.matchCounter qm + Z.of_nat j + 1) court)).
    { intros j. rewrite Hlook. case_decide as Hj.
      - by rewrite Nat.sub_0_r.
      - rewrite (lookup_ge_None_2 (courtsOf qm)) by lia. done. }
    split_and!; try done.
    + intros i court Hc.
      pose proof (lookup_lt_Some _ _ _ Hc) as Hi.
      destruct (lookup_lt_is_Some_2 teams (2 * i)) as [team1 Ht1]; [lia|].
      destruct (lookup_lt_is_Some_2 teams (2 * i + 1)) as [team2 Ht2]; [lia|].
      exists team1, team2. split_and!; try done.
      * change (courtsOf (withHistory _ (withQueue _ qm'))) with (courtsOf qm').
        by rewrite Hcourts, Hc, Ht1, Ht2.
      * intros Hdistinct. eapply Hdistinct; [done..|lia].
    + change (courtsOf (withHistory _ (withQueue _ qm'))) with (courtsOf qm').
      apply Nat.le_antisymm.
      * apply Nat.nlt_ge. intros Hlt.
        destruct (lookup_lt_is_Some_2 (courtsOf qm') (length (courtsOf qm)))
          as [c Hc]; [lia|].
        rewrite Hcourts in Hc.
        rewrite (lookup_ge_None_2 (courtsOf qm)) in Hc by lia. done.
      * apply Nat.nlt_ge. intros Hlt.
        destruct (lookup_lt_is_Some_2 (courtsOf qm) (length (courtsOf qm')))
          as [c Hc]; [lia|].
        pose proof (Hcourts (length (courtsOf qm'))) as Hnone.
        rewrite (lookup_ge_None_2 (courtsOf qm')) in Hnone by lia.
        rewrite Hc in Hnone.
        pose proof (lookup_lt_Some _ _ _ Hc) as Hi.
        destruct (lookup_lt_is_Some_2 teams (2 * length (courtsOf qm')))
          as [t1 Ht1]; [lia|].
        destruct (lookup_lt_is_Some_2 teams (2 * length (courtsOf qm') + 1))
          as [t2 Ht2]; [lia|].
        by rewrite Ht1, Ht2 in Hnone.
    + unfold_M. rewrite length_drop. lia.
Qed.

Lemma initialize_assigns_courts_witness :
  outcome (initialize
             [Scenario.teamA; Scenario.teamB; Scenario.teamC; Scenario.teamD])
    Scenario.fresh = Normal tt
  ∧ queueOf Scenario.started = [Scenario.teamC; Scenario.teamD]
  ∧ initialize [Scenario.teamA] Scenario.fresh
    = (Throw InsufficientTeamsError, Scenario.fresh).
Proof.
  destruct (initialize_assigns_courts
              [Scenario.teamA; Scenario.teamB; Scenario.teamC; Scenario.teamD]
              Scenario.fresh) as [_ Hok].
  destruct Hok as (Hout & _ & _ & Hq & _); [vm_compute; lia|].
  split; [exact Hout|]. split; [exact Hq|].
  apply (initialize_assigns_courts [Scenario.teamA] Scenario.fresh).
  vm_compute. lia.
Defined.

(** ** Team keys and team identity *)

Lemma ToString_inj a b : Js.ToString a = Js.ToString b → a = b.
Proof.
  unfold Js.ToString. intros Heq.
  assert (Hnn : ∀ z, Z.to_int z ≠ Decimal.Pos Decimal.Nil
                     ∧ Z.to_int z ≠ Decimal.Neg Decimal.Nil).
  { intros [|p|p]; simpl; split; try discriminate;
      intros [=Hp]; by apply DecimalPos.Unsigned.to_uint_nonnil in Hp. }
  assert (Hint : Some (Z.to_int a) = Some (Z.to_int b)).
  { rewrite <- (NilZero.isi (Z.to_int a)) by apply Hnn.
    rewrite <- (NilZero.isi (Z.to_int b)) by apply Hnn.
    by rewrite Heq. }
  injection Hint as Hint.
  by rewrite <- (DecimalZ.of_to a), <- (DecimalZ.of_to b), Hint.
Qed.

Lemma nodash_uint d : nodash (NilEmpty.string_of_uint d).
Proof. induction d; simpl; (done || by split). Qed.

(** The decimal rendering of an integer: an optional minus sign, then a
    nonempty run of digits. *)
Lemma ToString_shape z :
  ∃ c u, c ≠ "-"%char ∧ nodash u
         ∧ (Js.ToString z = String c u ∨ Js.ToString z = String "-" (String c u)).
Proof.
  assert (Huint : ∀ d, d ≠ Decimal.Nil →
            ∃ c u, c ≠ "-"%char ∧ nodash u
                   ∧ NilZero.string_of_uint d = String c u).
  { intros d Hd. pose proof (nodash_uint d) as Hnd.
    destruct d; [done|..]; simpl in *; destruct Hnd; eauto. }
  unfold Js.ToString.
  destruct z as [|p|p]; simpl.
  - exists "0"%char, ""%string. split_and!; [done|done|by left].
  - destruct (Huint _ (DecimalPos.Unsigned.to_uint_nonnil p)) as (c & u & ? & ? & ->).
    exists c, u. split_and!; [done|done|by left].
  - destruct (Huint _ (DecimalPos.Unsigned.to_uint_nonnil p)) as (c & u & ? & ? & ->).
    exists c, u. split_and!; [done|done|by right].
Qed.

Lemma split_at_dash u : ∀ u' r r',
  nodash u → nodash u' →
  u +:+ String "-" r = u' +:+ String "-" r' → u = u' ∧ r = r'.
Proof.
  induction u as [|c u IH]; intros [|c' u'] r r' Hu Hu' Heq; simpl in *.
  - by simplify_eq.
  - destruct Hu'. by simplify_eq.
  - destruct Hu. by simplify_eq.
  - destruct Hu, Hu'. injection Heq as -> Heq.
    by destruct (IH _ _ _ ltac:(done) ltac:(done) Heq) as [-> ->].
Qed.

Lemma key_parts_inj x y x' y' :
  Js.ToString x +:+ "-" +:+ Js.ToString y
  = Js.ToString x' +:+ "-" +:+ Js.ToString y' →
  x = x' ∧ y = y'.
Proof.
  change ("-" +:+ Js.ToString y) with (String "-" (Js.ToString y)).
  change ("-" +:+ Js.ToString y') with (String "-" (Js.ToString y')).
  intros Heq.
  assert (Hparts : Js.ToString x = Js.ToString x'
                   ∧ Js.ToString y = Js.ToString y').
  { destruct (ToString_shape x) as (c & u & Hc & Hu & [Hx|Hx]),
             (ToString_shape x') as (c' & u' & Hc' & Hu' & [Hx'|Hx']);
      rewrite Hx, Hx' in *.
    - by apply split_at_dash.
    - simpl in Heq. by simplify_eq.
    - simpl in Heq. by simplify_eq.
    - simpl in Heq. injection Heq as -> Heq.
      by destruct (split_at_dash _ _ _ _ Hu Hu' Heq) as [-> ->]. }
  destruct Hparts. split; by apply ToString_inj.
Qed.

Lemma sortedIds_two t : ∃ x y, sortedIds t = [x; y].
Proof.
  unfold sortedIds, Js.Array_sort. simpl.
  destruct (Js.SortCompare _ _ <=? 0); eauto.
Qed.

Lemma areTeamsEqual_sortedIds a b :
  areTeamsEqual a b = true ↔ sortedIds a = sortedIds b.
Proof.
  unfold areTeamsEqual.
  destruct (sortedIds_two a) as (x & y & ->), (sortedIds_two b) as (x' & y' & ->).
  simpl. rewrite andb_true_iff, !bool_decide_eq_true.
  split; [intros [??]|intros ?]; by simplify_eq.
Qed.

Lemma getTeamKey_sortedIds a b :
  getTeamKey a = getTeamKey b ↔ sortedIds a = sortedIds b.
Proof.
  unfold getTeamKey. split; [|by intros ->].
  destruct (sortedIds_two a) as (x & y & ->), (sortedIds_two b) as (x' & y' & ->).
  simpl. by intros [-> ->]%key_parts_inj.
Qed.

(** Two teams get the same map key exactly when they are the same team. *)
Lemma getTeamKey_areTeamsEqual a b :
  getTeamKey a = getTeamKey b ↔ areTeamsEqual a b = true.
Proof. by rewrite getTeamKey_sortedIds, areTeamsEqual_sortedIds. Qed.

Lemma areTeamsEqual_refl a : areTeamsEqual a a = true.
Proof. by apply areTeamsEqual_sortedIds. Qed.

Lemma areTeamsEqual_sym a b : areTeamsEqual a b = areTeamsEqual b a.
Proof.
  apply eq_true_iff_eq. rewrite !areTeamsEqual_sortedIds. naive_solver.
Qed.

(** ** Maps in insertion order *)

Lemma sumZ_app l1 l2 : sumZ (l1 ++ l2) = sumZ l1 + sumZ l2.
Proof. unfold sumZ. induction l1 as [|x l1 IH]; simpl; lia. Qed.

Section maps.
Context {A : Type}.
Implicit Types (m : list (string * A)) (k : string).

Lemma Map_get_Some_keys k m : is_Some (Js.Map_get k m) ↔ k ∈ m.*1.
Proof.
  induction m as [|[k' v] m IH]; simpl.
  - split; [by intros []|by intros ?%elem_of_nil].
  - case_decide as Hk.
    + subst. split; [intros _; apply list_elem_of_here|eauto].
    + rewrite IH, elem_of_cons. split; [by right|by intros [?|?]].
Qed.

Lemma Map_get_elem_of k m v : Js.Map_get k m = Some v → (k, v) ∈ m.
Proof.
  induction m as [|[k' v'] m IH]; simpl; [done|].
  case_decide; intros ?; simplify_eq.
  - apply list_elem_of_here.
  - by apply list_elem_of_further, IH.
Qed.

Lemma elem_of_Map_get k m v : NoDup m.*1 → (k, v) ∈ m → Js.Map_get k m = Some v.
Proof.
  induction m as [|[k' v'] m IH]; simpl.
  - by intros _ ?%elem_of_nil.
  - intros [Hnotin Hnd]%NoDup_cons [Heq|Hin]%elem_of_cons.
    + simplify_eq. by rewrite decide_True.
    + rewrite decide_False; [by apply IH|].
      intros ->. apply Hnotin. by apply (list_elem_of_fmap_2 fst) in Hin.
Qed.

Lemma Map_set_fresh k v m : k ∉ m.*1 → Js.Map_set k v m = m ++ [(k, v)].
Proof.
  induction m as [|[k' v'] m IH]; simpl; [done|].
  intros Hk. rewrite decide_False.
  - f_equal. apply IH. intros ?. apply Hk. by apply list_elem_of_further.
  - intros ->. apply Hk. apply list_elem_of_here.
Qed.

Lemma Map_update_keys k f m : (Js.Map_update k f m).*1 = m.*1.
Proof.
  induction m as [|[k' v'] m IH]; simpl; [done|].
  case_decide; simpl; by f_equal.
Qed.

Lemma Map_get_update k key f m :
  Js.Map_get k (Js.Map_update key f m)
  = if decide (k = key) then f <$> Js.Map_get k m else Js.Map_get k m.
Proof.
  induction m as [|[k' v'] m IH]; cbn [Js.Map_get Js.Map_update].
  - by case_decide.
  - destruct (decide (key = k')) as [->|Hne]; cbn [Js.Map_get].
    + destruct (decide (k = k')) as [->|?]; done.
    + destruct (decide (k = k')) as [->|?].
      * by rewrite decide_False by done.
      * apply IH.
Qed.

Lemma Map_update_split k f m :
  k ∈ m.*1 →
  ∃ m1 v m2, m = m1 ++ (k, v) :: m2
             ∧ Js.Map_update k f m = m1 ++ (k, f v) :: m2.
Proof.
  induction m as [|[k' v'] m IH]; cbn [Js.Map_update].
  - by intros ?%elem_of_nil.
  - rewrite fmap_cons. intros Hin.
    destruct (decide (k = k')) as [->|Hne].
    + by exists [], v', m.
    + destruct IH as (m1 & v & m2 & -> & ->).
      { apply elem_of_cons in Hin as [?|?]; done. }
      by exists ((k', v') :: m1), v, m2.
Qed.

Lemma Map_update_sum (g : A → Z) d k f m :
  (∀ v, g (f v) = g v + d) → k ∈ m.*1 →
  sumZ (g <$> (Js.Map_update k f m).*2) = sumZ (g <$> m.*2) + d.
Proof.
  intros Hg (m1 & v & m2 & -> & ->)%(Map_update_split k f).
  rewrite !fmap_app, !fmap_cons, !sumZ_app. cbn [snd sumZ foldr].
  rewrite Hg. lia.
Qed.
End maps.

Lemma ensureStats_keys key team m :
  (ensureStats key team m).*1 = if decide (key ∈ m.*1) then m.*1 else m.*1 ++ [key].
Proof.
  unfold ensureStats, Js.Map_has.
  destruct (decide (key ∈ m.*1)) as [Hin|Hout].
  - by rewrite bool_decide_eq_true_2.
  - rewrite bool_decide_eq_false_2 by done. simpl.
    rewrite Map_set_fresh by done. by rewrite fmap_app.
Qed.

Lemma Map_get_ensureStats k key team m :
  Js.Map_get k (ensureStats key team m)
  = if decide (k = key)
    then Some (default (emptyStats team) (Js.Map_get key m))
    else Js.Map_get k m.
Proof.
  unfold ensureStats, Js.Map_has.
  destruct (decide (key ∈ m.*1)) as [Hin|Hout].
  - rewrite bool_decide_eq_true_2 by done. simpl.
    case_decide; [subst|done].
    apply Map_get_Some_keys in Hin as [v ->]. done.
  - rewrite bool_decide_eq_false_2 by done. simpl.
    rewrite Map_set_fresh by done.
    assert (Hnone : Js.Map_get key m = None).
    { apply eq_None_not_Some. by rewrite Map_get_Some_keys. }
    rewrite Hnone. simpl. clear Hnone.
    induction m as [|[k' v'] m IH]; simpl.
    + done.
    + rewrite IH.
      * destruct (decide (k = k')) as [->|?]; [|done].
        rewrite decide_False; [done|].
        intros <-. apply Hout. apply list_elem_of_here.
      * intros ?. apply Hout. by apply list_elem_of_further.
Qed.

Lemma ensureStats_sum (g : TeamStatistics.t → Z) key team m :
  g (emptyStats team) = 0 →
  sumZ (g <$> (ensureStats key team m).*2) = sumZ (g <$> m.*2).
Proof.
  intros Hg. unfold ensureStats, Js.Map_has.
  destruct (decide (key ∈ m.*1)) as [Hin|Hout].
  - by rewrite bool_decide_eq_true_2.
  - rewrite bool_decide_eq_false_2 by done. simpl.
    rewrite Map_set_fresh by done. rewrite !fmap_app, sumZ_app.
    cbn. rewrite Hg. lia.
Qed.

(** ** The statistics fold *)

Lemma Map_update_id {A} k (f : A → A) (m : list (string * A)) :
  (∀ v, f v = v) → Js.Map_update k f m = m.
Proof.
  intros Hf. induction m as [|[k' v'] m IH]; simpl; [done|].
  case_decide; by rewrite ?Hf, ?IH.
Qed.

(** The loop body, with the two initialisations named and the points
    taken from [recordedPoints]. *)
Lemma statsStep_eq m r :
  let winnerKey := getTeamKey (MatchResult.winner r) in
  let loserKey := getTeamKey (MatchResult.loser r) in
  let points := recordedPoints r in
  statsStep m r
  = Js.Map_update loserKey (addPointsAgainst points.1)
      (Js.Map_update loserKey (addTotalPoints points.2)
         (Js.Map_update winnerKey (addPointsAgainst points.2)
            (Js.Map_update winnerKey (addTotalPoints points.1)
               (Js.Map_update loserKey addLoss
                  (Js.Map_update winnerKey addWin
                     (ensureStats loserKey (MatchResult.loser r)
                        (ensureStats winnerKey (MatchResult.winner r) m))))))).
Proof.
  assert (Htp : ∀ s, addTotalPoints 0 s = s)
    by (intros []; unfold addTotalPoints; simpl; f_equal; lia).
  assert (Hpa : ∀ s, addPointsAgainst 0 s = s)
    by (intros []; unfold addPointsAgainst; simpl; f_equal; lia).
  cbv zeta. unfold statsStep, recordedPoints. fold (ensureStats
    (getTeamKey (MatchResult.winner r)) (MatchResult.winner r) m).
  fold (ensureStats (getTeamKey (MatchResult.loser r)) (MatchResult.loser r)
          (ensureStats (getTeamKey (MatchResult.winner r))
             (MatchResult.winner r) m)).
  destruct (MatchResult.scores r) as [scores|]; simpl.
  - destruct (findScore (MatchResult.winner r) scores),
             (findScore (MatchResult.loser r) scores); simpl; try done;
      by rewrite !(Map_update_id _ (addPointsAgainst 0)),
                 !(Map_update_id _ (addTotalPoints 0)).
  - by rewrite !(Map_update_id _ (addPointsAgainst 0)),
               !(Map_update_id _ (addTotalPoints 0)).
Qed.

Lemma statsStep_keys m r :
  (statsStep m r).*1
  = (ensureStats (getTeamKey (MatchResult.loser r)) (MatchResult.loser r)
       (ensureStats (getTeamKey (MatchResult.winner r))
          (MatchResult.winner r) m)).*1.
Proof. rewrite statsStep_eq. cbv zeta. by rewrite !Map_update_keys. Qed.

Lemma elem_of_statsStep_keys k m r :
  k ∈ (statsStep m r).*1
  ↔ k ∈ m.*1 ∨ k = getTeamKey (MatchResult.winner r)
    ∨ k = getTeamKey (MatchResult.loser r).
Proof.
  rewrite statsStep_keys, !ensureStats_keys.
  generalize (getTeamKey (MatchResult.winner r))
             (getTeamKey (MatchResult.loser r)).
  intros wk lk.
  destruct (decide (wk ∈ m.*1)) as [Hw|Hw].
  - destruct (decide (lk ∈ m.*1)) as [Hl|Hl].
    + split; [by left|]. by intros [?|[->| ->]].
    + rewrite elem_of_app, list_elem_of_singleton.
      split; [intros [?|?]; auto|]. intros [?|[->|?]]; auto.
  - destruct (decide (lk ∈ m.*1 ++ [wk])) as [Hl|Hl].
    + rewrite elem_of_app, list_elem_of_singleton in *.
      split; [intros [?|?]; auto|]. intros [?|[?| ->]]; auto.
    + rewrite !elem_of_app, !list_elem_of_singleton.
      split; [intros [[?|?]|?]; auto|]. intros [?|[?|?]]; auto.
Qed.

Lemma NoDup_statsStep_keys m r : NoDup m.*1 → NoDup (statsStep m r).*1.
Proof.
  intros Hnd. rewrite statsStep_keys, !ensureStats_keys.
  assert (Hsnoc : ∀ (l : list string) x, NoDup l → x ∉ l → NoDup (l ++ [x])).
  { intros l x ? ?. apply NoDup_app. split_and!; [done| |apply NoDup_singleton].
    by intros y ? ->%list_elem_of_singleton. }
  repeat case_decide; auto.
Qed.

Ltac stats_eq :=
  unfold addPointsAgainst, addTotalPoints, addLoss, addWin, bump, emptyStats;
  cbn; do 2 f_equal; lia.

Lemma Map_get_statsStep k m r :
  let w := bool_decide (k = getTeamKey (MatchResult.winner r)) in
  let l := bool_decide (k = getTeamKey (MatchResult.loser r)) in
  Js.Map_get k (statsStep m r)
  = if w || l
    then Some (bump w l (recordedPoints r)
                 (default
                    (emptyStats (if w then MatchResult.winner r
                                 else MatchResult.loser r))
                    (Js.Map_get k m)))
    else Js.Map_get k m.
Proof.
  cbv zeta. rewrite statsStep_eq. cbv zeta.
  rewrite !Map_get_update, !Map_get_ensureStats.
  destruct (recordedPoints r) as [ws ls].
  generalize (getTeamKey (MatchResult.winner r))
             (getTeamKey (MatchResult.loser r)).
  intros wk lk.
  destruct (decide (k = wk)) as [->|Hw].
  - rewrite bool_decide_eq_true_2 by done.
    destruct (decide (wk = lk)) as [<-|Hl].
    + rewrite bool_decide_eq_true_2 by done. rewrite decide_True by done.
      cbn [orb default fmap option_fmap option_map].
      destruct (Js.Map_get wk m) as [[]|]; stats_eq.
    + rewrite bool_decide_eq_false_2 by done.
      cbn [orb default fmap option_fmap option_map].
      destruct (Js.Map_get wk m) as [[]|]; stats_eq.
  - rewrite (bool_decide_eq_false_2 (k = wk)) by done.
    destruct (decide (k = lk)) as [->|Hl].
    + rewrite bool_decide_eq_true_2 by done. rewrite decide_False by done.
      cbn [orb default fmap option_fmap option_map].
      destruct (Js.Map_get lk m) as [[]|]; stats_eq.
    + by rewrite bool_decide_eq_false_2 by done.
Qed.

Lemma won_key t r :
  won t r
  = if bool_decide (getTeamKey t = getTeamKey (MatchResult.winner r))
    then 1 else 0.
Proof.
  unfold won. destruct (areTeamsEqual (MatchResult.winner r) t) eqn:He.
  - apply getTeamKey_areTeamsEqual in He. by rewrite bool_decide_eq_true_2.
  - rewrite bool_decide_eq_false_2; [done|].
    intros Hk. symmetry in Hk. apply getTeamKey_areTeamsEqual in Hk. congruence.
Qed.

Lemma lost_key t r :
  lost t r
  = if bool_decide (getTeamKey t = getTeamKey (MatchResult.loser r))
    then 1 else 0.
Proof.
  unfold lost. destruct (areTeamsEqual (MatchResult.loser r) t) eqn:He.
  - apply getTeamKey_areTeamsEqual in He. by rewrite bool_decide_eq_true_2.
  - rewrite bool_decide_eq_false_2; [done|].
    intros Hk. symmetry in Hk. apply getTeamKey_areTeamsEqual in Hk. congruence.
Qed.

Lemma sumZ_snoc {A} (f : A → Z) l x : sumZ (f <$> (l ++ [x])) = sumZ (f <$> l) + f x.
Proof. rewrite fmap_app, sumZ_app. cbn. lia. Qed.

Lemma tally_snoc t log r :
  tally t (log ++ [r])
  = bump (bool_decide (getTeamKey t = getTeamKey (MatchResult.winner r)))
         (bool_decide (getTeamKey t = getTeamKey (MatchResult.loser r)))
         (recordedPoints r) (tally t log).
Proof.
  unfold tally, bump. cbn. rewrite !sumZ_snoc, won_key, lost_key.
  destruct (recordedPoints r) as [ws ls]. cbn.
  repeat case_bool_decide; f_equal; lia.
Qed.

Lemma tally_unseen t log :
  (∀ r, r ∈ log →
        getTeamKey t ≠ getTeamKey (MatchResult.winner r)
        ∧ getTeamKey t ≠ getTeamKey (MatchResult.loser r)) →
  tally t log = emptyStats t.
Proof.
  induction log as [|r log IH] using rev_ind; [done|].
  intros Hun. rewrite tally_snoc, IH.
  - destruct (Hun r) as [Hw Hl]; [apply elem_of_app; right; apply list_elem_of_here|].
    rewrite !bool_decide_eq_false_2 by done. unfold bump, emptyStats. cbn.
    f_equal.
  - intros r' Hr'. apply Hun. apply elem_of_app. by left.
Qed.

Lemma statsStep_sums m r :
  sumZ (TeamStatistics.wins <$> (statsStep m r).*2)
  = sumZ (TeamStatistics.wins <$> m.*2) + 1
  ∧ sumZ (TeamStatistics.losses <$> (statsStep m r).*2)
    = sumZ (TeamStatistics.losses <$> m.*2) + 1.
Proof.
  rewrite statsStep_eq. cbv zeta.
  set (wk := getTeamKey (MatchResult.winner r)).
  set (lk := getTeamKey (MatchResult.loser r)).
  set (m2 := ensureStats lk (MatchResult.loser r)
               (ensureStats wk (MatchResult.winner r) m)).
  assert (Hkeys : wk ∈ m2.*1 ∧ lk ∈ m2.*1).
  { pose proof (elem_of_statsStep_keys wk m r) as Hw.
    pose proof (elem_of_statsStep_keys lk m r) as Hl.
    rewrite statsStep_keys in Hw, Hl. split; [apply Hw|apply Hl]; auto. }
  destruct Hkeys as [Hw Hl].
  assert (Hbase : ∀ g : TeamStatistics.t → Z,
            (∀ t, g (emptyStats t) = 0) → sumZ (g <$> m2.*2) = sumZ (g <$> m.*2)).
  { intros g Hg. subst m2. by rewrite !ensureStats_sum. }
  split.
  - rewrite (Map_update_sum TeamStatistics.wins 0), (Map_update_sum TeamStatistics.wins 0),
      (Map_update_sum TeamStatistics.wins 0), (Map_update_sum TeamStatistics.wins 0),
      (Map_update_sum TeamStatistics.wins 0), (Map_update_sum TeamStatistics.wins 1);
      rewrite ?Map_update_keys; try done; try (intros []; cbn; lia).
    rewrite Hbase by done. lia.
  - rewrite (Map_update_sum TeamStatistics.losses 0), (Map_update_sum TeamStatistics.losses 0),
      (Map_update_sum TeamStatistics.losses 0), (Map_update_sum TeamStatistics.losses 0),
      (Map_update_sum TeamStatistics.losses 1), (Map_update_sum TeamStatistics.losses 0);
      rewrite ?Map_update_keys; try done; try (intros []; cbn; lia).
    rewrite Hbase by done. lia.
Qed.

(** What the loop has built after any log: one entry per team key seen in
    the log, each holding that team's tally. *)
Lemma stats_invariant log :
  let m := foldl statsStep [] log in
  NoDup m.*1
  ∧ (∀ k, k ∈ m.*1
          ↔ ∃ r, r ∈ log ∧ (k = getTeamKey (MatchResult.winner r)
                            ∨ k = getTeamKey (MatchResult.loser r)))
  ∧ (∀ k s, Js.Map_get k m = Some s →
            k = getTeamKey (TeamStatistics.team s)
            ∧ s = tally (TeamStatistics.team s) log)
  ∧ sumZ (TeamStatistics.wins <$> m.*2) = Z.of_nat (length log)
  ∧ sumZ (TeamStatistics.losses <$> m.*2) = Z.of_nat (length log).
Proof.
  induction log as [|r log IH] using rev_ind; cbv zeta.
  - simpl. split_and!; try done; [apply NoDup_nil_2|].
    intros k. split; [by intros ?%elem_of_nil|].
    by intros (r & ?%elem_of_nil & _).
  - rewrite foldl_app. cbn [foldl].
    cbv zeta in IH. set (m := foldl statsStep [] log) in *.
    destruct IH as (Hnd & Hkeys & Hget & Hwins & Hlosses).
    split_and!.
    + by apply NoDup_statsStep_keys.
    + intros k. rewrite elem_of_statsStep_keys, Hkeys.
      setoid_rewrite elem_of_app. setoid_rewrite list_elem_of_singleton.
      split.
      * intros [(r' & ? & ?)|?]; [exists r'; auto|exists r; auto].
      * intros (r' & [?| ->] & ?); [left; eauto|by right].
    + intros k s. rewrite Map_get_statsStep. cbv zeta.
      destruct (bool_decide (k = getTeamKey (MatchResult.winner r))
                || bool_decide (k = getTeamKey (MatchResult.loser r))) eqn:Hwl.
      * set (t0 := if bool_decide (k = getTeamKey (MatchResult.winner r))
                   then MatchResult.winner r else MatchResult.loser r).
        assert (Ht0 : k = getTeamKey t0).
        { subst t0. apply orb_true_iff in Hwl as [Hk|Hk].
          - rewrite Hk. by apply bool_decide_eq_true in Hk.
          - apply bool_decide_eq_true in Hk. by case_bool_decide. }
        assert (Hbase : ∃ b, default (emptyStats t0) (Js.Map_get k m) = b
                  ∧ k = getTeamKey (TeamStatistics.team b)
                  ∧ b = tally (TeamStatistics.team b) log).
        { destruct (Js.Map_get k m) as [b|] eqn:Hb.
          - exists b. split; [done|]. by apply Hget.
          - exists (emptyStats t0). split_and!; [done|done|]. cbn.
            symmetry. apply tally_unseen. intros r' Hr'.
            assert (Hnot : k ∉ m.*1).
            { rewrite <- Map_get_Some_keys, Hb. by intros []. }
            rewrite Hkeys in Hnot. rewrite <- Ht0.
            split; intros ->; apply Hnot; eauto. }
        destruct Hbase as (b & -> & Hkb & Hb). intros [= <-].
        cbn [bump TeamStatistics.team]. split; [done|].
        rewrite tally_snoc, <- Hkb, <- Hb. done.
      * apply orb_false_iff in Hwl as [Hw Hl].
        intros Hs. destruct (Hget _ _ Hs) as [Hk Heq]. split; [done|].
        rewrite tally_snoc, <- Hk, Hw, Hl, <- Heq.
        destruct s. unfold bump. cbn. f_equal; lia.
    + rewrite (proj1 (statsStep_sums m r)), Hwins, length_app. cbn. lia.
    + rewrite (proj2 (statsStep_sums m r)), Hlosses, length_app. cbn. lia.
Qed.

Lemma compareStats_order a b : compareStats a b ≤ 0 ↔ standingOrder a b.
Proof.
  unfold compareStats, standingOrder. case_bool_decide; lia.
Qed.

Lemma Sorted_iff {A} (R S : A → A → Prop) l :
  (∀ a b, R a b ↔ S a b) → Sorted R l → Sorted S l.
Proof.
  intros HRS. induction 1 as [|x l Hs IH Hhd]; constructor; [done|].
  destruct Hhd; constructor. by apply HRS.
Qed.

Lemma sumZ_perm l1 l2 : l1 ≡ₚ l2 → sumZ l1 = sumZ l2.
Proof. unfold sumZ. induction 1; simpl; lia. Qed.

Lemma keyed_values {A} (f : A → string) (m : list (string * A)) :
  (∀ k v, (k, v) ∈ m → k = f v) → f <$> m.*2 = m.*1.
Proof.
  induction m as [|[k v] m IH]; intros Hk; [done|].
  rewrite !fmap_cons. cbn [fst snd]. f_equal.
  - symmetry. apply Hk, list_elem_of_here.
  - apply IH. intros k' v' ?. by apply Hk, list_elem_of_further.
Qed.

Lemma elem_of_values {A} (m : list (string * A)) v :
  v ∈ m.*2 → ∃ k, (k, v) ∈ m.
Proof. intros ([k v'] & -> & ?)%list_elem_of_fmap. by exists k. Qed.

(** What [getTeamStatistics] returns for any match log: one entry per
    distinct team identity that appears in the log as winner or loser; each
    entry holds that team's wins and losses, and the points the loop finds
    for it in the scores of the entries it won or lost
    ([recordedPoints]); the entries are sorted by wins descending, ties
    broken by total points descending; and the wins, like the losses, add
    up to the length of the log. *)
Theorem team_statistics_of_log qm :
  let log := historyOf qm in
  let stats := getTeamStatistics qm in
  (∀ i j si sj,
     stats !! i = Some si → stats !! j = Some sj → i ≠ j →
     areTeamsEqual (TeamStatistics.team si) (TeamStatistics.team sj) = false)
  ∧ (∀ t,
       (∃ s, s ∈ stats ∧ areTeamsEqual (TeamStatistics.team s) t = true)
       ↔ (∃ r, r ∈ log
               ∧ (areTeamsEqual (MatchResult.winner r) t = true
                  ∨ areTeamsEqual (MatchResult.loser r) t = true)))
  ∧ (∀ s, s ∈ stats →
       TeamStatistics.wins s = sumZ (won (TeamStatistics.team s) <$> log)
       ∧ TeamStatistics.losses s = sumZ (lost (TeamStatistics.team s) <$> log)
       ∧ TeamStatistics.totalPoints s
         = sumZ ((λ r, won (TeamStatistics.team s) r * (recordedPoints r).1
                       + lost (TeamStatistics.team s) r * (recordedPoints r).2)
                   <$> log)
       ∧ TeamStatistics.pointsAgainst s
         = sumZ ((λ r, won (TeamStatistics.team s) r * (recordedPoints r).2
                       + lost (TeamStatistics.team s) r * (recordedPoints r).1)
                   <$> log))
  ∧ StronglySorted standingOrder stats
  ∧ sumZ (TeamStatistics.wins <$> stats) = Z.of_nat (length log)
  ∧ sumZ (TeamStatistics.losses <$> stats) = Z.of_nat (length log).
Proof.
  cbv zeta. unfold getTeamStatistics, statsOfLog, Js.Map_values.
  generalize (historyOf qm). intros log.
  destruct (stats_invariant log) as (Hnd & Hkeys & Hget & Hwins & Hlosses).
  cbv zeta in *. set (m := foldl statsStep [] log) in *.
  set (stats := Js.Array_sort compareStats m.*2).
  assert (Hperm : stats ≡ₚ m.*2) by apply Array_sort_perm.
  assert (Hentry : ∀ s, s ∈ stats →
            Js.Map_get (getTeamKey (TeamStatistics.team s)) m = Some s
            ∧ s = tally (TeamStatistics.team s) log).
  { intros s Hs. rewrite Hperm in Hs. apply elem_of_values in Hs as [k Hks].
    apply elem_of_Map_get in Hks; [|done].
    destruct (Hget _ _ Hks) as [-> ?]. done. }
  assert (Hstatkeys :
    (getTeamKey ∘ TeamStatistics.team) <$> stats ≡ₚ m.*1).
  { rewrite Hperm.
    rewrite (keyed_values (getTeamKey ∘ TeamStatistics.team) m); [done|].
    intros k v Hkv. apply elem_of_Map_get in Hkv; [|done].
    by destruct (Hget _ _ Hkv). }
  split_and!.
  - intros i j si sj Hi Hj Hij.
    destruct (areTeamsEqual _ _) eqn:Heq; [|done].
    apply getTeamKey_areTeamsEqual in Heq. destruct Hij.
    assert (Hnds : NoDup ((getTeamKey ∘ TeamStatistics.team) <$> stats))
      by (by rewrite Hstatkeys).
    eapply (NoDup_lookup _ i j); [exact Hnds| |].
    + rewrite list_lookup_fmap, Hi. done.
    + rewrite list_lookup_fmap, Hj. cbn. by rewrite Heq.
  - intros t. split.
    + intros (s & Hs & Heq). apply getTeamKey_areTeamsEqual in Heq.
      destruct (Hentry _ Hs) as [Hms _].
      assert (Hin : getTeamKey (TeamStatistics.team s) ∈ m.*1)
        by (apply Map_get_Some_keys; eauto).
      apply Hkeys in Hin as (r & Hr & Hwl). exists r. split; [done|].
      rewrite Heq in Hwl.
      destruct Hwl as [Hk|Hk]; [left|right];
        by apply getTeamKey_areTeamsEqual.
    + intros (r & Hr & Hwl).
      assert (Hin : getTeamKey t ∈ m.*1).
      { apply Hkeys. exists r. split; [done|].
        destruct Hwl as [Hk|Hk]; apply getTeamKey_areTeamsEqual in Hk; auto. }
      apply Map_get_Some_keys in Hin as [s Hs].
      destruct (Hget _ _ Hs) as [Hk _]. exists s. split.
      * rewrite Hperm. apply Map_get_elem_of in Hs.
        by apply (list_elem_of_fmap_2 snd) in Hs.
      * by apply getTeamKey_areTeamsEqual.
  - intros s Hs. destruct (Hentry _ Hs) as [_ Heq].
    split_and!; by rewrite Heq at 1.
  - subst stats. apply Sorted_StronglySorted.
    { intros a b c. unfold standingOrder. lia. }
    eapply Sorted_iff; [apply compareStats_order|].
    apply Array_sort_sorted.
    intros x y. unfold compareStats. repeat case_bool_decide; lia.
  - rewrite <- Hwins. apply sumZ_perm. by rewrite Hperm.
  - rewrite <- Hlosses. apply sumZ_perm. by rewrite Hperm.
Qed.

(** C7 at the input of C4.  After [recordResult(1, { 15: A, 13: A })] on a
    court playing A against B the log holds one result, won and lost by A
    with 15 against 13.  [getTeamStatistics] looks both scores up by team
    and finds A's 15 twice: it reports 30 points scored and 30 conceded
    where the log records 15 + 13 = 28 of each. *)
Theorem same_team_twice_miscounts_points :
  let scoreMap := Js.obj_literal [(15, Scenario.teamA); (13, Scenario.teamA)] in
  let qm := after (recordResult 0 1 scoreMap) Scenario.started in
  outcome (recordResult 0 1 scoreMap) Scenario.started = Normal tt
  ∧ historyOf qm
    = [MatchResult.mk
         (Match.mk Scenario.teamA Scenario.teamB 1 (Some 1) None)
         Scenario.teamA Scenario.teamA 0 (Some 1)
         (Some (Score.mk Scenario.teamA 15, Score.mk Scenario.teamA 13))]
  ∧ getTeamStatistics qm = [TeamStatistics.mk Scenario.teamA 1 1 30 30]
  ∧ pointsScored Scenario.teamA (historyOf qm) = 28
  ∧ pointsConceded Scenario.teamA (historyOf qm) = 28.
Proof. repeat split; vm_compute; reflexivity. Qed.

(** ** Undo and redo *)

Lemma stripCourt_idemp c : History.stripCourt (History.stripCourt c) = History.stripCourt c.
Proof. destruct c as [? [[]|] ? ?]; done. Qed.

Lemma createSnapshot_idemp qm :
  History.createSnapshot (History.createSnapshot qm) = History.createSnapshot qm.
Proof.
  destruct qm as [[courts queue history] counter].
  unfold History.createSnapshot. unfold_M. do 2 f_equal.
  rewrite <- list_fmap_compose. apply list_fmap_ext.
  intros i c _. apply stripCourt_idemp.
Qed.

Lemma pushBounded_take cap snap stack :
  (length stack ≤ cap)%nat →
  History.pushBounded cap snap stack = take cap (snap :: stack).
Proof.
  intros Hlen. unfold History.pushBounded. cbv zeta. cbn [length].
  destruct (Nat.ltb_spec cap (S (length stack))) as [Hlt|Hge].
  - f_equal. lia.
  - by rewrite take_ge by (cbn; lia).
Qed.

Lemma pushBounded_length cap snap stack :
  (length stack ≤ cap)%nat →
  (length (History.pushBounded cap snap stack) ≤ cap)%nat.
Proof. intros Hlen. rewrite pushBounded_take, length_take by done. lia. Qed.

Lemma undo_redo_no_history qm' :
  let e1 := History.mk qm' [] [] 0 in
  History.undo e1 = (false, e1) ∧ History.redo e1 = (false, e1).
Proof. cbv zeta. split; reflexivity. Qed.

Lemma undo_redo_after_push qm qm' stack cap :
  (length stack ≤ S cap)%nat →
  let snap := History.createSnapshot qm in
  let e1 := History.mk qm' (take (S cap) (snap :: stack)) [] (S cap) in
  History.undo e1
  = (true, History.mk snap (take cap stack) [History.createSnapshot qm'] (S cap))
  ∧ History.redo (History.undo e1).2
    = (true, History.mk (History.createSnapshot qm') (snap :: take cap stack)
               [] (S cap)).
Proof.
  intros Hlen. cbv zeta. cbn [take]. unfold History.undo at 1 2.
  cbn [History.undoStack History.redoStack History.manager
       History.maxHistorySize snd].
  rewrite (pushBounded_take _ _ []) by (cbn; lia). cbn [take].
  rewrite take_nil. split; [done|]. unfold History.redo.
  cbn [History.undoStack History.redoStack History.manager
       History.maxHistorySize].
  rewrite createSnapshot_idemp.
  rewrite pushBounded_take by (rewrite length_take; lia).
  cbn [take]. do 3 f_equal. apply take_ge. rewrite length_take. lia.
Qed.

(** C8, as stated, fails on live scores: with a live score on the court,
    a tracked mutation followed by [undo()] and [redo()] (both succeed)
    does not give back the state the mutation left. *)
Lemma undo_redo_drops_live_scores :
  historyWf Scenario.engineScored
  ∧ (History.apply (History.AddTeams [Scenario.teamE]) Scenario.engineScored).1
    = Normal tt
  ∧ (History.undo Scenario.engineAdded).1 = true
  ∧ (History.redo (History.undo Scenario.engineAdded).2).1 = true
  ∧ History.manager (History.redo (History.undo Scenario.engineAdded).2).2
    ≠ History.manager Scenario.engineAdded.
Proof.
  split_and!; try (vm_compute; reflexivity).
  - split; vm_compute; lia.
  - vm_compute. intros [=].
Qed.

(** C8, amended. On an engine whose stacks respect the depth cap, every
    tracked mutation that succeeds applies its effect, leaves on the undo
    stack the snapshot of the pre-mutation state on top of the previous
    entries, cut to the cap so that the oldest entry is evicted, and clears
    the redo stack; a tracked mutation that fails changes nothing.
    [undo()] returns failure and changes nothing when the undo stack is
    empty, and otherwise pushes the current state on the redo stack and
    makes the popped snapshot the current state.  After a successful
    tracked mutation, [undo()] followed by [redo()] gives back both stacks
    and the state the mutation left, up to live in-progress scores, which
    snapshots do not record. *)
Theorem undo_redo_history e :
  historyWf e →
  (∀ mu e1,
     History.apply mu e = (Normal tt, e1) →
     History.manager e1 = after (History.mutationBody mu) (History.manager e)
     ∧ History.undoStack e1
       = take (History.maxHistorySize e)
           (History.createSnapshot (History.manager e) :: History.undoStack e)
     ∧ History.redoStack e1 = []
     ∧ History.createSnapshot
         (History.manager (History.redo (History.undo e1).2).2)
       = History.createSnapshot (History.manager e1)
     ∧ History.undoStack (History.redo (History.undo e1).2).2
       = History.undoStack e1
     ∧ History.redoStack (History.redo (History.undo e1).2).2
       = History.redoStack e1
     ∧ ((0 < History.maxHistorySize e)%nat →
        (History.undo e1).1 = true
        ∧ History.manager (History.undo e1).2
          = History.createSnapshot (History.manager e)
        ∧ (History.redo (History.undo e1).2).1 = true
        ∧ History.manager (History.redo (History.undo e1).2).2
          = History.createSnapshot (History.manager e1)))
  ∧ (∀ mu err e1, History.apply mu e = (Throw err, e1) → e1 = e)
  ∧ (History.undoStack e = [] → History.undo e = (false, e))
  ∧ (∀ snap rest,
       History.undoStack e = snap :: rest →
       History.undo e
       = (true,
          History.mk snap rest
            (take (History.maxHistorySize e)
               (History.createSnapshot (History.manager e)
                  :: History.redoStack e))
            (History.maxHistorySize e))).
Proof.
  intros [Hundo Hredo]. split_and!.
  - intros mu e1 Happly. unfold History.apply, History.tracked, after in *.
    destruct (History.mutationBody mu (History.manager e)) as [[[]|err] qm'];
      [|done].
    injection Happly as <-. cbn [History.manager History.undoStack
      History.redoStack History.maxHistorySize snd].
    rewrite pushBounded_take by done.
    destruct e as [qm undo redo cap]. cbn in *.
    split_and!; try done.
    all: destruct cap as [|cap].
    all: try (destruct undo; [|cbn in Hundo; lia]; cbn [take];
              by rewrite ?(proj1 (undo_redo_no_history qm')),
                         ?(proj2 (undo_redo_no_history qm'))).
    all: try (intros ?; lia).
    all: destruct (undo_redo_after_push qm qm' undo cap Hundo) as [Hu Hr];
      cbv zeta in Hu, Hr; rewrite ?Hr, ?Hu; cbn.
    + apply createSnapshot_idemp.
    + done.
    + done.
    + done.
  - intros mu err e1 Happly. unfold History.apply, History.tracked in *.
    destruct (History.mutationBody mu (History.manager e)) as [[[]|err'] qm'];
      by simplify_eq.
  - intros Hempty. unfold History.undo. by rewrite Hempty.
  - intros snap rest Hstack. unfold History.undo. rewrite Hstack.
    by rewrite pushBounded_take.
Qed.

Lemma undo_redo_history_witness :
  History.createSnapshot
    (History.manager (History.redo (History.undo Scenario.engineAdded).2).2)
  = History.createSnapshot (History.manager Scenario.engineAdded)
  ∧ History.undoStack Scenario.engineAdded
    = [History.createSnapshot (History.manager Scenario.engineScored)].
Proof.
  destruct (undo_redo_history Scenario.engineScored) as (Hmut & _).
  - split; vm_compute; lia.
  - destruct (Hmut (History.AddTeams [Scenario.teamE]) Scenario.engineAdded)
      as (_ & Hstack & _ & Hround & _).
    + vm_compute. reflexivity.
    + split; [exact Hround | rewrite Hstack; reflexivity].
Defined.

(** ** What the rotation preserves *)

(** Apart from that input the rotation keeps its teams: when the two
    entries name the two teams of the match the identities in play are the
    same before and after. *)

(** X14. A successful [recordResult] leaves the queue as long as it was:
    on either path as many teams join the queue as leave it. *)
Lemma recordResult_queue_length now courtId scoreMap qm :
  outcome (recordResult now courtId scoreMap) qm = Normal tt →
  length (queueOf (after (recordResult now courtId scoreMap) qm))
  = length (queueOf qm).
Proof.
  unfold outcome, after. intros Hout.
  destruct (recordResult_cases now courtId scoreMap qm)
    as [[_ Hrun]|[(?&?&_&_& Hrun)|[(?&?&?&_&_&_& Hrun)
       |(i & court & cm & s0 & s1 & Hcall & Hrank & Hrun)]]];
    try (rewrite Hrun in Hout; discriminate).
  destruct Hrun as [(q0 & q1 & rest & _ & Hq & ->)|[_ ->]].
  - unfold doubleWinState, queueOf. cbn. fold (queueOf qm). rewrite Hq.
    rewrite length_app. cbn. rewrite drop_0. lia.
  - unfold singleWinState, queueOf. cbn. fold (queueOf qm).
    destruct (queueOf qm); cbn; [done|]. rewrite length_app. cbn. lia.
Qed.

Lemma recordResult_queue_length_witness :
  queueOf Scenario.started = [Scenario.teamC; Scenario.teamD]
  ∧ queueOf Scenario.afterFirst = [Scenario.teamD; Scenario.teamB]
  ∧ length (queueOf Scenario.afterFirst) = length (queueOf Scenario.started).
Proof.
  split; [reflexivity|]. split; [reflexivity|].
  apply (recordResult_queue_length 0 1
           (Js.obj_literal [(15, Scenario.teamA); (12, Scenario.teamB)])
           Scenario.started).
  reflexivity.
Defined.

Lemma courtKeys_insert courts i court c' :
  courts !! i = Some court →
  (<[i := c']> courts ≫= courtKeys) ++ courtKeys court
  ≡ₚ (courts ≫= courtKeys) ++ courtKeys c'.
Proof.
  intros Hi. rewrite insert_take_drop by (by eapply lookup_lt_Some).
  rewrite <- (take_drop_middle courts i court Hi) at 3.
  rewrite !bind_app, !bind_cons. solve_Permutation.
Qed.

Lemma recordResult_preserves_teams now courtId scoreMap qm i court cm s0 s1 :
  validCall qm courtId scoreMap i court cm →
  rankedScores scoreMap = [s0; s1] →
  (areTeamsEqual (Score.team s0) (Match.team1 cm) = true
   ∧ areTeamsEqual (Score.team s1) (Match.team2 cm) = true)
  ∨ (areTeamsEqual (Score.team s0) (Match.team2 cm) = true
     ∧ areTeamsEqual (Score.team s1) (Match.team1 cm) = true) →
  teamsInPlay (after (recordResult now courtId scoreMap) qm)
  ≡ₚ teamsInPlay qm.
Proof.
  intros Hcall Hrank Hnames.
  pose proof Hcall as (Hf & Hm & _).
  pose proof (list_find_lookup _ _ _ _ Hf) as Hi.
  assert (Hkeys : courtKeys court
            ≡ₚ [getTeamKey (Score.team s0); getTeamKey (Score.team s1)]).
  { unfold courtKeys. rewrite Hm.
    destruct Hnames as [[H0 H1]|[H0 H1]];
      apply getTeamKey_areTeamsEqual in H0, H1; rewrite H0, H1;
      [done|apply Permutation_swap]. }
  unfold after, teamsInPlay.
  destruct (decide (2 ≤ streakAfter (Score.team s0) court
                    ∧ (2 ≤ length (queueOf qm))%nat)) as [[Hs Hl]|Hno].
  - destruct (queueOf qm) as [|q0 [|q1 rest]] eqn:Hq; cbn in Hl; try lia.
    rewrite (recordResult_double now _ _ _ _ _ _ _ _ _ _ _ Hcall Hrank Hs Hq).
    unfold doubleWinState, courtsOf, queueOf. cbn.
    fold (courtsOf qm) (queueOf qm). rewrite Hq. cbn.
    pose proof (courtKeys_insert (courtsOf qm) i court
      (Court.mk (Court.id court)
         (Some (Match.mk q0 q1 (QueueManager.matchCounter qm + 1)
                  (Some (Court.id court)) None)) 0 None) Hi) as Hins.
    rewrite Hkeys in Hins. unfold courtKeys at 3 in Hins. cbn in Hins.
    rewrite fmap_app, drop_0. cbn.
    apply (Permutation_app_inv_r
             [getTeamKey (Score.team s0); getTeamKey (Score.team s1)]).
    set (X := <[i:=_]> (courtsOf qm) ≫= courtKeys) in *.
    set (W := [getTeamKey (Score.team s0); getTeamKey (Score.team s1)]) in *.
    trans ((X ++ W) ++ (getTeamKey <$> rest) ++ W); [solve_Permutation|].
    rewrite Hins. solve_Permutation.
  - rewrite (recordResult_single now _ _ _ _ _ _ _ _ Hcall Hrank) by lia.
    unfold singleWinState, courtsOf, queueOf. cbn.
    fold (courtsOf qm) (queueOf qm).
    pose proof (courtKeys_insert (courtsOf qm) i court
      (Court.mk (Court.id court)
         (Some (Match.mk (Score.team s0)
                  (default (Score.team s1) (head (queueOf qm)))
                  (QueueManager.matchCounter qm + 1)
                  (Some (Court.id court)) None))
         (streakAfter (Score.team s0) court)
         (holderAfter (Score.team s0) court)) Hi) as Hins.
    rewrite Hkeys in Hins. unfold courtKeys at 3 in Hins. cbn in Hins.
    apply (Permutation_app_inv_r [getTeamKey (Score.team s0)]).
    set (X := <[i:=_]> (courtsOf qm) ≫= courtKeys) in *.
    destruct (queueOf qm) as [|q0 rest]; cbn in *.
    + apply Permutation_app_inv_r in Hins. by rewrite Hins.
    + rewrite fmap_app. cbn.
      trans ((X ++ [getTeamKey (Score.team s0); getTeamKey (Score.team s1)])
             ++ (getTeamKey <$> rest)); [solve_Permutation|].
      rewrite Hins. solve_Permutation.
Qed.

(** ** The depth cap is an invariant of the engine *)

Lemma historyWf_initialize teams e :
  outcome (initialize teams) (History.manager e) = Normal tt →
  historyWf (History.initialize teams e).2.
Proof.
  unfold outcome, History.initialize.
  destruct (initialize teams (History.manager e)) as [[[]|err] qm'];
    [|done].
  intros _. split; cbn; lia.
Qed.

Lemma historyWf_apply mu e : historyWf e → historyWf (History.apply mu e).2.
Proof.
  intros [Hundo Hredo]. unfold History.apply, History.tracked.
  destruct (History.mutationBody mu (History.manager e)) as [[[]|err] qm'];
    [|by split].
  split; cbn; [by apply pushBounded_length|lia].
Qed.

Lemma historyWf_undo e : historyWf e → historyWf (History.undo e).2.
Proof.
  intros Hwf. unfold History.undo.
  destruct (History.undoStack e) as [|snap rest] eqn:Hstack; [done|].
  destruct Hwf as [Hundo Hredo]. rewrite Hstack in Hundo.
  split; cbn in *; [lia|by apply pushBounded_length].
Qed.

Lemma historyWf_redo e : historyWf e → historyWf (History.redo e).2.
Proof.
  intros Hwf. unfold History.redo.
  destruct (History.redoStack e) as [|snap rest] eqn:Hstack; [done|].
  destruct Hwf as [Hundo Hredo]. rewrite Hstack in Hredo.
  split; cbn in *; [by apply pushBounded_length|lia].
Qed.

(** ** Team identity is the unordered pair of player ids *)

Lemma ltb_asym s1 s2 : String.ltb s1 s2 = true → String.ltb s2 s1 = false.
Proof.
  unfold String.ltb. rewrite (String.compare_antisym s2 s1).
  by destruct (String.compare s1 s2).
Qed.

Lemma ltb_total s1 s2 :
  String.ltb s1 s2 = false → String.ltb s2 s1 = false → s1 = s2.
Proof.
  unfold String.ltb. rewrite (String.compare_antisym s2 s1).
  destruct (String.compare s1 s2) eqn:Hc; try done.
  intros _ _. by apply String.compare_eq_iff.
Qed.

Lemma sortedIds_pair t :
  sortedIds t
  = if Js.SortCompare (Player.id (Team.player1 t)) (Player.id (Team.player2 t))
       <=? 0
    then [Player.id (Team.player1 t); Player.id (Team.player2 t)]
    else [Player.id (Team.player2 t); Player.id (Team.player1 t)].
Proof. done. Qed.

Lemma sortedIds_swap p q : sortedIds (Team.mk p q) = sortedIds (Team.mk q p).
Proof.
  rewrite !sortedIds_pair. cbn [Team.player1 Team.player2].
  unfold Js.SortCompare.
  destruct (String.ltb (Js.ToString (Player.id p)) (Js.ToString (Player.id q)))
    eqn:Hpq.
  - by rewrite (ltb_asym _ _ Hpq).
  - destruct (String.ltb (Js.ToString (Player.id q)) (Js.ToString (Player.id p)))
      eqn:Hqp; [done|].
    cbn. by rewrite (ToString_inj _ _ (ltb_total _ _ Hpq Hqp)).
Qed.

Lemma sortedIds_perm t :
  sortedIds t ≡ₚ [Player.id (Team.player1 t); Player.id (Team.player2 t)].
Proof. apply Array_sort_perm. Qed.

Lemma areTeamsEqual_ids a b :
  areTeamsEqual a b = true
  ↔ (Player.id (Team.player1 a) = Player.id (Team.player1 b)
     ∧ Player.id (Team.player2 a) = Player.id (Team.player2 b))
    ∨ (Player.id (Team.player1 a) = Player.id (Team.player2 b)
       ∧ Player.id (Team.player2 a) = Player.id (Team.player1 b)).
Proof.
  rewrite areTeamsEqual_sortedIds. split.
  - intros Heq.
    assert (Hperm : [Player.id (Team.player1 a); Player.id (Team.player2 a)]
                    ≡ₚ [Player.id (Team.player1 b); Player.id (Team.player2 b)])
      by (by rewrite <- !sortedIds_perm, Heq).
    assert (Hin : Player.id (Team.player1 a)
                  ∈ [Player.id (Team.player1 b); Player.id (Team.player2 b)])
      by (rewrite <- Hperm; apply list_elem_of_here).
    apply elem_of_cons in Hin as [H1|Hin].
    + left. split; [done|]. rewrite H1 in Hperm.
      apply Permutation_cons_inv, Permutation_singleton_l in Hperm. congruence.
    + apply list_elem_of_singleton in Hin. right. split; [done|].
      rewrite Hin in Hperm.
      assert (Hperm' : Player.id (Team.player2 b) :: [Player.id (Team.player2 a)]
                       ≡ₚ Player.id (Team.player2 b) :: [Player.id (Team.player1 b)])
        by (rewrite Hperm; apply Permutation_swap).
      apply Permutation_cons_inv, Permutation_singleton_l in Hperm'. congruence.
  - destruct a as [[a1 n1] [a2 n2]], b as [[b1 m1] [b2 m2]].
    cbn [Player.id Team.player1 Team.player2].
    intros [[-> ->]|[-> ->]].
    + by rewrite !sortedIds_pair.
    + rewrite (sortedIds_swap (Player.mk b1 m1)). by rewrite !sortedIds_pair.
Qed.

(** X1. [areTeamsEqual] holds exactly when the two teams have the same two
    player ids, in either order; player names play no part.  (The default
    sort orders the ids as strings, which does not affect the outcome.) *)
Theorem areTeamsEqual_same_players a b :
  areTeamsEqual a b = true
  ↔ (Player.id (Team.player1 a) = Player.id (Team.player1 b)
     ∧ Player.id (Team.player2 a) = Player.id (Team.player2 b))
    ∨ (Player.id (Team.player1 a) = Player.id (Team.player2 b)
       ∧ Player.id (Team.player2 a) = Player.id (Team.player1 b)).
Proof. apply areTeamsEqual_ids. Qed.

(** X2. [areTeamsEqual] is an equivalence relation on teams, and creating
    a team with its two players in the other order gives an equal team. *)
Theorem areTeamsEqual_equivalence a b c :
  areTeamsEqual a a = true
  ∧ areTeamsEqual a b = areTeamsEqual b a
  ∧ (areTeamsEqual a b = true → areTeamsEqual b c = true →
     areTeamsEqual a c = true)
  ∧ areTeamsEqual (createTeam (Team.player1 a) (Team.player2 a))
      (createTeam (Team.player2 a) (Team.player1 a)) = true.
Proof.
  split_and!.
  - apply areTeamsEqual_refl.
  - apply areTeamsEqual_sym.
  - rewrite !areTeamsEqual_sortedIds. congruence.
  - apply areTeamsEqual_ids. cbn. by right.
Qed.

Lemma areTeamsEqual_equivalence_witness :
  areTeamsEqual Scenario.teamA
    (createTeam (createPlayer 2 "Bob") (createPlayer 1 "Alice")) = true
  ∧ areTeamsEqual Scenario.teamA
      (createTeam (createPlayer 1 "Al") (createPlayer 2 "Bobby")) = true.
Proof.
  split; [reflexivity|].
  apply (proj1 (proj2 (proj2
    (areTeamsEqual_equivalence Scenario.teamA
       (createTeam (createPlayer 2 "Bob") (createPlayer 1 "Alice"))
       (createTeam (createPlayer 1 "Al") (createPlayer 2 "Bobby"))))));
    reflexivity.
Defined.

(** X3. The key [getTeamKey] builds for the duplicate check of [addTeams]
    and for the statistics map identifies a team: two teams have the same
    key exactly when [areTeamsEqual] holds of them. *)
Theorem team_key_identifies_team a b :
  getTeamKey a = getTeamKey b ↔ areTeamsEqual a b = true.
Proof. apply getTeamKey_areTeamsEqual. Qed.

(** ** Running the three mutating methods *)

(** [initialize], in both of its outcomes. *)
Lemma initialize_run teams qm :
  ((length teams < 2 * length (courtsOf qm))%nat
   ∧ initialize teams qm = (Throw InsufficientTeamsError, qm))
  ∨ ((2 * length (courtsOf qm) ≤ length teams)%nat
     ∧ ∃ courts',
         initialize teams qm
         = (Normal tt,
            QueueManager.mk
              (SystemState.mk courts'
                 (drop (2 * length (courtsOf qm)) teams) [])
              (QueueManager.matchCounter qm
               + Z.of_nat (length (courtsOf qm))))
         ∧ length courts' = length (courtsOf qm)
         ∧ ∀ j c', courts' !! j = Some c' →
             ∃ court team1 team2,
               courtsOf qm !! j = Some court
               ∧ teams !! (2 * j)%nat = Some team1
               ∧ teams !! (2 * j + 1)%nat = Some team2
               ∧ c' = initCourt team1 team2
                        (QueueManager.matchCounter qm + Z.of_nat j + 1) court).
Proof.
  destruct (decide (length teams < 2 * length (courtsOf qm))%nat)
    as [Hshort|Henough].
  { left. split; [done|]. unfold initialize. unfold_M.
    by rewrite (proj2 (Nat.ltb_lt _ _)) by lia. }
  right. split; [lia|].
  destruct (initialize_loop_run teams (length (courtsOf qm)) 0 qm)
    as (qm' & Hrun & Hq & Hh & Hn & Hlook); [lia..|].
  assert (Hcourts : ∀ j, courtsOf qm' !! j
    = court ← courtsOf qm !! j;
      team1 ← teams !! (2 * j)%nat;
      team2 ← teams !! (2 * j + 1)%nat;
      Some (initCourt team1 team2
              (QueueManager.matchCounter qm + Z.of_nat j + 1) court)).
  { intros j. rewrite Hlook. case_decide as Hj.
    - by rewrite Nat.sub_0_r.
    - rewrite (lookup_ge_None_2 (courtsOf qm)) by lia. done. }
  assert (Hinit : initialize teams qm
    = (Normal tt,
       withHistory (λ _, [])
         (withQueue (λ _, drop (2 * length (courtsOf qm)) teams) qm'))).
  { unfold initialize. unfold_M.
    rewrite (proj2 (Nat.ltb_ge _ _)) by lia.
    change (2 * 0)%nat with 0%nat in Hrun. by rewrite Hrun. }
  exists (courtsOf qm'). split_and!.
  - rewrite Hinit. unfold withHistory, withQueue, courtsOf at 1 2.
    cbn [QueueManager.state QueueManager.matchCounter SystemState.courts].
    by rewrite Hn.
  - apply Nat.le_antisymm.
    + apply Nat.nlt_ge. intros Hlt.
      destruct (lookup_lt_is_Some_2 (courtsOf qm') (length (courtsOf qm)))
        as [c Hc]; [lia|].
      rewrite Hcourts in Hc.
      rewrite (lookup_ge_None_2 (courtsOf qm)) in Hc by lia. done.
    + apply Nat.nlt_ge. intros Hlt.
      destruct (lookup_lt_is_Some_2 (courtsOf qm) (length (courtsOf qm')))
        as [c Hc]; [lia|].
      pose proof (Hcourts (length (courtsOf qm'))) as Hnone.
      rewrite (lookup_ge_None_2 (courtsOf qm')) in Hnone by lia.
      rewrite Hc in Hnone.
      pose proof (lookup_lt_Some _ _ _ Hc) as Hi.
      destruct (lookup_lt_is_Some_2 teams (2 * length (courtsOf qm')))
        as [t1 Ht1]; [lia|].
      destruct (lookup_lt_is_Some_2 teams (2 * length (courtsOf qm') + 1))
        as [t2 Ht2]; [lia|].
      by rewrite Ht1, Ht2 in Hnone.
  - intros j c' Hc'. rewrite Hcourts in Hc'.
    destruct (courtsOf qm !! j) as [court|]; [|done].
    destruct (teams !! (2 * j)%nat) as [team1|]; [|done].
    destruct (teams !! (2 * j + 1)%nat) as [team2|]; [|done].
    cbn in Hc'. exists court, team1, team2. split_and!; congruence.
Qed.

(** The teams [addTeams] appends: the candidates whose key is neither in
    the queue nor on a court. *)
Lemma addTeams_run teams qm :
  (Forall (λ court, Court.currentMatch court = None) (courtsOf qm)
   ∧ addTeams teams qm = (Throw Error, qm))
  ∨ (Exists (λ court, is_Some (Court.currentMatch court)) (courtsOf qm)
     ∧ addTeams teams qm
       = (Normal tt,
          withQueue
            (λ q, q ++ filter (λ team, getTeamKey team ∉ teamsInPlay qm) teams)
            qm)).
Proof.
  unfold addTeams. unfold_M.
  destruct (existsb _ _) eqn:Hex; cbn [negb].
  - right. split.
    + apply Is_true_true_2, existb_True in Hex.
      eapply Exists_impl; [exact Hex|]. intros c Hc. by apply bool_decide_unpack in Hc.
    + do 4 f_equal. apply list_filter_iff. intros team.
      unfold teamsInPlay. unfold_M. rewrite !elem_of_app. tauto.
  - left. split; [|done].
    apply Forall_forall. intros c Hc.
    destruct (Court.currentMatch c) eqn:Hm; [|done].
    assert (Hyes : Is_true (existsb
      (λ court, bool_decide (is_Some (Court.currentMatch court)))
      (courtsOf qm))).
    { apply existb_True, Exists_exists. exists c. split; [done|].
      apply bool_decide_pack. rewrite Hm. eauto. }
    unfold_M. rewrite Hex in Hyes. done.
Qed.

(** A successful [recordResult] in one shape: the court gets a fresh match
    with the next number, the log one more entry; the streak is either reset
    or updated with the winner staying as first team. *)
Lemma recordResult_run now courtId scoreMap qm :
  (outcome (recordResult now courtId scoreMap) qm ≠ Normal tt
   ∧ after (recordResult now courtId scoreMap) qm = qm)
  ∨ ∃ i court cm s0 s1 team1 team2 streak holder queue',
      validCall qm courtId scoreMap i court cm
      ∧ rankedScores scoreMap = [s0; s1]
      ∧ recordResult now courtId scoreMap qm
        = (Normal tt,
           QueueManager.mk
             (SystemState.mk
                (<[i := Court.mk (Court.id court)
                          (Some (Match.mk team1 team2
                                   (QueueManager.matchCounter qm + 1)
                                   (Some (Court.id court)) None))
                          streak holder]> (courtsOf qm))
                queue'
                (historyOf qm ++ [loggedResult now court cm s0 s1]))
             (QueueManager.matchCounter qm + 1))
      ∧ ((streak = 0 ∧ holder = None)
         ∨ (streak = streakAfter (Score.team s0) court
            ∧ holder = holderAfter (Score.team s0) court
            ∧ team1 = Score.team s0)).
Proof.
  unfold outcome, after.
  destruct (recordResult_cases now courtId scoreMap qm)
    as [[_ Hrun]|[(?&?&_&_& Hrun)|[(?&?&?&_&_&_& Hrun)
       |(i & court & cm & s0 & s1 & Hcall & Hrank & Hrun)]]];
    try (left; by rewrite Hrun).
  right. exists i, court, cm, s0, s1.
  destruct Hrun as [(q0 & q1 & rest & _ & Hq & ->)|[_ ->]].
  - exists q0, q1, 0, None. eexists. split_and!; [done|done|reflexivity|].
    by left.
  - exists (Score.team s0), (default (Score.team s1) (head (queueOf qm))),
      (streakAfter (Score.team s0) court), (holderAfter (Score.team s0) court).
    eexists. split_and!; [done|done|reflexivity|]. by right.
Qed.

(** ** Invariants of a session *)

Lemma new_QueueManager_run numberOfCourts :
  (numberOfCourts < 1 ∧ new_QueueManager numberOfCourts = Throw Error)
  ∨ (1 ≤ numberOfCourts
     ∧ new_QueueManager numberOfCourts
       = Normal (QueueManager.mk
                   (SystemState.mk
                      (newCourt <$> seq 0 (Z.to_nat numberOfCourts)) [] [])
                   0)).
Proof.
  unfold new_QueueManager.
  destruct (Z.ltb_spec numberOfCourts 1); [left|right]; split; (done || lia).
Qed.

(** *** The courts are numbered 1, 2, ..., n *)

Lemma courtIds_initialize teams qm :
  Court.id <$> courtsOf (after (initialize teams) qm) = Court.id <$> courtsOf qm.
Proof.
  unfold after.
  destruct (initialize_run teams qm)
    as [[_ ->]|(_ & courts' & -> & Hlen & Hlook)]; [done|].
  cbn. apply list_eq. intros j. rewrite !list_lookup_fmap.
  destruct (courts' !! j) as [c'|] eqn:Hc'.
  - destruct (Hlook _ _ Hc') as (court & t1 & t2 & -> & _ & _ & ->). done.
  - apply lookup_ge_None in Hc'.
    rewrite (lookup_ge_None_2 (courtsOf qm)) by lia. done.
Qed.

Lemma courtIds_addTeams teams qm :
  Court.id <$> courtsOf (after (addTeams teams) qm) = Court.id <$> courtsOf qm.
Proof.
  unfold after. by destruct (addTeams_run teams qm) as [[_ ->]|[_ ->]].
Qed.

Lemma courtIds_recordResult now courtId scoreMap qm :
  Court.id <$> courtsOf (after (recordResult now courtId scoreMap) qm)
  = Court.id <$> courtsOf qm.
Proof.
  destruct (recordResult_run now courtId scoreMap qm)
    as [[_ ->]|(i & court & cm & s0 & s1 & t1 & t2 & streak & holder & queue'
                & (Hf & _) & _ & Hrun & _)]; [done|].
  unfold after. rewrite Hrun. cbn.
  rewrite list_fmap_insert. apply list_insert_id.
  rewrite list_lookup_fmap, (list_find_lookup _ _ _ _ Hf). done.
Qed.

Lemma reachable_court_ids qm :
  reachable qm →
  ∃ n : nat,
    (1 ≤ n)%nat
    ∧ Court.id <$> courtsOf qm = (λ i, Z.of_nat i + 1) <$> seq 0 n.
Proof.
  induction 1 as [numberOfCourts qm Hnew|teams qm _ IH|teams qm _ IH
                  |now courtId scoreMap qm _ IH].
  - destruct (new_QueueManager_run numberOfCourts) as [[_ Hrun]|[Hn Hrun]];
      rewrite Hrun in Hnew; simplify_eq.
    exists (Z.to_nat numberOfCourts). split; [lia|]. cbn.
    by rewrite <- list_fmap_compose.
  - by rewrite courtIds_initialize.
  - by rewrite courtIds_addTeams.
  - by rewrite courtIds_recordResult.
Qed.

Lemma numbered_lookup courts (n : nat) :
  Court.id <$> courts = (λ i, Z.of_nat i + 1) <$> seq 0 n →
  length courts = n
  ∧ ∀ j court, courts !! j = Some court → Court.id court = Z.of_nat j + 1.
Proof.
  intros Hids. split.
  - apply (f_equal length) in Hids. by rewrite !length_fmap, length_seq in Hids.
  - intros j court Hc.
    assert (Hj : (Court.id <$> courts) !! j = Some (Court.id court))
      by (by rewrite list_lookup_fmap, Hc).
    rewrite Hids, list_lookup_fmap in Hj.
    destruct (seq 0 n !! j) as [j'|] eqn:Hseq; [|done].
    apply lookup_seq in Hseq as [-> _]. cbn in Hj. by simplify_eq.
Qed.

Lemma numbered_find courts (n : nat) courtId :
  Court.id <$> courts = (λ i, Z.of_nat i + 1) <$> seq 0 n →
  (1 ≤ courtId ≤ Z.of_nat n →
   ∃ court, list_find (λ c, Court.id c = courtId) courts
            = Some (Z.to_nat (courtId - 1), court))
  ∧ (¬ (1 ≤ courtId ≤ Z.of_nat n) →
     list_find (λ c, Court.id c = courtId) courts = None).
Proof.
  intros Hids. destruct (numbered_lookup _ _ Hids) as [Hlen Hid]. split.
  - intros Hrange.
    destruct (lookup_lt_is_Some_2 courts (Z.to_nat (courtId - 1)))
      as [court Hc]; [lia|].
    exists court. apply list_find_Some. split_and!; [done| |].
    + rewrite (Hid _ _ Hc). lia.
    + intros j c Hj Hlt. rewrite (Hid _ _ Hj). lia.
  - intros Hout. apply list_find_None, Forall_lookup. intros j c Hj.
    rewrite (Hid _ _ Hj). pose proof (lookup_lt_Some _ _ _ Hj). lia.
Qed.

(** *** Once started, always started *)

Lemma allActive_initialize teams qm :
  outcome (initialize teams) qm = Normal tt →
  allActive (after (initialize teams) qm).
Proof.
  unfold outcome, after.
  destruct (initialize_run teams qm)
    as [[_ ->]|(_ & courts' & -> & Hlen & Hlook)]; [done|].
  intros _. apply Forall_lookup. intros j c' Hc'.
  destruct (Hlook _ _ Hc') as (court & t1 & t2 & _ & _ & _ & ->). cbn. eauto.
Qed.

Lemma allActive_initialize_keep teams qm :
  allActive qm → allActive (after (initialize teams) qm).
Proof.
  intros Hact.
  destruct (initialize_run teams qm) as [[_ Hrun]|(_ & courts' & Hrun & _)].
  - unfold after. by rewrite Hrun.
  - apply allActive_initialize. unfold outcome. by rewrite Hrun.
Qed.

Lemma allActive_addTeams teams qm :
  allActive qm → allActive (after (addTeams teams) qm).
Proof.
  unfold after. by destruct (addTeams_run teams qm) as [[_ ->]|[_ ->]].
Qed.

Lemma allActive_recordResult now courtId scoreMap qm :
  allActive qm → allActive (after (recordResult now courtId scoreMap) qm).
Proof.
  intros Hact.
  destruct (recordResult_run now courtId scoreMap qm)
    as [[_ ->]|(i & court & cm & s0 & s1 & t1 & t2 & streak & holder & queue'
                & _ & _ & Hrun & _)]; [done|].
  unfold after. rewrite Hrun. apply Forall_insert; [done|]. cbn. eauto.
Qed.

Lemma fresh_idle numberOfCourts qm :
  new_QueueManager numberOfCourts = Normal qm →
  Forall (λ court, Court.currentMatch court = None) (courtsOf qm).
Proof.
  intros Hnew.
  destruct (new_QueueManager_run numberOfCourts) as [[_ Hrun]|[Hn Hrun]];
    rewrite Hrun in Hnew; simplify_eq.
  cbn. apply Forall_fmap, Forall_forall. done.
Qed.

Lemma idle_addTeams teams qm :
  Forall (λ court, Court.currentMatch court = None) (courtsOf qm) →
  addTeams teams qm = (Throw Error, qm).
Proof.
  intros Hidle. destruct (addTeams_run teams qm) as [[_ Hrun]|[Hex _]]; [done|].
  apply Exists_exists in Hex as (c & Hc & Hm).
  rewrite Forall_forall in Hidle. rewrite (Hidle _ Hc) in Hm. by destruct Hm.
Qed.

Lemma idle_recordResult now courtId scoreMap qm :
  Forall (λ court, Court.currentMatch court = None) (courtsOf qm) →
  after (recordResult now courtId scoreMap) qm = qm
  ∧ (outcome (recordResult now courtId scoreMap) qm = Throw CourtNotFoundError
     ∨ outcome (recordResult now courtId scoreMap) qm = Throw NoActiveMatchError).
Proof.
  intros Hidle. unfold outcome, after.
  destruct (recordResult_cases now courtId scoreMap qm)
    as [[_ Hrun]|[(?&?&_&_& Hrun)|[(i & court & cm & Hf & Hm & _)
       |(i & court & cm & s0 & s1 & (Hf & Hm & _) & _)]]];
    try (rewrite Hrun; cbn; by auto).
  - apply list_find_lookup in Hf. rewrite Forall_lookup in Hidle.
    rewrite (Hidle _ _ Hf) in Hm. done.
  - apply list_find_lookup in Hf. rewrite Forall_lookup in Hidle.
    rewrite (Hidle _ _ Hf) in Hm. done.
Qed.

Lemma reachable_fresh_or_active qm :
  reachable qm →
  (∃ numberOfCourts, new_QueueManager numberOfCourts = Normal qm)
  ∨ allActive qm.
Proof.
  induction 1 as [numberOfCourts qm Hnew|teams qm _ IH|teams qm _ IH
                  |now courtId scoreMap qm _ IH].
  - left. eauto.
  - destruct IH as [Hfresh|Hact]; [|right; by apply allActive_initialize_keep].
    destruct (initialize_run teams qm) as [[_ Hrun]|(_ & courts' & Hrun & _)].
    + left. unfold after. by rewrite Hrun.
    + right. apply allActive_initialize. unfold outcome. by rewrite Hrun.
  - destruct IH as [[n Hfresh]|Hact]; [|right; by apply allActive_addTeams].
    left. exists n. unfold after.
    by rewrite (idle_addTeams _ _ (fresh_idle _ _ Hfresh)).
  - destruct IH as [[n Hfresh]|Hact]; [|right; by apply allActive_recordResult].
    left. exists n.
    by rewrite (proj1 (idle_recordResult _ _ _ _ (fresh_idle _ _ Hfresh))).
Qed.

(** *** The streak-holder is on the court *)

Lemma streakOk_initialize teams qm :
  Forall streakOk (courtsOf qm) →
  Forall streakOk (courtsOf (after (initialize teams) qm)).
Proof.
  intros Hok. unfold after.
  destruct (initialize_run teams qm)
    as [[_ ->]|(_ & courts' & -> & Hlen & Hlook)]; [done|].
  apply Forall_lookup. intros j c' Hc'.
  destruct (Hlook _ _ Hc') as (court & t1 & t2 & _ & _ & _ & ->). done.
Qed.

Lemma streakOk_addTeams teams qm :
  Forall streakOk (courtsOf qm) →
  Forall streakOk (courtsOf (after (addTeams teams) qm)).
Proof.
  unfold after. by destruct (addTeams_run teams qm) as [[_ ->]|[_ ->]].
Qed.

Lemma streakOk_recordResult now courtId scoreMap qm :
  Forall streakOk (courtsOf qm) →
  Forall streakOk (courtsOf (after (recordResult now courtId scoreMap) qm)).
Proof.
  intros Hok.
  destruct (recordResult_run now courtId scoreMap qm)
    as [[_ ->]|(i & court & cm & s0 & s1 & t1 & t2 & streak & holder & queue'
                & (Hf & _) & _ & Hrun & Hstreak)]; [done|].
  unfold after. rewrite Hrun. apply Forall_insert; [done|].
  destruct Hstreak as [[-> ->]|(-> & -> & ->)]; [done|].
  apply list_find_lookup in Hf.
  pose proof (proj1 (Forall_lookup _ _) Hok _ _ Hf) as Hcourt.
  unfold streakOk, streakAfter, holderAfter, isStreakHolder in *. cbn.
  destruct (Court.currentCourtTeam court) as [h|] eqn:Hh.
  - destruct (areTeamsEqual (Score.team s0) h) eqn:Heq; cbn.
    + split; [lia|]. eexists. split; [done|]. cbn.
      by rewrite areTeamsEqual_sym.
    + split; [lia|]. eexists. split; [done|]. apply areTeamsEqual_refl.
  - cbn. split; [lia|]. eexists. split; [done|]. apply areTeamsEqual_refl.
Qed.

Lemma reachable_streakOk qm : reachable qm → Forall streakOk (courtsOf qm).
Proof.
  induction 1 as [numberOfCourts qm Hnew|teams qm _ IH|teams qm _ IH
                  |now courtId scoreMap qm _ IH].
  - destruct (new_QueueManager_run numberOfCourts) as [[_ Hrun]|[Hn Hrun]];
      rewrite Hrun in Hnew; simplify_eq.
    cbn. apply Forall_fmap, Forall_forall. done.
  - by apply streakOk_initialize.
  - by apply streakOk_addTeams.
  - by apply streakOk_recordResult.
Qed.

(** *** Match numbers are never reused *)

Lemma bind_insert_perm {A B} (f : A → list B) l i x y :
  l !! i = Some x →
  (<[i := y]> l ≫= f) ++ f x ≡ₚ (l ≫= f) ++ f y.
Proof.
  intros Hi. rewrite insert_take_drop by (by eapply lookup_lt_Some).
  rewrite <- (take_drop_middle l i x Hi) at 3.
  rewrite !bind_app, !bind_cons. solve_Permutation.
Qed.

Lemma courtNumbers_indexed courts : ∀ base,
  (∀ j court, courts !! j = Some court →
              courtNumbers court = [base + Z.of_nat j + 1]) →
  courts ≫= courtNumbers
  = (λ j, base + Z.of_nat j + 1) <$> seq 0 (length courts).
Proof.
  induction courts as [|c courts IH]; intros base Hnum; [done|].
  rewrite bind_cons, (Hnum 0%nat c eq_refl), (IH (base + 1)).
  - cbn [length seq fmap list_fmap app]. f_equal.
    rewrite <- fmap_S_seq, <- list_fmap_compose.
    apply list_fmap_ext. intros _ j _. cbn. lia.
  - intros j court Hj. rewrite (Hnum (S j) court Hj). f_equal. lia.
Qed.

Lemma newCourt_numbers (l : list nat) : (newCourt <$> l) ≫= courtNumbers = [].
Proof.
  induction l as [|j l IH]; [done|]. rewrite fmap_cons, bind_cons. by rewrite IH.
Qed.

Lemma matchNumbers_initialize teams qm :
  0 ≤ QueueManager.matchCounter qm →
  outcome (initialize teams) qm = Normal tt →
  matchNumbers (after (initialize teams) qm)
  = (λ j, QueueManager.matchCounter qm + Z.of_nat j + 1)
      <$> seq 0 (length (courtsOf qm))
  ∧ QueueManager.matchCounter (after (initialize teams) qm)
    = QueueManager.matchCounter qm + Z.of_nat (length (courtsOf qm)).
Proof.
  unfold outcome, after. intros Hpos.
  destruct (initialize_run teams qm)
    as [[_ ->]|(_ & courts' & -> & Hlen & Hlook)]; [done|].
  intros _. split; [|done]. unfold matchNumbers. cbn. rewrite <- Hlen.
  apply courtNumbers_indexed. intros j c' Hc'.
  destruct (Hlook _ _ Hc') as (court & t1 & t2 & _ & _ & _ & ->). done.
Qed.

Lemma matchNumbers_recordResult now courtId scoreMap qm :
  outcome (recordResult now courtId scoreMap) qm = Normal tt →
  matchNumbers (after (recordResult now courtId scoreMap) qm)
  ≡ₚ (QueueManager.matchCounter qm + 1) :: matchNumbers qm
  ∧ QueueManager.matchCounter (after (recordResult now courtId scoreMap) qm)
    = QueueManager.matchCounter qm + 1.
Proof.
  destruct (recordResult_run now courtId scoreMap qm)
    as [[Hfail _]|(i & court & cm & s0 & s1 & t1 & t2 & streak & holder & queue'
                & (Hf & Hm & _) & _ & Hrun & _)]; [done|].
  intros _. unfold after. rewrite Hrun. split; [|done].
  unfold matchNumbers. cbn.
  apply list_find_lookup in Hf.
  pose proof (bind_insert_perm courtNumbers (courtsOf qm) i court
    (Court.mk (Court.id court)
       (Some (Match.mk t1 t2 (QueueManager.matchCounter qm + 1)
                (Some (Court.id court)) None)) streak holder) Hf) as Hins.
  unfold courtNumbers at 2 3 in Hins. rewrite Hm in Hins. cbn in Hins.
  rewrite fmap_app. cbn.
  set (X := <[i:=_]> (courtsOf qm) ≫= courtNumbers) in *.
  set (H := (λ r, Match.matchNumber (MatchResult.match_ r)) <$> historyOf qm).
  trans (H ++ (X ++ [Match.matchNumber cm])); [solve_Permutation|].
  rewrite Hins. solve_Permutation.
Qed.

Lemma reachable_matchNumbers qm :
  reachable qm →
  0 ≤ QueueManager.matchCounter qm
  ∧ NoDup (matchNumbers qm)
  ∧ Forall (λ n, 1 ≤ n ≤ QueueManager.matchCounter qm) (matchNumbers qm).
Proof.
  induction 1 as [numberOfCourts qm Hnew|teams qm _ IH|teams qm _ IH
                  |now courtId scoreMap qm _ IH].
  - destruct (new_QueueManager_run numberOfCourts) as [[_ Hrun]|[Hn Hrun]];
      rewrite Hrun in Hnew; simplify_eq.
    assert (Hnone : matchNumbers
      (QueueManager.mk
         (SystemState.mk (newCourt <$> seq 0 (Z.to_nat numberOfCourts)) [] [])
         0) = []).
    { unfold matchNumbers, historyOf, courtsOf.
      cbn [QueueManager.state SystemState.courts SystemState.matchHistory
           fmap list_fmap app].
      apply newCourt_numbers. }
    rewrite Hnone. split_and!; [done|apply NoDup_nil_2|done].
  - destruct IH as (Hpos & Hnd & Hrange).
    destruct (outcome (initialize teams) qm) as [[]|e] eqn:Hout.
    + destruct (matchNumbers_initialize teams qm Hpos Hout) as [-> ->].
      split_and!; [lia| |].
      * apply NoDup_fmap_2; [|apply NoDup_seq]. intros j k. lia.
      * apply Forall_fmap, Forall_forall. intros j [_ Hj]%elem_of_seq. cbn. lia.
    + unfold outcome, after in *.
      destruct (initialize_run teams qm) as [[_ Hrun]|(_ & courts' & Hrun & _)];
        rewrite Hrun in *; [done|discriminate].
  - unfold after. by destruct (addTeams_run teams qm) as [[_ ->]|[_ ->]].
  - destruct IH as (Hpos & Hnd & Hrange).
    destruct (outcome (recordResult now courtId scoreMap) qm) as [[]|e] eqn:Hout.
    + destruct (matchNumbers_recordResult now courtId scoreMap qm Hout)
        as [Hperm ->].
      rewrite Hperm. split_and!; [lia| |].
      * apply NoDup_cons. split; [|done]. intros Hin.
        rewrite Forall_forall in Hrange. apply Hrange in Hin. lia.
      * apply Forall_cons. split; [lia|].
        eapply Forall_impl; [done|]. intros n ?. cbn in *. lia.
    + destruct (recordResult_run now courtId scoreMap qm)
        as [[_ ->]|(i & court & cm & s0 & s1 & t1 & t2 & streak & holder
                    & queue' & _ & _ & Hrun & _)]; [done|].
      unfold outcome in Hout. rewrite Hrun in Hout. discriminate.
Qed.

(** The four-team session is one of them. *)
Lemma scenario_reachable : reachable Scenario.afterSecond.
Proof.
  apply reachable_recordResult, reachable_recordResult, reachable_initialize,
    (reachable_new 1).
  reflexivity.
Defined.

(** X4. A manager built for n >= 1 courts has not started: [addTeams]
    throws the plain [Error], [recordResult] throws [NoActiveMatchError] for
    the court ids 1..n and [CourtNotFoundError] for every other id, both
    leaving the manager as it was, and [initialize] succeeds exactly when it
    is given at least 2n teams.  The constructor itself throws exactly for
    fewer than one court. *)
Theorem fresh_manager_not_started numberOfCourts qm :
  new_QueueManager numberOfCourts = Normal qm →
  1 ≤ numberOfCourts
  ∧ (∀ teams, addTeams teams qm = (Throw Error, qm))
  ∧ (∀ now courtId scoreMap,
       recordResult now courtId scoreMap qm
       = (Throw (if bool_decide (1 ≤ courtId ≤ numberOfCourts)
                 then NoActiveMatchError else CourtNotFoundError), qm))
  ∧ (∀ teams, outcome (initialize teams) qm = Normal tt
              ↔ 2 * numberOfCourts ≤ Z.of_nat (length teams))
  ∧ (∀ k, new_QueueManager k = Throw Error ↔ k < 1).
Proof.
  intros Hnew. pose proof (fresh_idle _ _ Hnew) as Hidle.
  assert (Hreach : reachable qm) by (by eapply reachable_new).
  destruct (new_QueueManager_run numberOfCourts) as [[_ Hrun]|[Hn Hrun]];
    rewrite Hrun in Hnew; [done|]. injection Hnew as Hqm.
  assert (Hids : Court.id <$> courtsOf qm
                 = (λ i, Z.of_nat i + 1) <$> seq 0 (Z.to_nat numberOfCourts)).
  { rewrite <- Hqm. cbn. by rewrite <- list_fmap_compose. }
  split_and!.
  - done.
  - intros teams. by apply idle_addTeams.
  - intros now courtId scoreMap.
    destruct (numbered_find _ _ courtId Hids) as [Hin Hout].
    case_bool_decide as Hrange.
    + destruct Hin as [court Hf]; [lia|].
      eapply recordResult_no_match; [done|].
      rewrite Forall_lookup in Hidle. eapply Hidle.
      by eapply list_find_lookup.
    + apply recordResult_not_found, Hout. lia.
  - intros teams. unfold outcome.
    assert (Hlen : length (courtsOf qm) = Z.to_nat numberOfCourts)
      by (rewrite <- Hqm; cbn; by rewrite length_fmap, length_seq).
    destruct (initialize_run teams qm) as [[Hshort ->]|(Hok & courts' & -> & _)];
      cbn; split; (done || lia).
  - intros k. destruct (new_QueueManager_run k) as [[? ->]|[? ->]];
      split; (done || lia).
Qed.

Lemma fresh_manager_not_started_witness :
  new_QueueManager 1 = Normal Scenario.fresh
  ∧ addTeams [Scenario.teamE] Scenario.fresh = (Throw Error, Scenario.fresh)
  ∧ recordResult 0 1 (Js.obj_literal [(15, Scenario.teamA); (12, Scenario.teamB)])
      Scenario.fresh
    = (Throw NoActiveMatchError, Scenario.fresh)
  ∧ recordResult 0 2 (Js.obj_literal [(15, Scenario.teamA); (12, Scenario.teamB)])
      Scenario.fresh
    = (Throw CourtNotFoundError, Scenario.fresh).
Proof.
  split; [reflexivity|].
  destruct (fresh_manager_not_started 1 Scenario.fresh)
    as (_ & Hadd & Hrec & _); [reflexivity|].
  split; [apply Hadd|]. split; [exact (Hrec 0 1 _)|exact (Hrec 0 2 _)].
Defined.

(** X5. In every session the courts are numbered 1, 2, ..., n for a fixed
    n >= 1: no method adds, removes or renumbers a court, so [recordResult]
    throws [CourtNotFoundError] exactly for the ids outside 1..n. *)
Theorem courts_are_numbered qm :
  reachable qm →
  ∃ n : nat,
    (1 ≤ n)%nat
    ∧ Court.id <$> courtsOf qm = (λ i, Z.of_nat i + 1) <$> seq 0 n
    ∧ ∀ now courtId scoreMap,
        outcome (recordResult now courtId scoreMap) qm = Throw CourtNotFoundError
        ↔ ¬ (1 ≤ courtId ≤ Z.of_nat n).
Proof.
  intros Hreach. destruct (reachable_court_ids qm Hreach) as (n & Hn & Hids).
  exists n. split_and!; [done..|].
  intros now courtId scoreMap.
  destruct (numbered_find _ _ courtId Hids) as [Hin Hout].
  unfold outcome. split.
  - intros Hthrow Hrange. destruct (Hin Hrange) as [court Hf].
    destruct (recordResult_cases now courtId scoreMap qm)
      as [[Hnone _]|[(?&?&_&_& Hrun)|[(?&?&?&_&_&_& Hrun)
         |(?&?&?&?&?&_&_& [(?&?&?&_&_& Hrun)|[_ Hrun]])]]];
      rewrite ?Hrun in Hthrow; cbn in Hthrow; congruence.
  - intros Hrange. by rewrite (recordResult_not_found _ _ _ _ (Hout Hrange)).
Qed.

Lemma courts_are_numbered_witness :
  Court.id <$> courtsOf Scenario.afterSecond = [1]
  ∧ ∃ n : nat,
      (1 ≤ n)%nat
      ∧ Court.id <$> courtsOf Scenario.afterSecond
        = (λ i, Z.of_nat i + 1) <$> seq 0 n
      ∧ ∀ now courtId scoreMap,
          outcome (recordResult now courtId scoreMap) Scenario.afterSecond
          = Throw CourtNotFoundError
          ↔ ¬ (1 ≤ courtId ≤ Z.of_nat n).
Proof.
  split; [reflexivity|].
  exact (courts_are_numbered Scenario.afterSecond scenario_reachable).
Defined.

(** X6. Once [initialize] has succeeded, every court has a match in
    progress for the rest of the session: a manager is either still as the
    constructor built it, or every court is active, [addTeams] returns
    normally and [recordResult] never throws [NoActiveMatchError]. *)
Theorem started_session_stays_started qm :
  reachable qm →
  (∃ numberOfCourts, new_QueueManager numberOfCourts = Normal qm)
  ∨ (allActive qm
     ∧ (∀ teams, outcome (addTeams teams) qm = Normal tt)
     ∧ (∀ now courtId scoreMap,
          outcome (recordResult now courtId scoreMap) qm
          ≠ Throw NoActiveMatchError)).
Proof.
  intros Hreach.
  destruct (reachable_fresh_or_active qm Hreach) as [Hfresh|Hact]; [by left|].
  right. split_and!; [done| |].
  - intros teams. unfold outcome.
    destruct (addTeams_run teams qm) as [[Hidle _]|[_ ->]]; [|done].
    destruct (reachable_court_ids qm Hreach) as (n & Hn & Hids).
    destruct (numbered_lookup _ _ Hids) as [Hlen _].
    unfold allActive in Hact.
    destruct (courtsOf qm) as [|c courts]; [cbn in Hlen; lia|].
    apply Forall_cons in Hidle as [Hnone _].
    apply Forall_cons in Hact as [[m Hsome] _]. congruence.
  - intros now courtId scoreMap. unfold outcome.
    destruct (recordResult_cases now courtId scoreMap qm)
      as [[_ Hrun]|[(i & court & Hf & Hm & _)|[(?&?&?&_&_&_& Hrun)
         |(?&?&?&?&?&_&_& [(?&?&?&_&_& Hrun)|[_ Hrun]])]]];
      rewrite ?Hrun; try done.
    apply list_find_lookup in Hf.
    destruct (proj1 (Forall_lookup _ _) Hact _ _ Hf) as [m Hsome]. congruence.
Qed.

Lemma started_session_stays_started_witness :
  outcome (addTeams [Scenario.teamE]) Scenario.afterSecond = Normal tt
  ∧ ((∃ numberOfCourts,
        new_QueueManager numberOfCourts = Normal Scenario.afterSecond)
     ∨ (allActive Scenario.afterSecond
        ∧ (∀ teams, outcome (addTeams teams) Scenario.afterSecond = Normal tt)
        ∧ (∀ now courtId scoreMap,
             outcome (recordResult now courtId scoreMap) Scenario.afterSecond
             ≠ Throw NoActiveMatchError))).
Proof.
  split; [reflexivity|].
  exact (started_session_stays_started Scenario.afterSecond scenario_reachable).
Defined.

(** X7. In every session each court's streak fields agree with its match:
    either there is no streak-holder and the counter is 0, or there is one,
    the counter is at least 1 and the holder is the first team of the match
    in progress on that court. *)
Theorem streak_holder_is_on_court qm :
  reachable qm →
  ∀ court, court ∈ courtsOf qm →
    match Court.currentCourtTeam court with
    | None => Court.consecutiveWins court = 0
    | Some holder =>
        1 ≤ Court.consecutiveWins court
        ∧ ∃ m, Court.currentMatch court = Some m
               ∧ areTeamsEqual holder (Match.team1 m) = true
    end.
Proof.
  intros Hreach court Hin.
  pose proof (reachable_streakOk qm Hreach) as Hok.
  rewrite Forall_forall in Hok. by apply Hok.
Qed.

Lemma streak_holder_is_on_court_witness :
  courtsOf Scenario.afterFirst
  = [Court.mk 1 (Some (Match.mk Scenario.teamA Scenario.teamC 2 (Some 1) None))
       1 (Some Scenario.teamA)]
  ∧ ∀ court, court ∈ courtsOf Scenario.afterSecond →
      match Court.currentCourtTeam court with
      | None => Court.consecutiveWins court = 0
      | Some holder =>
          1 ≤ Court.consecutiveWins court
          ∧ ∃ m, Court.currentMatch court = Some m
                 ∧ areTeamsEqual holder (Match.team1 m) = true
      end.
Proof.
  split; [reflexivity|].
  exact (streak_holder_is_on_court Scenario.afterSecond scenario_reachable).
Defined.

(** X8. Match numbers are never reused: in every session the numbers of the
    logged matches and of the matches in progress are pairwise distinct and
    lie between 1 and the match counter. *)
Theorem match_numbers_are_unique qm :
  reachable qm →
  NoDup (matchNumbers qm)
  ∧ Forall (λ n, 1 ≤ n ≤ QueueManager.matchCounter qm) (matchNumbers qm).
Proof. intros Hreach. by destruct (reachable_matchNumbers qm Hreach) as (_ & ? & ?). Qed.

Lemma match_numbers_are_unique_witness :
  matchNumbers Scenario.afterSecond = [1; 2; 3]
  ∧ NoDup (matchNumbers Scenario.afterSecond)
  ∧ Forall (λ n, 1 ≤ n ≤ QueueManager.matchCounter Scenario.afterSecond)
      (matchNumbers Scenario.afterSecond).
Proof.
  split; [reflexivity|].
  exact (match_numbers_are_unique Scenario.afterSecond scenario_reachable).
Defined.

(** ** Adding teams to a running session *)

Lemma filter_none {A} (P : A → Prop) `{∀ x, Decision (P x)} (l : list A) :
  (∀ x, x ∈ l → ¬ P x) → filter P l = [].
Proof.
  induction l as [|x l IH]; intros Hno; [done|].
  rewrite filter_cons, decide_False by (apply Hno, list_elem_of_here).
  apply IH. intros y Hy. by apply Hno, list_elem_of_further.
Qed.

Lemma addTeams_outcomes teams qm :
  (outcome (addTeams teams) qm = Throw Error
   ∧ after (addTeams teams) qm = qm
   ∧ Forall (λ court, Court.currentMatch court = None) (courtsOf qm))
  ∨ (outcome (addTeams teams) qm = Normal tt
     ∧ after (addTeams teams) qm
       = withQueue
           (λ q, q ++ filter (λ team, getTeamKey team ∉ teamsInPlay qm) teams)
           qm
     ∧ Exists (λ court, is_Some (Court.currentMatch court)) (courtsOf qm)).
Proof.
  unfold outcome, after.
  destruct (addTeams_run teams qm) as [[? ->]|[? ->]]; [left|right]; done.
Qed.

Lemma elem_of_courtKeys k courts :
  k ∈ courts ≫= courtKeys
  ↔ ∃ court m, court ∈ courts ∧ Court.currentMatch court = Some m
               ∧ (k = getTeamKey (Match.team1 m)
                  ∨ k = getTeamKey (Match.team2 m)).
Proof.
  rewrite list_elem_of_bind. unfold courtKeys. split.
  - intros (court & Hk & Hc). destruct (Court.currentMatch court) as [m|] eqn:Hm.
    + exists court, m. split_and!; [done..|].
      apply elem_of_cons in Hk as [?|Hk]; [by left|right].
      by apply list_elem_of_singleton in Hk.
    + by apply elem_of_nil in Hk.
  - intros (court & m & Hc & Hm & Hk). exists court. rewrite Hm.
    split; [|done].
    destruct Hk as [-> | ->];
      [apply list_elem_of_here|apply list_elem_of_further, list_elem_of_here].
Qed.

Lemma not_in_play t qm :
  getTeamKey t ∉ teamsInPlay qm
  ↔ (∀ u, u ∈ queueOf qm → areTeamsEqual t u = false)
    ∧ (∀ court m, court ∈ courtsOf qm → Court.currentMatch court = Some m →
         areTeamsEqual t (Match.team1 m) = false
         ∧ areTeamsEqual t (Match.team2 m) = false).
Proof.
  unfold teamsInPlay. rewrite not_elem_of_app, elem_of_courtKeys.
  rewrite list_elem_of_fmap.
  assert (Hne : ∀ u, areTeamsEqual t u = false ↔ getTeamKey t ≠ getTeamKey u).
  { intros u. rewrite getTeamKey_areTeamsEqual. by destruct (areTeamsEqual t u). }
  setoid_rewrite Hne. split.
  - intros [Hcourt Hqueue]. split.
    + intros u Hu Heq. apply Hqueue. eauto.
    + intros court m Hc Hm. split; intros Heq; apply Hcourt;
        exists court, m; auto.
  - intros [Hqueue Hcourt]. split.
    + intros (court & m & Hc & Hm & [Heq|Heq]);
        destruct (Hcourt court m Hc Hm); done.
    + intros (u & Heq & Hu). by apply (Hqueue u Hu).
Qed.

Lemma teamsInPlay_withQueue_app added qm :
  teamsInPlay (withQueue (λ q, q ++ added) qm)
  = teamsInPlay qm ++ (getTeamKey <$> added).
Proof. unfold teamsInPlay. cbn. by rewrite fmap_app, app_assoc. Qed.

(** X9. [addTeams] throws the plain [Error] exactly when no court has a
    match, and then changes nothing; otherwise it returns and only the queue
    changes: it keeps its teams in place and gets, at its end and in input
    order, exactly the candidates that equal no team in the queue or on a
    court. *)
Theorem addTeams_appends_new_teams teams qm :
  (outcome (addTeams teams) qm = Throw Error
   ↔ Forall (λ court, Court.currentMatch court = None) (courtsOf qm))
  ∧ (outcome (addTeams teams) qm = Throw Error
     ∨ outcome (addTeams teams) qm = Normal tt)
  ∧ (outcome (addTeams teams) qm = Throw Error →
     after (addTeams teams) qm = qm)
  ∧ (outcome (addTeams teams) qm = Normal tt →
     ∃ added,
       after (addTeams teams) qm = withQueue (λ q, q ++ added) qm
       ∧ added `sublist_of` teams
       ∧ ∀ t, t ∈ added
              ↔ t ∈ teams
                ∧ (∀ u, u ∈ queueOf qm → areTeamsEqual t u = false)
                ∧ (∀ court m,
                     court ∈ courtsOf qm → Court.currentMatch court = Some m →
                     areTeamsEqual t (Match.team1 m) = false
                     ∧ areTeamsEqual t (Match.team2 m) = false)).
Proof.
  destruct (addTeams_outcomes teams qm)
    as [(Hout & Hafter & Hidle)|(Hout & Hafter & Hex)]; rewrite Hout.
  - split_and!; [done|by left|done|done].
  - split_and!; [|by right|done|].
    + split; [done|]. intros Hidle.
      apply Exists_exists in Hex as (c & Hc & Hm).
      rewrite Forall_forall in Hidle. rewrite (Hidle _ Hc) in Hm.
      by destruct Hm.
    + intros _. eexists. split; [exact Hafter|]. split; [apply sublist_filter|].
      intros t. rewrite list_elem_of_filter, not_in_play. tauto.
Qed.

Lemma addTeams_appends_new_teams_witness :
  outcome (addTeams [Scenario.teamA; Scenario.teamE]) Scenario.started
  = Normal tt
  ∧ queueOf (after (addTeams [Scenario.teamA; Scenario.teamE]) Scenario.started)
    = [Scenario.teamC; Scenario.teamD; Scenario.teamE]
  ∧ ∃ added,
      after (addTeams [Scenario.teamA; Scenario.teamE]) Scenario.started
      = withQueue (λ q, q ++ added) Scenario.started
      ∧ added `sublist_of` [Scenario.teamA; Scenario.teamE].
Proof.
  split; [reflexivity|]. split; [reflexivity|].
  destruct (proj2 (proj2 (proj2
    (addTeams_appends_new_teams [Scenario.teamA; Scenario.teamE]
       Scenario.started)))) as (added & Hafter & Hsub & _); [reflexivity|].
  exists added. split; [exact Hafter|exact Hsub].
Defined.

(** X10. [addTeams] is idempotent: calling it again with the same teams
    ends the same way and leaves the manager as the first call left it. *)
Theorem addTeams_twice teams qm :
  addTeams teams (after (addTeams teams) qm)
  = (outcome (addTeams teams) qm, after (addTeams teams) qm).
Proof.
  destruct (addTeams_outcomes teams qm)
    as [(Hout & Hafter & Hidle)|(Hout & Hafter & Hex)]; rewrite Hout, Hafter.
  - by apply idle_addTeams.
  - set (added := filter (λ team, getTeamKey team ∉ teamsInPlay qm) teams).
    destruct (addTeams_run teams (withQueue (λ q, q ++ added) qm))
      as [[Hidle _]|[_ ->]].
    { apply Exists_exists in Hex as (c & Hc & Hm).
      rewrite Forall_forall in Hidle. rewrite (Hidle _ Hc) in Hm.
      by destruct Hm. }
    f_equal. rewrite filter_none.
    + destruct qm as [[courts queue history] counter]. unfold withQueue. cbn.
      by rewrite app_nil_r.
    + intros t Ht Hnew. apply Hnew.
      rewrite teamsInPlay_withQueue_app, elem_of_app.
      destruct (decide (getTeamKey t ∈ teamsInPlay qm)) as [?|Hfresh];
        [by left|right].
      apply list_elem_of_fmap. exists t. split; [done|].
      subst added. by apply list_elem_of_filter.
Qed.


Lemma NoDup_addTeams teams qm :
  NoDup (teamsInPlay qm) →
  NoDup (getTeamKey <$> teams) →
  NoDup (teamsInPlay (after (addTeams teams) qm)).
Proof.
  intros Hplay Hteams.
  destruct (addTeams_outcomes teams qm)
    as [(_ & -> & _)|(_ & -> & _)]; [done|].
  rewrite teamsInPlay_withQueue_app. apply NoDup_app. split_and!; [done| |].
  - intros k Hk (t & -> & Ht)%list_elem_of_fmap.
    by apply list_elem_of_filter in Ht as [Hnew _].
  - eapply sublist_NoDup; [exact Hteams|].
    apply fmap_sublist, sublist_filter.
Qed.

(** X11. [addTeams] keeps the team identities in play free of duplicates
    when the teams it is given are pairwise distinct. *)
Theorem addTeams_keeps_teams_distinct teams qm :
  NoDup (teamsInPlay qm) →
  NoDup (getTeamKey <$> teams) →
  NoDup (teamsInPlay (after (addTeams teams) qm)).
Proof. apply NoDup_addTeams. Qed.

Lemma addTeams_keeps_teams_distinct_witness :
  teamsInPlay Scenario.started = ["1-2"; "3-4"; "5-6"; "7-8"]%string
  ∧ NoDup (teamsInPlay (after (addTeams [Scenario.teamE; Scenario.teamA])
                          Scenario.started)).
Proof.
  split; [reflexivity|].
  apply (addTeams_keeps_teams_distinct [Scenario.teamE; Scenario.teamA]
           Scenario.started);
    apply (bool_decide_unpack _); vm_compute; exact I.
Defined.



(** ** Reading the state *)

(** The read accessors hand out the stored courts, queue and log as they
    are. *)
Lemma getCurrentState_state qm :
  getCurrentState qm = QueueManager.state qm
  ∧ getCourts qm = courtsOf qm
  ∧ getMatchHistory qm = historyOf qm.
Proof.
  assert (Hid : ∀ courts : list Court.t,
    (λ court, Court.mk (Court.id court) (Court.currentMatch court)
                (Court.consecutiveWins court) (Court.currentCourtTeam court))
      <$> courts = courts).
  { induction courts as [|c courts IH]; [done|].
    rewrite fmap_cons, IH. by destruct c. }
  destruct qm as [[courts queue history] counter].
  unfold getCurrentState, getCourts, getMatchHistory. cbn.
  by rewrite Hid.
Qed.

(** *** The match of a court *)

Lemma list_find_insert_congr {A} (P : A → Prop) `{∀ x, Decision (P x)}
    (l : list A) : ∀ i x y,
  l !! i = Some x → (P x ↔ P y) →
  list_find P (<[i := y]> l)
  = (λ jz, (jz.1, if decide (jz.1 = i) then y else jz.2)) <$> list_find P l.
Proof.
  induction l as [|a l IH]; intros [|i] x y Hi HP; simplify_eq/=.
  - destruct (decide (P y)) as [Hy|Hy].
    + rewrite decide_True by tauto. done.
    + rewrite decide_False by tauto.
      destruct (list_find P l) as [[j z]|]; done.
  - case_decide; [done|]. rewrite (IH i x y Hi HP).
    destruct (list_find P l) as [[j z]|]; [|done]. cbn.
    destruct (decide (j = i)) as [->|Hne].
    + by rewrite decide_True.
    + by rewrite decide_False by lia.
Qed.

(** X16. [getCourtMatch] returns null exactly when [recordResult] on that
    court would throw [CourtNotFoundError] or [NoActiveMatchError].  A call
    of [recordResult] leaves every court with another id, and so the match
    [getCourtMatch] reports for it, as it was; when it succeeds the court
    holds a fresh match: numbered by the incremented match counter, tagged
    with the court id, without running scores. *)
Theorem getCourtMatch_recordResult now courtId scoreMap qm :
  (getCourtMatch courtId qm = None
   ↔ outcome (recordResult now courtId scoreMap) qm = Throw CourtNotFoundError
     ∨ outcome (recordResult now courtId scoreMap) qm = Throw NoActiveMatchError)
  ∧ (∀ j court, courtsOf qm !! j = Some court → Court.id court ≠ courtId →
       courtsOf (after (recordResult now courtId scoreMap) qm) !! j
       = Some court)
  ∧ (∀ other, other ≠ courtId →
       getCourtMatch other (after (recordResult now courtId scoreMap) qm)
       = getCourtMatch other qm)
  ∧ (outcome (recordResult now courtId scoreMap) qm = Normal tt →
     ∃ m, getCourtMatch courtId (after (recordResult now courtId scoreMap) qm)
          = Some m
          ∧ Match.matchNumber m = QueueManager.matchCounter qm + 1
          ∧ QueueManager.matchCounter
              (after (recordResult now courtId scoreMap) qm)
            = QueueManager.matchCounter qm + 1
          ∧ Match.courtId m = Some courtId
          ∧ Match.currentScores m = None).
Proof.
  split_and!.
  - unfold getCourtMatch, outcome.
    destruct (recordResult_cases now courtId scoreMap qm)
      as [[Hf Hrun]|[(i & court & Hf & Hm & Hrun)
         |[(i & court & cm & Hf & Hm & _ & Hrun)
         |(i & court & cm & s0 & s1 & (Hf & Hm & _) & _ & Hrun)]]].
    + rewrite Hf, Hrun. cbn. split; auto.
    + rewrite Hf, Hm, Hrun. cbn. split; auto.
    + rewrite Hf, Hm, Hrun. cbn. split; [done|]. by intros [?|?].
    + rewrite Hf, Hm.
      assert (Hok : (recordResult now courtId scoreMap qm).1 = Normal tt)
        by (destruct Hrun as [(?&?&?&_&_& ->)|[_ ->]]; done).
      rewrite Hok. split; [done|]. by intros [?|?].
  - intros j court' Hj Hid'.
    destruct (recordResult_run now courtId scoreMap qm)
      as [[_ ->]|(i & court & cm & s0 & s1 & t1 & t2 & streak & holder & queue'
                  & (Hf & _) & _ & Hrun & _)]; [done|].
    unfold after. rewrite Hrun. cbn.
    pose proof Hf as (Hi & Hid & _)%list_find_Some.
    rewrite list_lookup_insert_ne; [done|]. intros <-. congruence.
  - intros other Hother.
    destruct (recordResult_run now courtId scoreMap qm)
      as [[_ ->]|(i & court & cm & s0 & s1 & t1 & t2 & streak & holder & queue'
                  & (Hf & _) & _ & Hrun & _)]; [done|].
    unfold after, getCourtMatch. rewrite Hrun. cbn.
    pose proof Hf as (Hi & Hid & _)%list_find_Some.
    rewrite (list_find_insert_congr _ _ i court) by (cbn; done).
    destruct (list_find (λ c, Court.id c = other) (courtsOf qm))
      as [[j c]|] eqn:Hfo; [|done]. cbn.
    destruct (decide (j = i)) as [->|Hne]; [|done].
    apply list_find_Some in Hfo as (Hj & Hjid & _). congruence.
  - intros Hout.
    destruct (recordResult_run now courtId scoreMap qm)
      as [[Hfail _]|(i & court & cm & s0 & s1 & t1 & t2 & streak & holder
                     & queue' & (Hf & _) & _ & Hrun & _)]; [done|].
    unfold after, getCourtMatch. rewrite Hrun. cbn.
    pose proof Hf as (Hi & Hid & _)%list_find_Some.
    rewrite (list_find_insert_congr _ _ i court) by (cbn; done).
    rewrite Hf. cbn. rewrite decide_True by done.
    eexists. split; [done|]. cbn. by rewrite Hid.
Qed.

Lemma getCourtMatch_recordResult_witness :
  getCourtMatch 1 Scenario.started
  = Some (Match.mk Scenario.teamA Scenario.teamB 1 (Some 1) None)
  ∧ getCourtMatch 1 Scenario.afterFirst
    = Some (Match.mk Scenario.teamA Scenario.teamC 2 (Some 1) None)
  ∧ ∃ m, getCourtMatch 1 Scenario.afterFirst = Some m
         ∧ Match.matchNumber m = QueueManager.matchCounter Scenario.started + 1.
Proof.
  split; [reflexivity|]. split; [reflexivity|].
  destruct (proj2 (proj2 (proj2
    (getCourtMatch_recordResult 0 1
       (Js.obj_literal [(15, Scenario.teamA); (12, Scenario.teamB)])
       Scenario.started)))) as (m & Hm & Hn & _); [reflexivity|].
  exists m. split; [exact Hm|exact Hn].
Defined.

(** ** Re-initialising *)

(** X17. [initialize] is a reset that keeps the numbering: whether it
    succeeds depends only on the number of courts, and the state it leaves
    depends on the earlier one only through the court ids and the match
    counter, which it does not rewind. *)
Theorem initialize_is_a_reset teams qm1 qm2 :
  Court.id <$> courtsOf qm1 = Court.id <$> courtsOf qm2 →
  QueueManager.matchCounter qm1 = QueueManager.matchCounter qm2 →
  outcome (initialize teams) qm1 = outcome (initialize teams) qm2
  ∧ (outcome (initialize teams) qm1 = Normal tt →
     after (initialize teams) qm1 = after (initialize teams) qm2)
  ∧ QueueManager.matchCounter qm1
    ≤ QueueManager.matchCounter (after (initialize teams) qm1).
Proof.
  intros Hids Hcounter.
  assert (Hlen : length (courtsOf qm1) = length (courtsOf qm2)).
  { apply (f_equal length) in Hids. by rewrite !length_fmap in Hids. }
  unfold outcome, after.
  destruct (initialize_run teams qm1)
    as [[Hshort1 ->]|(Hok1 & courts1 & -> & Hlen1 & Hlook1)];
  destruct (initialize_run teams qm2)
    as [[Hshort2 ->]|(Hok2 & courts2 & -> & Hlen2 & Hlook2)]; try lia; cbn.
  - split_and!; [done|done|lia].
  - split_and!; [done| |lia]. intros _.
    rewrite Hlen, Hcounter. do 3 f_equal.
    apply list_eq. intros j.
    destruct (courts1 !! j) as [c1|] eqn:Hc1.
    + destruct (Hlook1 _ _ Hc1) as (court1 & t1 & t2 & Hj1 & Ht1 & Ht2 & ->).
      destruct (lookup_lt_is_Some_2 courts2 j) as [c2 Hc2].
      { apply lookup_lt_Some in Hj1. lia. }
      destruct (Hlook2 _ _ Hc2) as (court2 & t1' & t2' & Hj2 & Ht1' & Ht2' & ->).
      rewrite Hc2. simplify_eq.
      assert (Hid : Court.id court1 = Court.id court2).
      { apply (f_equal (λ l, l !! j)) in Hids.
        rewrite !list_lookup_fmap, Hj1, Hj2 in Hids. by simplify_eq/=. }
      unfold initCourt. by rewrite Hid, Hcounter.
    + apply lookup_ge_None in Hc1. symmetry. apply lookup_ge_None. lia.
Qed.

Lemma initialize_is_a_reset_witness :
  Scenario.afterFirst ≠ after (addTeams [Scenario.teamE]) Scenario.afterFirst
  ∧ after (initialize [Scenario.teamC; Scenario.teamD]) Scenario.afterFirst
    = after (initialize [Scenario.teamC; Scenario.teamD])
        (after (addTeams [Scenario.teamE]) Scenario.afterFirst).
Proof.
  split; [vm_compute; discriminate|].
  apply (initialize_is_a_reset [Scenario.teamC; Scenario.teamD]
           Scenario.afterFirst
           (after (addTeams [Scenario.teamE]) Scenario.afterFirst));
    reflexivity.
Defined.

(** ** The standings *)

Lemma statsOfLog_sorted log : StronglySorted standingOrder (statsOfLog log).
Proof.
  unfold statsOfLog. apply Sorted_StronglySorted.
  { intros a b c. unfold standingOrder. lia. }
  eapply Sorted_iff; [apply compareStats_order|].
  apply Array_sort_sorted.
  intros x y. unfold compareStats. repeat case_bool_decide; lia.
Qed.

Lemma statsOfLog_perm log :
  statsOfLog log ≡ₚ (foldl statsStep [] log).*2.
Proof. apply Array_sort_perm. Qed.

Lemma statsOfLog_entry log s :
  s ∈ statsOfLog log →
  s = tally (TeamStatistics.team s) log
  ∧ ∃ r, r ∈ log
         ∧ (areTeamsEqual (MatchResult.winner r) (TeamStatistics.team s) = true
            ∨ areTeamsEqual (MatchResult.loser r) (TeamStatistics.team s) = true).
Proof.
  rewrite statsOfLog_perm. intros [k Hks]%elem_of_values.
  destruct (stats_invariant log) as (Hnd & Hkeys & Hget & _). cbv zeta in *.
  pose proof Hks as Hin. apply elem_of_Map_get in Hks; [|done].
  destruct (Hget _ _ Hks) as [-> Htally]. split; [done|].
  assert (Hk : getTeamKey (TeamStatistics.team s) ∈ (foldl statsStep [] log).*1)
    by (apply Map_get_Some_keys; eauto).
  apply Hkeys in Hk as (r & Hr & Hwl). exists r. split; [done|].
  destruct Hwl as [Hw|Hl]; [left|right];
    by apply getTeamKey_areTeamsEqual.
Qed.

Lemma statsOfLog_nil log : statsOfLog log = [] ↔ log = [].
Proof.
  split; [|by intros ->].
  intros Hnil. destruct log as [|r log]; [done|].
  destruct (stats_invariant (r :: log)) as (_ & Hkeys & _). cbv zeta in *.
  assert (Hk : getTeamKey (MatchResult.winner r)
               ∈ (foldl statsStep [] (r :: log)).*1).
  { apply Hkeys. exists r. split; [apply list_elem_of_here|by left]. }
  pose proof (statsOfLog_perm (r :: log)) as Hperm. rewrite Hnil in Hperm.
  apply Permutation_nil_l in Hperm.
  apply (f_equal length) in Hperm. rewrite length_fmap in Hperm.
  apply list_elem_of_fmap in Hk as (kv & _ & Hkv).
  destruct (foldl statsStep [] (r :: log)); [by apply elem_of_nil in Hkv|done].
Qed.

(** X18. [getSessionWinner] returns null exactly when no match has been
    logged; otherwise it returns an entry of the standings that no other
    entry beats: every entry has fewer wins, or as many wins and at most as
    many total points. *)
Theorem session_winner_leads qm :
  (getSessionWinner qm = None ↔ historyOf qm = [])
  ∧ ∀ w, getSessionWinner qm = Some w →
      w ∈ getTeamStatistics qm
      ∧ ∀ s, s ∈ getTeamStatistics qm →
          TeamStatistics.wins s < TeamStatistics.wins w
          ∨ (TeamStatistics.wins s = TeamStatistics.wins w
             ∧ TeamStatistics.totalPoints s ≤ TeamStatistics.totalPoints w).
Proof.
  unfold getSessionWinner, getTeamStatistics. split.
  - by rewrite head_None, statsOfLog_nil.
  - intros w Hw. pose proof (statsOfLog_sorted (historyOf qm)) as Hsorted.
    destruct (statsOfLog (historyOf qm)) as [|w' rest]; simplify_eq/=.
    split; [apply list_elem_of_here|].
    apply StronglySorted_inv in Hsorted as [_ Hall].
    intros s [->|Hs]%elem_of_cons; [right; split; (done || lia)|].
    rewrite Forall_forall in Hall. apply (Hall s Hs).
Qed.

Lemma session_winner_leads_witness :
  getSessionWinner Scenario.afterSecond
  = Some (TeamStatistics.mk Scenario.teamA 2 0 30 22)
  ∧ ∀ s, s ∈ getTeamStatistics Scenario.afterSecond →
      TeamStatistics.wins s < 2
      ∨ (TeamStatistics.wins s = 2 ∧ TeamStatistics.totalPoints s ≤ 30).
Proof.
  split; [reflexivity|].
  apply (proj2 (session_winner_leads Scenario.afterSecond)
           (TeamStatistics.mk Scenario.teamA 2 0 30 22)).
  reflexivity.
Defined.

Lemma sumZ_sub {A} (f g : A → Z) l :
  sumZ ((λ x, f x - g x) <$> l) = sumZ (f <$> l) - sumZ (g <$> l).
Proof.
  induction l as [|x l IH]; [done|].
  rewrite !fmap_cons. unfold sumZ in *. cbn [foldr]. lia.
Qed.

Lemma statsStep_balance m r :
  sumZ ((λ s, TeamStatistics.totalPoints s - TeamStatistics.pointsAgainst s)
          <$> (statsStep m r).*2)
  = sumZ ((λ s, TeamStatistics.totalPoints s - TeamStatistics.pointsAgainst s)
            <$> m.*2).
Proof.
  set (g := λ s, TeamStatistics.totalPoints s - TeamStatistics.pointsAgainst s).
  rewrite statsStep_eq. cbv zeta.
  set (wk := getTeamKey (MatchResult.winner r)).
  set (lk := getTeamKey (MatchResult.loser r)).
  set (m2 := ensureStats lk (MatchResult.loser r)
               (ensureStats wk (MatchResult.winner r) m)).
  assert (Hkeys : wk ∈ m2.*1 ∧ lk ∈ m2.*1).
  { pose proof (elem_of_statsStep_keys wk m r) as Hw.
    pose proof (elem_of_statsStep_keys lk m r) as Hl.
    rewrite statsStep_keys in Hw, Hl. split; [apply Hw|apply Hl]; auto. }
  destruct Hkeys as [Hw Hl].
  destruct (recordedPoints r) as [ws ls]. cbn [fst snd].
  rewrite (Map_update_sum g (- ws)), (Map_update_sum g ls),
    (Map_update_sum g (- ls)), (Map_update_sum g ws),
    (Map_update_sum g 0), (Map_update_sum g 0);
    rewrite ?Map_update_keys; try done;
    try (intros []; subst g; cbn; lia).
  subst m2. rewrite !ensureStats_sum by done. lia.
Qed.

(** X19. Over the standings the points scored add up to the points
    conceded: every point [getTeamStatistics] credits to one team it counts
    against another. *)
Theorem standings_points_balance qm :
  sumZ (TeamStatistics.totalPoints <$> getTeamStatistics qm)
  = sumZ (TeamStatistics.pointsAgainst <$> getTeamStatistics qm).
Proof.
  unfold getTeamStatistics.
  enough (Hbal : sumZ ((λ s, TeamStatistics.totalPoints s
                             - TeamStatistics.pointsAgainst s)
                         <$> statsOfLog (historyOf qm)) = 0)
    by (rewrite sumZ_sub in Hbal; lia).
  rewrite (sumZ_perm _ _ (fmap_Permutation _ _ _
             (statsOfLog_perm (historyOf qm)))).
  induction (historyOf qm) as [|r log IH] using rev_ind; [done|].
  rewrite foldl_app. cbn [foldl]. by rewrite statsStep_balance.
Qed.

Lemma sumZ_bounds {A} (f : A → Z) l :
  (∀ x, 0 ≤ f x ≤ 1) →
  0 ≤ sumZ (f <$> l) ≤ Z.of_nat (length l)
  ∧ ∀ x, x ∈ l → f x ≤ sumZ (f <$> l).
Proof.
  intros Hf. induction l as [|y l [IH1 IH2]]; cbn.
  - split; [lia|]. by intros x ?%elem_of_nil.
  - pose proof (Hf y). fold (sumZ (f <$> l)). split; [lia|].
    intros x [->|Hx]%elem_of_cons; [lia|]. specialize (IH2 x Hx). lia.
Qed.

(** X20. Every entry of the standings belongs to a team that has played:
    its wins and its losses lie between 0 and the number of logged matches,
    and together they are at least 1. *)
Theorem standings_list_teams_that_played qm s :
  s ∈ getTeamStatistics qm →
  0 ≤ TeamStatistics.wins s ≤ Z.of_nat (length (historyOf qm))
  ∧ 0 ≤ TeamStatistics.losses s ≤ Z.of_nat (length (historyOf qm))
  ∧ 1 ≤ TeamStatistics.wins s + TeamStatistics.losses s.
Proof.
  unfold getTeamStatistics. intros Hs.
  destruct (statsOfLog_entry _ _ Hs) as [Htally (r & Hr & Hwl)].
  set (t := TeamStatistics.team s) in *.
  assert (Hwon : ∀ x, 0 ≤ won t x ≤ 1)
    by (intros x; unfold won; case_match; lia).
  assert (Hlost : ∀ x, 0 ≤ lost t x ≤ 1)
    by (intros x; unfold lost; case_match; lia).
  destruct (sumZ_bounds (won t) (historyOf qm) Hwon) as [Hw1 Hw2].
  destruct (sumZ_bounds (lost t) (historyOf qm) Hlost) as [Hl1 Hl2].
  specialize (Hw2 r Hr). specialize (Hl2 r Hr).
  rewrite Htally. cbn. split_and!; try lia.
  destruct Hwl as [Heq|Heq].
  - assert (Hone : won t r = 1) by (unfold won; by rewrite Heq). lia.
  - assert (Hone : lost t r = 1) by (unfold lost; by rewrite Heq). lia.
Qed.

Lemma standings_list_teams_that_played_witness :
  getTeamStatistics Scenario.afterFirst
  = [TeamStatistics.mk Scenario.teamA 1 0 15 12;
     TeamStatistics.mk Scenario.teamB 0 1 12 15]
  ∧ 1 ≤ 0 + 1.
Proof.
  split; [reflexivity|].
  apply (standings_list_teams_that_played Scenario.afterFirst
           (TeamStatistics.mk Scenario.teamB 0 1 12 15)).
  vm_compute. apply list_elem_of_further, list_elem_of_here.
Defined.

(** ** Printing the queue *)

Lemma append_cons c s1 s2 : String c s1 +:+ s2 = String c (s1 +:+ s2).
Proof. done. Qed.

Lemma append_assoc s1 s2 s3 : (s1 +:+ s2) +:+ s3 = s1 +:+ (s2 +:+ s3).
Proof.
  induction s1 as [|c s1 IH]; [done|]. by rewrite !append_cons, IH.
Qed.

Lemma line_is_not_sentinel name1 rest :
  name1 +:+ " e " +:+ rest ≠ "Queue is empty".
Proof.
  intros H.
  do 15 (destruct name1 as [|? name1];
         cbv beta iota delta [append] in H;
         [discriminate|try discriminate; injection H as _ H]).
Qed.

Lemma Array_join_cons sep x l :
  Js.Array_join sep (x :: l)
  = match l with [] => x | _ :: _ => x +:+ sep +:+ Js.Array_join sep l end.
Proof. done. Qed.

Lemma noLineFeed_app s1 s2 :
  noLineFeed s1 → noLineFeed s2 → noLineFeed (s1 +:+ s2).
Proof.
  induction s1 as [|c s1 IH]; [done|]. rewrite append_cons.
  intros [? ?] ?. split; [done|]. by apply IH.
Qed.

Lemma splitLines_single s : noLineFeed s → splitLines s = [s].
Proof.
  induction s as [|c s IH]; [done|]. intros [Hc Hs]. cbn [splitLines].
  rewrite (proj2 (Ascii.eqb_neq _ _) Hc), (IH Hs). done.
Qed.

Lemma splitLines_app s rest :
  noLineFeed s → splitLines (s +:+ newline +:+ rest) = s :: splitLines rest.
Proof.
  induction s as [|c s IH]; [done|]. intros [Hc Hs].
  rewrite append_cons. cbn [splitLines].
  rewrite (proj2 (Ascii.eqb_neq _ _) Hc), (IH Hs). done.
Qed.

Lemma splitLines_join lines :
  lines ≠ [] → Forall noLineFeed lines →
  splitLines (Js.Array_join newline lines) = lines.
Proof.
  induction lines as [|x lines IH]; [done|]. intros _ Hall.
  apply Forall_cons in Hall as [Hx Hall]. rewrite Array_join_cons.
  destruct lines as [|y lines]; [by apply splitLines_single|].
  rewrite splitLines_app by done. f_equal. by apply IH.
Qed.

(** X21. [beautifyQueue] returns the text "Queue is empty" exactly when
    the queue is empty, whatever the players are called; for a queue that
    is not empty it returns one line per team, in queue order, so that
    splitting the text at line feeds gives the teams' lines back when no
    player name contains a line feed. *)
Theorem beautifyQueue_lines qm :
  (beautifyQueue qm = "Queue is empty" ↔ queueOf qm = [])
  ∧ (queueOf qm ≠ [] →
     (∀ team, team ∈ queueOf qm →
        noLineFeed (Player.name (Team.player1 team))
        ∧ noLineFeed (Player.name (Team.player2 team))) →
     splitLines (beautifyQueue qm) = queueLine <$> queueOf qm).
Proof.
  unfold beautifyQueue. destruct (queueOf qm) as [|team queue]; [done|].
  change (length (team :: queue) =? 0)%nat with false. cbv iota. split.
  - split; [|done]. intros Hs. exfalso. revert Hs.
    rewrite fmap_cons, Array_join_cons.
    generalize (queueLine <$> queue). intros lines. unfold queueLine.
    destruct lines; rewrite ?append_assoc; apply line_is_not_sentinel.
  - intros _ Hnames. apply splitLines_join; [done|].
    apply Forall_fmap, Forall_forall. intros t Ht.
    destruct (Hnames t Ht) as [H1 H2].
    unfold queueLine. repeat apply noLineFeed_app; done.
Qed.

Lemma beautifyQueue_lines_witness :
  splitLines (beautifyQueue Scenario.started)
  = ["Eve e Frank"; "Grace e Henry"]%string.
Proof.
  apply (proj2 (beautifyQueue_lines Scenario.started)).
  - discriminate.
  - intros team Hteam. vm_compute in Hteam.
    apply elem_of_cons in Hteam as [->|Hteam];
      [|apply elem_of_cons in Hteam as [->|Hteam];
        [|by apply elem_of_nil in Hteam]];
      vm_compute; repeat split; discriminate.
Defined.

(** ** The order in which the scores are written *)

Lemma forallb_perm {A} (f : A → bool) l1 l2 :
  l1 ≡ₚ l2 → forallb f l1 = forallb f l2.
Proof.
  induction 1 as [|x l1 l2 _ IH|x y l|l1 l2 l3 _ IH1 _ IH2]; cbn;
    [done|by rewrite IH| |congruence].
  by destruct (f x), (f y).
Qed.

Lemma entryScores_congr sm1 sm2 :
  sm1 ≡ₚ sm2 → entryScores sm1 ≡ₚ entryScores sm2.
Proof. intros Hperm. by rewrite !entryScores_perm, Hperm. Qed.

Lemma rankedScores_congr sm1 sm2 s0 s1 :
  NoDup (Js.Number <$> sm1.*1) → sm1 ≡ₚ sm2 →
  rankedScores sm1 = [s0; s1] → rankedScores sm2 = [s0; s1].
Proof.
  intros Hwf1 Hperm Hrank1.
  assert (Hwf2 : NoDup (Js.Number <$> sm2.*1)) by (by rewrite <- Hperm).
  assert (Hlen : length (entryScores sm2) = 2%nat).
  { rewrite <- (entryScores_congr _ _ Hperm), <- rankedScores_perm, Hrank1.
    done. }
  destruct (rankedScores_two _ Hlen) as (s0' & s1' & Hrank2).
  pose proof (ranked_strict _ _ _ Hwf1 Hrank1) as Hlt1.
  pose proof (ranked_strict _ _ _ Hwf2 Hrank2) as Hlt2.
  assert (Hp : [s0; s1] ≡ₚ [s0'; s1']).
  { by rewrite <- Hrank1, <- Hrank2, !rankedScores_perm,
      (entryScores_congr _ _ Hperm). }
  rewrite Hrank2.
  assert (Hin : s0 ∈ [s0'; s1']) by (rewrite <- Hp; apply list_elem_of_here).
  apply elem_of_cons in Hin as [->|Hin].
  - apply Permutation_cons_inv, Permutation_singleton_l in Hp. congruence.
  - apply list_elem_of_singleton in Hin. subst s1'.
    assert (Hin : s1 ∈ [s0'; s0])
      by (rewrite <- Hp; apply list_elem_of_further, list_elem_of_here).
    apply elem_of_cons in Hin as [->|Hin]; [lia|].
    apply list_elem_of_singleton in Hin. subst. lia.
Qed.

(** X22. The outcome of [recordResult] does not depend on the order in
    which the score map lists its entries when their scores are pairwise
    distinct: two such score maps with the same entries lead to the same
    result and the same state. *)
Theorem recordResult_score_order now courtId scoreMap1 scoreMap2 qm :
  NoDup (Js.Number <$> scoreMap1.*1) →
  scoreMap1 ≡ₚ scoreMap2 →
  recordResult now courtId scoreMap1 qm = recordResult now courtId scoreMap2 qm.
Proof.
  intros Hwf Hperm.
  pose proof (entryScores_congr _ _ Hperm) as Hentries.
  assert (Hlen : length (entryScores scoreMap1) = length (entryScores scoreMap2))
    by (by rewrite Hentries).
  assert (Hvalid : ∀ cm, validTeams cm (entryScores scoreMap1)
                         = validTeams cm (entryScores scoreMap2))
    by (intros cm; by apply forallb_perm).
  destruct (recordResult_cases now courtId scoreMap1 qm)
    as [[Hf ->]|[(i & court & Hf & Hm & ->)
       |[(i & court & cm & Hf & Hm & Hbad & ->)
       |(i & court & cm & s0 & s1 & (Hf & Hm & Hl & Hv) & Hrank & Hrun)]]].
  - symmetry. by apply recordResult_not_found.
  - symmetry. by eapply recordResult_no_match.
  - symmetry. eapply recordResult_invalid; [done..|].
    rewrite <- Hlen, <- Hvalid. done.
  - assert (Hcall : validCall qm courtId scoreMap2 i court cm).
    { split_and!; [done|done|by rewrite <- Hlen|by rewrite <- Hvalid]. }
    pose proof (rankedScores_congr _ _ _ _ Hwf Hperm Hrank) as Hrank2.
    destruct Hrun as [(q0 & q1 & rest & Hs & Hq & ->)|[Hcond ->]]; symmetry.
    + by eapply recordResult_double.
    + by apply recordResult_single.
Qed.

Lemma recordResult_score_order_witness :
  Js.obj_literal [(12, Scenario.teamB); (15, Scenario.teamA)]
  ≠ Js.obj_literal [(15, Scenario.teamA); (12, Scenario.teamB)]
  ∧ recordResult 0 1 (Js.obj_literal [(12, Scenario.teamB); (15, Scenario.teamA)])
      Scenario.started
    = recordResult 0 1
        (Js.obj_literal [(15, Scenario.teamA); (12, Scenario.teamB)])
        Scenario.started.
Proof.
  split; [vm_compute; discriminate|].
  apply (recordResult_score_order 0 1
           (Js.obj_literal [(12, Scenario.teamB); (15, Scenario.teamA)])
           (Js.obj_literal [(15, Scenario.teamA); (12, Scenario.teamB)])
           Scenario.started).
  - apply (bool_decide_unpack _). vm_compute. exact I.
  - vm_compute. apply Permutation_swap.
Defined.

(** ** Starting a session *)

Lemma courtKeys_paired courts : ∀ teams,
  (∀ j court, courts !! j = Some court →
     ∃ team1 team2,
       teams !! (2 * j)%nat = Some team1
       ∧ teams !! (2 * j + 1)%nat = Some team2
       ∧ courtKeys court = [getTeamKey team1; getTeamKey team2]) →
  courts ≫= courtKeys = getTeamKey <$> take (2 * length courts) teams.
Proof.
  induction courts as [|c courts IH]; intros teams Hpair; [done|].
  destruct (Hpair 0%nat c eq_refl) as (t1 & t2 & Ht1 & Ht2 & Hkeys).
  destruct teams as [|t1' [|t2' rest]]; try done.
  injection Ht1 as ->. injection Ht2 as ->.
  rewrite bind_cons, Hkeys.
  replace (2 * length (c :: courts))%nat with (S (S (2 * length courts)))
    by (cbn [length]; lia).
  cbn [take app]. rewrite !fmap_cons. do 2 f_equal.
  apply IH. intros j court Hj.
  destruct (Hpair (S j) court Hj) as (u1 & u2 & Hu1 & Hu2 & Hk).
  exists u1, u2. split_and!; [| |done].
  - replace (2 * S j)%nat with (S (S (2 * j))) in Hu1 by lia. done.
  - replace (2 * S j + 1)%nat with (S (S (2 * j + 1))) in Hu2 by lia. done.
Qed.

Lemma teamsInPlay_initialize teams qm :
  outcome (initialize teams) qm = Normal tt →
  teamsInPlay (after (initialize teams) qm) = getTeamKey <$> teams.
Proof.
  unfold outcome, after.
  destruct (initialize_run teams qm)
    as [[_ ->]|(_ & courts' & -> & Hlen & Hlook)]; [done|].
  intros _. unfold teamsInPlay. cbn.
  rewrite (courtKeys_paired courts' teams).
  - by rewrite Hlen, <- fmap_app, take_drop.
  - intros j c' Hc'.
    destruct (Hlook _ _ Hc') as (court & t1 & t2 & _ & Ht1 & Ht2 & ->).
    by exists t1, t2.
Qed.

(** X23. A successful [initialize] puts every team it is given in play
    exactly once and in input order: the team identities on the courts
    followed by those in the queue are the identities of the input list. *)
Theorem initialize_puts_every_team_in_play teams qm :
  outcome (initialize teams) qm = Normal tt →
  teamsInPlay (after (initialize teams) qm) = getTeamKey <$> teams.
Proof. apply teamsInPlay_initialize. Qed.

Lemma initialize_puts_every_team_in_play_witness :
  teamsInPlay Scenario.started = ["1-2"; "3-4"; "5-6"; "7-8"]%string
  ∧ teamsInPlay Scenario.started
    = getTeamKey <$> [Scenario.teamA; Scenario.teamB; Scenario.teamC;
                      Scenario.teamD].
Proof.
  split; [reflexivity|].
  apply (initialize_puts_every_team_in_play
           [Scenario.teamA; Scenario.teamB; Scenario.teamC; Scenario.teamD]
           Scenario.fresh).
  reflexivity.
Defined.

(** ** No team is in play twice *)

Lemma areTeamsEqual_trans a b c :
  areTeamsEqual a b = true → areTeamsEqual b c = true →
  areTeamsEqual a c = true.
Proof. rewrite !areTeamsEqual_sortedIds. congruence. Qed.

Lemma court_teams_differ courts i court cm :
  NoDup (courts ≫= courtKeys) →
  courts !! i = Some court → Court.currentMatch court = Some cm →
  areTeamsEqual (Match.team1 cm) (Match.team2 cm) = false.
Proof.
  intros Hnd Hi Hm. rewrite <- (take_drop_middle courts i court Hi) in Hnd.
  rewrite bind_app, bind_cons in Hnd.
  apply NoDup_app in Hnd as (_ & _ & Hnd).
  apply NoDup_app in Hnd as (Hnd & _ & _).
  unfold courtKeys in Hnd. rewrite Hm in Hnd.
  apply NoDup_cons in Hnd as [Hne _].
  destruct (areTeamsEqual _ _) eqn:Heq; [|done].
  apply getTeamKey_areTeamsEqual in Heq. destruct Hne. rewrite Heq.
  apply list_elem_of_here.
Qed.

(** With two entries, each naming a team of the match, and both teams
    named, the entries name the two teams one each. *)
Lemma names_one_each scoreMap cm s0 s1 :
  rankedScores scoreMap = [s0; s1] →
  validTeams cm (entryScores scoreMap) = true →
  areTeamsEqual (Match.team1 cm) (Match.team2 cm) = false →
  (∃ s, s ∈ entryScores scoreMap
        ∧ areTeamsEqual (Score.team s) (Match.team1 cm) = true) →
  (∃ s, s ∈ entryScores scoreMap
        ∧ areTeamsEqual (Score.team s) (Match.team2 cm) = true) →
  (areTeamsEqual (Score.team s0) (Match.team1 cm) = true
   ∧ areTeamsEqual (Score.team s1) (Match.team2 cm) = true)
  ∨ (areTeamsEqual (Score.team s0) (Match.team2 cm) = true
     ∧ areTeamsEqual (Score.team s1) (Match.team1 cm) = true).
Proof.
  intros Hrank Hvalid Hdiff (a & Ha & Ha1) (b & Hb & Hb2).
  assert (Hmem : ∀ s, s ∈ entryScores scoreMap ↔ s = s0 ∨ s = s1).
  { intros s. rewrite <- rankedScores_perm, Hrank.
    rewrite elem_of_cons, list_elem_of_singleton. done. }
  assert (Hnot : ∀ t, areTeamsEqual t (Match.team1 cm) = true →
                      areTeamsEqual t (Match.team2 cm) = true → False).
  { intros t H1 H2. rewrite areTeamsEqual_sym in H1.
    by rewrite (areTeamsEqual_trans _ _ _ H1 H2) in Hdiff. }
  apply Hmem in Ha, Hb.
  destruct Ha as [-> | ->], Hb as [-> | ->]; auto; exfalso; eauto.
Qed.

Lemma NoDup_recordResult now courtId scoreMap qm :
  namesBothTeams qm courtId scoreMap →
  NoDup (teamsInPlay qm) →
  NoDup (teamsInPlay (after (recordResult now courtId scoreMap) qm)).
Proof.
  intros Hnames Hnd.
  destruct (recordResult_run now courtId scoreMap qm)
    as [[_ ->]|(i & court & cm & s0 & s1 & t1 & t2 & streak & holder & queue'
                & Hcall & Hrank & _)]; [done|].
  pose proof Hcall as (Hf & Hm & _ & Hvalid).
  destruct (Hnames i court cm Hf Hm) as [H1 H2].
  assert (Hperm : teamsInPlay (after (recordResult now courtId scoreMap) qm)
                  ≡ₚ teamsInPlay qm); [|by rewrite Hperm].
  apply (recordResult_preserves_teams now courtId scoreMap qm i court cm s0 s1);
    [done|done|].
  apply (names_one_each scoreMap); try done.
  apply NoDup_app in Hnd as (Hnd & _).
  eapply court_teams_differ; [done| |done]. by eapply list_find_lookup.
Qed.

Lemma validCall_returns now courtId scoreMap qm i court cm :
  validCall qm courtId scoreMap i court cm →
  outcome (recordResult now courtId scoreMap) qm = Normal tt.
Proof.
  intros (Hf & Hm & Hlen & Hvalid). unfold outcome.
  destruct (recordResult_cases now courtId scoreMap qm)
    as [[Hf' _]|[(?&?& Hf' & Hm' & _)|[(?&?&?& Hf' & Hm' & Hbad & _)
       |(?&?&?&?&?& _ & _ & [(?&?&?&_&_& ->)|[_ ->]])]]];
    try done; simplify_eq.
  destruct Hbad; congruence.
Qed.

(** X15. When the court's match is between two different teams and the
    score map has two entries naming both of them, [recordResult] returns
    and keeps the team identities in play: those on the courts and in the
    queue afterwards are those from before, rearranged. *)
Theorem recordResult_keeps_teams_in_play now courtId scoreMap qm i court cm :
  validCall qm courtId scoreMap i court cm →
  areTeamsEqual (Match.team1 cm) (Match.team2 cm) = false →
  (∃ s, s ∈ entryScores scoreMap
        ∧ areTeamsEqual (Score.team s) (Match.team1 cm) = true) →
  (∃ s, s ∈ entryScores scoreMap
        ∧ areTeamsEqual (Score.team s) (Match.team2 cm) = true) →
  outcome (recordResult now courtId scoreMap) qm = Normal tt
  ∧ teamsInPlay (after (recordResult now courtId scoreMap) qm)
    ≡ₚ teamsInPlay qm.
Proof.
  intros Hcall Hdiff H1 H2. pose proof Hcall as (Hf & Hm & Hlen & Hvalid).
  destruct (rankedScores_two _ Hlen) as (s0 & s1 & Hrank). split.
  - by eapply validCall_returns.
  - apply (recordResult_preserves_teams now courtId scoreMap qm i court cm s0 s1);
      [done..|].
    by apply (names_one_each scoreMap).
Qed.

Lemma recordResult_keeps_teams_in_play_witness :
  teamsInPlay Scenario.started = ["1-2"; "3-4"; "5-6"; "7-8"]%string
  ∧ teamsInPlay Scenario.afterFirst = ["1-2"; "5-6"; "7-8"; "3-4"]%string
  ∧ teamsInPlay Scenario.afterFirst ≡ₚ teamsInPlay Scenario.started.
Proof.
  split; [reflexivity|]. split; [reflexivity|].
  apply (recordResult_keeps_teams_in_play 0 1
           (Js.obj_literal [(15, Scenario.teamA); (12, Scenario.teamB)])
           Scenario.started 0
           (Court.mk 1
              (Some (Match.mk Scenario.teamA Scenario.teamB 1 (Some 1) None))
              0 None)
           (Match.mk Scenario.teamA Scenario.teamB 1 (Some 1) None)).
  - repeat split; vm_compute; reflexivity.
  - vm_compute. reflexivity.
  - exists (Score.mk Scenario.teamA 15). split; [|vm_compute; reflexivity].
    vm_compute. apply list_elem_of_further, list_elem_of_here.
  - exists (Score.mk Scenario.teamB 12). split; [|vm_compute; reflexivity].
    vm_compute. apply list_elem_of_here.
Defined.

Lemma regular_teams_distinct qm : regular qm → NoDup (teamsInPlay qm).
Proof.
  induction 1 as [numberOfCourts qm Hnew|teams qm _ IH Hteams
                  |teams qm _ IH Hteams|now courtId scoreMap qm _ IH Hnames].
  - destruct (new_QueueManager_run numberOfCourts) as [[_ Hrun]|[Hn Hrun]];
      rewrite Hrun in Hnew; simplify_eq.
    unfold teamsInPlay, courtsOf, queueOf.
    cbn [QueueManager.state SystemState.courts SystemState.queue].
    assert (Hnone : ∀ l : list nat, (newCourt <$> l) ≫= courtKeys = []).
    { induction l as [|j l IHl]; [done|].
      rewrite fmap_cons, bind_cons. by rewrite IHl. }
    rewrite Hnone. apply NoDup_nil_2.
  - destruct (outcome (initialize teams) qm) as [[]|e] eqn:Hout.
    + by rewrite (teamsInPlay_initialize teams qm Hout).
    + unfold outcome, after in *.
      destruct (initialize_run teams qm) as [[_ Hrun]|(_ & courts' & Hrun & _)];
        rewrite Hrun in *; [done|discriminate].
  - by apply NoDup_addTeams.
  - by apply NoDup_recordResult.
Qed.

(** X24. In a session played by the book (pairwise distinct teams given to
    [initialize] and to each [addTeams] call, every score map naming both
    teams of the match) no team is ever in play twice: the identities on
    the courts and in the queue are pairwise distinct, and the two teams of
    every match in progress are different teams. *)
Theorem no_team_in_play_twice qm :
  regular qm →
  NoDup (teamsInPlay qm)
  ∧ ∀ court m, court ∈ courtsOf qm → Court.currentMatch court = Some m →
      areTeamsEqual (Match.team1 m) (Match.team2 m) = false.
Proof.
  intros Hreg. pose proof (regular_teams_distinct qm Hreg) as Hnd.
  split; [done|]. intros court m [i Hi]%list_elem_of_lookup Hm.
  apply NoDup_app in Hnd as (Hnd & _). by eapply court_teams_differ.
Qed.

Lemma no_team_in_play_twice_witness :
  teamsInPlay Scenario.afterSecond = ["7-8"; "3-4"; "1-2"; "5-6"]%string
  ∧ NoDup (teamsInPlay Scenario.afterSecond).
Proof.
  split; [reflexivity|].
  apply (no_team_in_play_twice Scenario.afterSecond).
  apply regular_recordResult; [apply regular_recordResult;
    [apply regular_initialize; [apply (regular_new 1); reflexivity|]|]|].
  - apply (bool_decide_unpack _). vm_compute. exact I.
  - intros i court cm Hf Hm. vm_compute in Hf. injection Hf as <- <-.
    injection Hm as <-. split.
    + exists (Score.mk Scenario.teamA 15). split; [|vm_compute; reflexivity].
      vm_compute. apply list_elem_of_further, list_elem_of_here.
    + exists (Score.mk Scenario.teamB 12). split; [|vm_compute; reflexivity].
      vm_compute. apply list_elem_of_here.
  - intros i court cm Hf Hm. vm_compute in Hf. injection Hf as <- <-.
    injection Hm as <-. split.
    + exists (Score.mk Scenario.teamA 15). split; [|vm_compute; reflexivity].
      vm_compute. apply list_elem_of_further, list_elem_of_here.
    + exists (Score.mk Scenario.teamC 10). split; [|vm_compute; reflexivity].
      vm_compute. apply list_elem_of_here.
Defined.

(** ** The standings of a session played by the book *)

Lemma recordedPoints_logged r :
  wellRecorded r → recordedPoints r = loggedPoints r.
Proof.
  intros [Hdiff (a & b & Hs)]. unfold recordedPoints, loggedPoints, findScore.
  rewrite Hs. cbn [fst snd Score.team Score.score].
  rewrite !areTeamsEqual_refl, Hdiff. done.
Qed.

Lemma regular_log_wellRecorded qm :
  regular qm → Forall wellRecorded (historyOf qm).
Proof.
  induction 1 as [numberOfCourts qm Hnew|teams qm Hreg IH Hteams
                  |teams qm Hreg IH Hteams
                  |now courtId scoreMap qm Hreg IH Hnames].
  - destruct (new_QueueManager_run numberOfCourts) as [[_ Hrun]|[Hn Hrun]];
      rewrite Hrun in Hnew; simplify_eq. constructor.
  - unfold after.
    destruct (initialize_run teams qm)
      as [[_ ->]|(_ & courts' & -> & _)]; [done|constructor].
  - unfold after. by destruct (addTeams_run teams qm) as [[_ ->]|[_ ->]].
  - destruct (recordResult_run now courtId scoreMap qm)
      as [[_ ->]|(i & court & cm & s0 & s1 & t1 & t2 & streak & holder & queue'
                  & Hcall & Hrank & Hrun & _)]; [done|].
    unfold after. rewrite Hrun. cbn. apply Forall_app. split; [done|].
    apply Forall_singleton.
    pose proof Hcall as (Hf & Hm & _ & Hvalid).
    destruct (Hnames i court cm Hf Hm) as [H1 H2].
    assert (Hdiff : areTeamsEqual (Match.team1 cm) (Match.team2 cm) = false).
    { pose proof (regular_teams_distinct qm Hreg) as Hnd.
      apply NoDup_app in Hnd as (Hnd & _).
      eapply court_teams_differ; [done| |done]. by eapply list_find_lookup. }
    split; [|by eexists _, _].
    cbn. destruct (areTeamsEqual (Score.team s0) (Score.team s1)) eqn:Heq;
      [exfalso|done].
    assert (Hsame : ∀ t, areTeamsEqual (Score.team s0) t = true →
                         areTeamsEqual (Score.team s1) t = true).
    { intros t Ht. rewrite areTeamsEqual_sym in Heq.
      by eapply areTeamsEqual_trans. }
    assert (Hsame' : ∀ t, areTeamsEqual (Score.team s1) t = true →
                          areTeamsEqual (Score.team s0) t = true).
    { intros t Ht. by eapply areTeamsEqual_trans. }
    assert (Hboth : areTeamsEqual (Score.team s0) (Match.team1 cm) = true
                    ∧ areTeamsEqual (Score.team s0) (Match.team2 cm) = true).
    { destruct (names_one_each scoreMap cm s0 s1 Hrank Hvalid Hdiff H1 H2)
        as [[Ha Hb]|[Ha Hb]]; auto. }
    destruct Hboth as [Ha Hb]. rewrite areTeamsEqual_sym in Ha.
    by rewrite (areTeamsEqual_trans _ _ _ Ha Hb) in Hdiff.
Qed.

(** X26. In a session played by the book every entry of
    [getTeamStatistics] follows the log: its wins and losses are the
    numbers of logged results its team won and lost, its total points the
    scores the log records for the team (the winner's score of each result
    it won, the loser's score of each result it lost), its points against
    the scores the log records for its opponents. *)
Theorem standings_follow_the_log qm s :
  regular qm →
  s ∈ getTeamStatistics qm →
  TeamStatistics.wins s = sumZ (won (TeamStatistics.team s) <$> historyOf qm)
  ∧ TeamStatistics.losses s
    = sumZ (lost (TeamStatistics.team s) <$> historyOf qm)
  ∧ TeamStatistics.totalPoints s
    = pointsScored (TeamStatistics.team s) (historyOf qm)
  ∧ TeamStatistics.pointsAgainst s
    = pointsConceded (TeamStatistics.team s) (historyOf qm).
Proof.
  intros Hreg Hs. unfold getTeamStatistics in Hs.
  destruct (statsOfLog_entry _ _ Hs) as [Htally _].
  pose proof (regular_log_wellRecorded qm Hreg) as Hlog.
  rewrite Forall_forall in Hlog.
  assert (Hpoints : ∀ f g : Z → Z → Z → Z → Z,
    sumZ ((λ r, f (won (TeamStatistics.team s) r)
                  (lost (TeamStatistics.team s) r)
                  (recordedPoints r).1 (recordedPoints r).2)
            <$> historyOf qm)
    = sumZ ((λ r, f (won (TeamStatistics.team s) r)
                    (lost (TeamStatistics.team s) r)
                    (loggedPoints r).1 (loggedPoints r).2)
              <$> historyOf qm)).
  { intros f _. f_equal. apply list_fmap_ext. intros j r Hr.
    rewrite recordedPoints_logged; [done|].
    apply Hlog. by eapply list_elem_of_lookup_2. }
  rewrite Htally at 1 3 5 7. unfold tally, pointsScored, pointsConceded.
  cbn [TeamStatistics.wins TeamStatistics.losses TeamStatistics.totalPoints
       TeamStatistics.pointsAgainst].
  split_and!; [done|done| |].
  - apply (Hpoints (λ w l p1 p2, w * p1 + l * p2) (λ _ _ _ _, 0)).
  - apply (Hpoints (λ w l p1 p2, w * p2 + l * p1) (λ _ _ _ _, 0)).
Qed.

(** The four-team session is played by the book. *)
Lemma scenario_regular : regular Scenario.afterSecond.
Proof.
  apply regular_recordResult; [apply regular_recordResult;
    [apply regular_initialize; [apply (regular_new 1); reflexivity|]|]|].
  - apply (bool_decide_unpack _). vm_compute. exact I.
  - intros i court cm Hf Hm. vm_compute in Hf. injection Hf as <- <-.
    injection Hm as <-. split.
    + exists (Score.mk Scenario.teamA 15). split; [|vm_compute; reflexivity].
      vm_compute. apply list_elem_of_further, list_elem_of_here.
    + exists (Score.mk Scenario.teamB 12). split; [|vm_compute; reflexivity].
      vm_compute. apply list_elem_of_here.
  - intros i court cm Hf Hm. vm_compute in Hf. injection Hf as <- <-.
    injection Hm as <-. split.
    + exists (Score.mk Scenario.teamA 15). split; [|vm_compute; reflexivity].
      vm_compute. apply list_elem_of_further, list_elem_of_here.
    + exists (Score.mk Scenario.teamC 10). split; [|vm_compute; reflexivity].
      vm_compute. apply list_elem_of_here.
Defined.

Lemma standings_follow_the_log_witness :
  getTeamStatistics Scenario.afterSecond
  = [TeamStatistics.mk Scenario.teamA 2 0 30 22;
     TeamStatistics.mk Scenario.teamB 0 1 12 15;
     TeamStatistics.mk Scenario.teamC 0 1 10 15]
  ∧ pointsScored Scenario.teamA (historyOf Scenario.afterSecond) = 30
  ∧ pointsConceded Scenario.teamA (historyOf Scenario.afterSecond) = 22.
Proof.
  split; [reflexivity|].
  destruct (standings_follow_the_log Scenario.afterSecond
              (TeamStatistics.mk Scenario.teamA 2 0 30 22))
    as (_ & _ & Hfor & Hagainst).
  - exact scenario_regular.
  - vm_compute. apply list_elem_of_here.
  - split; [symmetry; exact Hfor|symmetry; exact Hagainst].
Defined.

(** *** Matches and results carry the id of their court *)

Lemma same_ids_court (courts courts' : list Court.t) court :
  Court.id <$> courts' = Court.id <$> courts →
  court ∈ courts → ∃ court', court' ∈ courts' ∧ Court.id court' = Court.id court.
Proof.
  intros Hids Hin. apply (list_elem_of_fmap_2 Court.id) in Hin.
  rewrite <- Hids in Hin.
  apply list_elem_of_fmap in Hin as (court' & Heq & Hin'). eauto.
Qed.

Lemma reachable_tagsOk qm : reachable qm → tagsOk qm.
Proof.
  induction 1 as [numberOfCourts qm Hnew|teams qm _ IH|teams qm _ IH
                  |now courtId scoreMap qm _ IH].
  - destruct (new_QueueManager_run numberOfCourts) as [[_ Hrun]|[Hn Hrun]];
      rewrite Hrun in Hnew; simplify_eq.
    split.
    + intros court m (j & -> & _)%list_elem_of_fmap. done.
    + by intros r ?%elem_of_nil.
  - unfold after.
    destruct (initialize_run teams qm)
      as [[_ ->]|(_ & courts' & -> & Hlen & Hlook)]; [done|].
    split.
    + intros c' m [j Hj]%list_elem_of_lookup Hm. cbn in Hj.
      destruct (Hlook _ _ Hj) as (court & t1 & t2 & _ & _ & _ & ->).
      cbn in Hm. by simplify_eq.
    + by intros r ?%elem_of_nil.
  - unfold after. by destruct (addTeams_run teams qm) as [[_ ->]|[_ ->]].
  - destruct IH as [Hcourts Hlog].
    pose proof (courtIds_recordResult now courtId scoreMap qm) as Hids.
    destruct (recordResult_run now courtId scoreMap qm)
      as [[_ ->]|(i & court & cm & s0 & s1 & t1 & t2 & streak & holder & queue'
                  & (Hf & Hm & _) & _ & Hrun & _)]; [done|].
    unfold after in *. rewrite Hrun in *. cbn in Hids.
    apply list_find_lookup in Hf.
    assert (Hcourt : court ∈ courtsOf qm) by (by eapply list_elem_of_lookup_2).
    split.
    + intros c' m [j Hj]%list_elem_of_lookup Hm'. cbn in Hj.
      destruct (decide (j = i)) as [->|Hne].
      * rewrite list_lookup_insert_eq in Hj by (by eapply lookup_lt_Some).
        by simplify_eq/=.
      * rewrite list_lookup_insert_ne in Hj by done.
        apply (Hcourts c' m); [by eapply list_elem_of_lookup_2|done].
    + intros r Hr. cbn in Hr. apply elem_of_app in Hr as [Hr|Hr].
      * destruct (Hlog r Hr) as [Htag (c & Hc & Hid)]. split; [done|].
        destruct (same_ids_court _ _ c Hids Hc) as (c' & Hc' & Hid').
        exists c'. split; [done|]. by rewrite Hid'.
      * apply list_elem_of_singleton in Hr as ->. cbn. split.
        { symmetry. by apply (Hcourts court cm). }
        destruct (same_ids_court _ _ court Hids Hcourt) as (c' & Hc' & Hid').
        exists c'. split; [done|]. by rewrite Hid'.
Qed.

(** X25. In every session a match in progress is tagged with the id of
    the court it is on, and every logged result is tagged with the id of a
    court of the manager, the same id its match was tagged with. *)
Theorem court_tags_agree qm :
  reachable qm →
  (∀ court m, court ∈ courtsOf qm → Court.currentMatch court = Some m →
     Match.courtId m = Some (Court.id court))
  ∧ (∀ r, r ∈ historyOf qm →
       MatchResult.courtId r = Match.courtId (MatchResult.match_ r)
       ∧ ∃ court, court ∈ courtsOf qm
                  ∧ MatchResult.courtId r = Some (Court.id court)).
Proof. apply reachable_tagsOk. Qed.

Lemma court_tags_agree_witness :
  (MatchResult.courtId <$> historyOf Scenario.afterSecond) = [Some 1; Some 1]
  ∧ ∀ r, r ∈ historyOf Scenario.afterSecond →
      MatchResult.courtId r = Match.courtId (MatchResult.match_ r)
      ∧ ∃ court, court ∈ courtsOf Scenario.afterSecond
                 ∧ MatchResult.courtId r = Some (Court.id court).
Proof.
  split; [reflexivity|].
  exact (proj2 (court_tags_agree Scenario.afterSecond scenario_reachable)).
Defined.

(** ** Property names *)

Lemma without_point_uint d : without "." (NilEmpty.string_of_uint d).
Proof. induction d; simpl; (done || by split). Qed.

Lemma ToString_without_point z : without "." (Js.ToString z).
Proof.
  unfold Js.ToString.
  assert (Huint : ∀ d, without "." (NilZero.string_of_uint d)).
  { intros d. pose proof (without_point_uint d). by destruct d. }
  destruct (Z.to_int z); simpl; [apply Huint|]. split; [done|apply Huint].
Qed.

Lemma split_at c u : ∀ u' r r',
  without c u → without c u' →
  u +:+ String c r = u' +:+ String c r' → u = u' ∧ r = r'.
Proof.
  induction u as [|a u IH]; intros [|a' u'] r r' Hu Hu' Heq; simpl in *.
  - by simplify_eq.
  - destruct Hu'. by simplify_eq.
  - destruct Hu. by simplify_eq.
  - destruct Hu, Hu'. injection Heq as -> Heq.
    by destruct (IH _ _ _ ltac:(done) ltac:(done) Heq) as [-> ->].
Qed.

Lemma without_not_split c u : ∀ u' r,
  without c u → u ≠ u' +:+ String c r.
Proof.
  induction u as [|a u IH]; intros [|a' u'] r Hu Heq;
    cbv beta iota delta [append] in Heq; try discriminate;
    fold append in Heq; destruct Hu as [Ha Hu].
  - injection Heq as -> _. done.
  - injection Heq as -> Heq. by eapply IH.
Qed.

Lemma zeros_text_inj n m : Js.zeros_text n = Js.zeros_text m → n = m.
Proof.
  revert m. induction n as [|n IH]; intros [|m] Heq; simplify_eq/=; [done|].
  f_equal. by apply IH.
Qed.

(** Two property names are the same name exactly when they are the same
    string. *)
Lemma key_text_inj k1 k2 : Js.key_text k1 = Js.key_text k2 → k1 = k2.
Proof.
  destruct k1 as [n|n z], k2 as [m|m y]; unfold Js.key_text; intros Heq.
  - f_equal. by apply ToString_inj.
  - exfalso. revert Heq. apply without_not_split, ToString_without_point.
  - exfalso. symmetry in Heq. revert Heq.
    apply without_not_split, ToString_without_point.
  - change ("." +:+ ?x) with (String "." x) in Heq.
    apply split_at in Heq as [Hn Hz]; try apply ToString_without_point.
    apply ToString_inj in Hn. apply zeros_text_inj in Hz.
    by simplify_eq.
Qed.
